(** * AI-Assistant: intent classification, memory store, calendar and mailbox

    A shallow embedding of the Python sources
      - [agent_core.py]      (PersonalAssistant)
      - [memory.py]          (ConversationMemory)
      - [tools/calendar.py]  (CalendarTool)
      - [tools/email.py]     (EmailTool)
      - [tools/weather.py]   (WeatherTool)
    together with the properties the specification states about them.

    Modelling conventions.
      - A Python [str] is the list of its Unicode code points ([list N]).
        Literals are written in UTF-8 and decoded by [u].
      - The Unicode tables behind [str.lower], [str.split], [\d], [\w] and
        [\s] belong to the interpreter; the development is parametric in them
        (class [Unicode]) and runs examples on the ASCII instance.
      - A [float] the program is given or writes down (an importance, a
        confidence) is represented by its value, a rational ([Q]).  What
        the program computes from floats is computed in IEEE 754 binary64
        arithmetic (module [Float]), with its rounding, infinities and
        NaN.
      - A call that can raise by itself returns a [returned] value: the
        result, or the exception.
      - [datetime.now()] is an input: every function that reads the clock takes
        the reading as an argument.
      - In-place mutation is explicit state passing: a method returns its
        result together with the new object state. *)

From stdpp Require Import gmap list fin_maps sorting strings.
From Stdlib Require Import QArith Qabs Lqa.
From Stdlib Require Floats.SpecFloat.
From Stdlib Require Ascii String.

Close Scope Q_scope.
Open Scope N_scope.

(** ** Python strings *)

Definition str := list N.

Module Utf8.

Definition bytes (s : String.string) : list N :=
  map Ascii.N_of_ascii (String.list_ascii_of_string s).

Definition cont (b : N) : N := N.land b 63.

(** Decoder for well-formed UTF-8; a truncated sequence ends the output. *)
Fixpoint decode (bs : list N) : str :=
  match bs with
  | [] => []
  | b0 :: r0 =>
      if b0 <? 128 then b0 :: decode r0
      else match r0 with
      | [] => []
      | b1 :: r1 =>
          if b0 <? 224 then
            N.lor (N.shiftl (N.land b0 31) 6) (cont b1) :: decode r1
          else match r1 with
          | [] => []
          | b2 :: r2 =>
              if b0 <? 240 then
                N.lor (N.shiftl (N.land b0 15) 12)
                  (N.lor (N.shiftl (cont b1) 6) (cont b2)) :: decode r2
              else match r2 with
              | [] => []
              | b3 :: r3 =>
                  N.lor (N.shiftl (N.land b0 7) 18)
                    (N.lor (N.shiftl (cont b1) 12)
                       (N.lor (N.shiftl (cont b2) 6) (cont b3))) :: decode r3
              end
          end
      end
  end.

End Utf8.

(** [u "..."] is the Python string with the given (UTF-8) source text. *)
Definition u (s : String.string) : str := Utf8.decode (Utf8.bytes s).
Arguments u s%_string.

Definition str_eqb (a b : str) : bool := bool_decide (a = b).

(** [is_prefix p s]: [s.startswith(p)]. *)
Fixpoint is_prefix (p s : str) : bool :=
  match p, s with
  | [], _ => true
  | _ :: _, [] => false
  | a :: p', b :: s' => (a =? b) && is_prefix p' s'
  end.

(** [contains needle hay]: Python's [needle in hay] on strings. *)
Fixpoint contains (needle hay : str) : bool :=
  is_prefix needle hay ||
  match hay with
  | [] => false
  | _ :: hay' => contains needle hay'
  end.

(** Lexicographic order on code points: Python's [<] on [str]. *)
Fixpoint str_ltb (a b : str) : bool :=
  match a, b with
  | _, [] => false
  | [], _ :: _ => true
  | x :: a', y :: b' => (x <? y) || ((x =? y) && str_ltb a' b')
  end.

(** Python slices [l[:n]] and [l[n:]] for any integer [n]: a negative bound
    counts from the end. *)
Definition slice_to {A} (n : Z) (l : list A) : list A :=
  if (0 <=? n)%Z then take (Z.to_nat n) l
  else take (length l - Z.to_nat (- n)) l.

Definition slice_from {A} (n : Z) (l : list A) : list A :=
  if (0 <=? n)%Z then drop (Z.to_nat n) l
  else drop (length l - Z.to_nat (- n)) l.

(** Decimal rendering of an integer, as [str(n)] and f-strings do. *)
Fixpoint digits_of_uint (d : Decimal.uint) : str :=
  match d with
  | Decimal.Nil => []
  | Decimal.D0 d => 48 :: digits_of_uint d
  | Decimal.D1 d => 49 :: digits_of_uint d
  | Decimal.D2 d => 50 :: digits_of_uint d
  | Decimal.D3 d => 51 :: digits_of_uint d
  | Decimal.D4 d => 52 :: digits_of_uint d
  | Decimal.D5 d => 53 :: digits_of_uint d
  | Decimal.D6 d => 54 :: digits_of_uint d
  | Decimal.D7 d => 55 :: digits_of_uint d
  | Decimal.D8 d => 56 :: digits_of_uint d
  | Decimal.D9 d => 57 :: digits_of_uint d
  end.

Definition str_of_Z (z : Z) : str :=
  match z with
  | Zneg p => 45 :: digits_of_uint (Pos.to_uint p)
  | _ => digits_of_uint (N.to_uint (Z.to_N z))
  end.

Definition str_of_nat (n : nat) : str := str_of_Z (Z.of_nat n).

(** ** Calls that raise

    The exceptions the modelled code can raise by itself, with [str(e)],
    and the result of a call that returns a value or raises. *)

Inductive exception :=
| ValueError (message : str).

Inductive returned (A : Type) :=
| Returns (a : A)
| Raises (e : exception).
Arguments Returns {A} a.
Arguments Raises {A} e.

(** ** The interpreter's Unicode tables *)

Class Unicode := {
  (** [str.lower()] *)
  lower : str → str;
  (** [str.isspace()], which is also what [\s] and [str.split()] use *)
  isspace : N → bool;
  (** alphanumeric code points; [\w] is these and the underscore *)
  isalnum : N → bool;
  (** the value of a decimal digit; [\d] matches where this is defined *)
  decimal : N → option Z;
}.

Module Ascii_tables.

Definition lower_cp (c : N) : N :=
  if (65 <=? c) && (c <=? 90) then c + 32 else c.

Definition space_cp (c : N) : bool :=
  ((9 <=? c) && (c <=? 13)) || ((28 <=? c) && (c <=? 32)).

Definition digit_cp (c : N) : option Z :=
  if (48 <=? c) && (c <=? 57) then Some (Z.of_N (c - 48)) else None.

(** Letters and digits of ASCII; every code point from U+0080 on counts as
    a letter (true of the CJK text the examples use). *)
Definition alnum_cp (c : N) : bool :=
  ((48 <=? c) && (c <=? 57)) || ((65 <=? c) && (c <=? 90))
  || ((97 <=? c) && (c <=? 122)) || (128 <=? c).

End Ascii_tables.

#[export] Instance ascii_unicode : Unicode := {|
  lower := map Ascii_tables.lower_cp;
  isspace := Ascii_tables.space_cp;
  isalnum := Ascii_tables.alnum_cp;
  decimal := Ascii_tables.digit_cp;
|}.

Section Text.
Context {U : Unicode}.

Definition is_digit (c : N) : bool := bool_decide (is_Some (decimal c)).
Definition is_word (c : N) : bool := isalnum c || (c =? 95).
(** [.] matches everything but a newline. *)
Definition is_dot (c : N) : bool := negb (c =? 10).

(** The number a string of decimal digits writes. *)
Definition int_of_digits (s : str) : Z :=
  fold_left (λ acc c, (acc * 10 + default 0 (decimal c))%Z) s 0%Z.

(** [sys.get_int_max_str_digits()], which the program leaves at its
    default. *)
Definition int_max_str_digits : Z := 4300.

(** [int(s)] for a string of decimal digits: the interpreter refuses a
    string of more than [int_max_str_digits] digits, leading zeros
    counted. *)
Definition int (s : str) : returned Z :=
  if bool_decide (int_max_str_digits < Z.of_nat (length s))%Z then
    Raises (ValueError
      (u "Exceeds the limit (" ++ str_of_Z int_max_str_digits
       ++ u " digits) for integer string conversion: value has "
       ++ str_of_nat (length s)
       ++ u " digits; use sys.set_int_max_str_digits() to increase the limit"))
  else Returns (int_of_digits s).

Fixpoint lstrip (s : str) : str :=
  match s with
  | c :: s' => if isspace c then lstrip s' else s
  | [] => []
  end.

(** [s.strip()] *)
Definition strip (s : str) : str := reverse (lstrip (reverse (lstrip s))).

(** [s.split()]: maximal runs of non-space characters. *)
Fixpoint split_ws (cur : str) (s : str) : list str :=
  match s with
  | [] => match cur with [] => [] | _ => [reverse cur] end
  | c :: s' =>
      if isspace c then
        match cur with
        | [] => split_ws [] s'
        | _ => reverse cur :: split_ws [] s'
        end
      else split_ws (c :: cur) s'
  end.

Definition split (s : str) : list str := split_ws [] s.

End Text.

(** ** Regular expressions

    The fragment of [re] the sources use: character classes, bounded and
    unbounded greedy repetition of a class, sequence, alternation and
    capturing groups, matched by backtracking. *)

(** An element of the list [re.findall] returns: the match (or its only
    group) as a string, or the tuple of the groups when there are several. *)
Inductive rematch :=
| MStr (s : str)
| MTuple (gs : list str).

#[export] Instance rematch_eq_dec : EqDecision rematch.
Proof. solve_decision. Defined.

Inductive regex :=
| RChar (p : N → bool)
| RRep (p : N → bool) (lo : nat) (hi : option nat)
| RSeq (r1 r2 : regex)
| RAlt (r1 r2 : regex)
| RGroup (r : regex).

Module Re.

Definition lit1 (c : N) : regex := RChar (N.eqb c).

(** A literal, non-empty string. *)
Fixpoint lit_from (c : N) (s : str) : regex :=
  match s with
  | [] => lit1 c
  | d :: s' => RSeq (lit1 c) (lit_from d s')
  end.

Definition lit (s : str) : regex :=
  match s with
  | [] => RRep (λ _, false) 0 (Some 0%nat)
  | c :: s' => lit_from c s'
  end.

Definition one_of (s : str) (c : N) : bool := bool_decide (c ∈ s).

Fixpoint alt_from (r : regex) (rs : list regex) : regex :=
  match rs with
  | [] => r
  | r' :: rs' => RAlt r (alt_from r' rs')
  end.

Fixpoint seq_from (r : regex) (rs : list regex) : regex :=
  match rs with
  | [] => r
  | r' :: rs' => RSeq r (seq_from r' rs')
  end.

Definition plus (p : N → bool) : regex := RRep p 1 None.
Definition times (p : N → bool) (lo hi : nat) : regex := RRep p lo (Some hi).

Fixpoint groups (r : regex) : nat :=
  match r with
  | RChar _ | RRep _ _ _ => 0
  | RSeq r1 r2 | RAlt r1 r2 => groups r1 + groups r2
  | RGroup r => S (groups r)
  end.

Section Match.
Context {A : Type}.

(** Greedy [p{lo,hi}]: take one more character while allowed, and fall
    back to stopping here once [lo] have been taken. *)
Fixpoint rep (p : N → bool) (lo : nat) (hi : option nat) (s : str)
    (k : str → option A) : option A :=
  let stop := match lo with O => k s | S _ => None end in
  match s with
  | [] => stop
  | c :: s' =>
      if p c && negb (bool_decide (hi = Some O)) then
        match rep p (pred lo) (pred <$> hi) s' k with
        | Some x => Some x
        | None => stop
        end
      else stop
  end.

(** [run r s caps k]: match [r] at the start of [s], then continue with
    [k] on the rest of the text and the groups closed so far; the first
    success in backtracking order is the result. *)
Fixpoint run (r : regex) (s : str) (caps : list str)
    (k : str → list str → option A) : option A :=
  match r with
  | RChar p =>
      match s with
      | c :: s' => if p c then k s' caps else None
      | [] => None
      end
  | RRep p lo hi => rep p lo hi s (λ s', k s' caps)
  | RSeq r1 r2 => run r1 s caps (λ s' caps', run r2 s' caps' k)
  | RAlt r1 r2 =>
      match run r1 s caps k with
      | Some x => Some x
      | None => run r2 s caps k
      end
  | RGroup r1 =>
      run r1 s caps
        (λ s' caps', k s' (caps' ++ [take (length s - length s') s]))
  end.
End Match.

(** A match anchored at the start of [s]: the text after it and the groups. *)
Definition match_here (r : regex) (s : str) : option (str * list str) :=
  run r s [] (λ s' caps, Some (s', caps)).

Definition result (r : regex) (whole : str) (caps : list str) : rematch :=
  match groups r, caps with
  | O, _ => MStr whole
  | 1%nat, [g] => MStr g
  | _, _ => MTuple caps
  end.

(** [re.findall]: leftmost matches, scanned left to right, not
    overlapping.  [skip] counts the characters still covered by the match
    found last. *)
Fixpoint scan (r : regex) (skip : nat) (s : str) : list rematch :=
  match skip with
  | S n => match s with [] => [] | _ :: s' => scan r n s' end
  | O =>
      match match_here r s with
      | Some (rest, caps) =>
          let n := (length s - length rest)%nat in
          result r (take n s) caps ::
            match s with [] => [] | _ :: s' => scan r (pred n) s' end
      | None => match s with [] => [] | _ :: s' => scan r 0 s' end
      end
  end.

Definition findall (r : regex) (s : str) : list rematch := scan r 0 s.

End Re.

(** ** Numbers *)

Definition Qlt_bool (a b : Q) : bool := negb (Qle_bool b a).

(** A Python [float] is an IEEE 754 binary64 number.  Its arithmetic is
    the Standard Library's specification of binary floating point at 53
    bits of precision: every operation rounds its exact result to the
    nearest float, ties to even. *)
Abbreviation float := SpecFloat.spec_float.

Module Float.
Import SpecFloat.

Definition prec : Z := 53.
Definition emax : Z := 1024.

Definition add : spec_float → spec_float → spec_float := SFadd prec emax.
Definition mul : spec_float → spec_float → spec_float := SFmul prec emax.
(** [/], for a divisor other than zero (Python raises
    [ZeroDivisionError] for a zero divisor). *)
Definition div : spec_float → spec_float → spec_float := SFdiv prec emax.
(** [<] and [<=]; both are false when a side is a NaN. *)
Definition ltb : spec_float → spec_float → bool := SFltb.
Definition leb : spec_float → spec_float → bool := SFleb.

(** An [int] as the dividend or divisor of [/]. *)
Definition of_int (z : Z) : spec_float :=
  match z with
  | Z0 => S754_zero false
  | Zpos m => S754_finite false m 0
  | Zneg m => S754_finite true m 0
  end.

(** [a / b] on two [int]s, for [b] other than 0 (for which Python raises
    [ZeroDivisionError]): the float nearest to the quotient. *)
Definition div_int (a b : Z) : spec_float := div (of_int a) (of_int b).

(** The float nearest to a rational number: what a decimal literal such
    as [0.7] denotes, and, for the value of a float, that float. *)
Definition of_Q (q : Q) : spec_float := div_int (Qnum q) (Zpos (Qden q)).

(** A number (no NaN) with the sign bit [s]. *)
Definition signed (s : bool) (x : spec_float) : Prop :=
  match x with
  | S754_zero s' | S754_infinity s' | S754_finite s' _ _ => s' = s
  | S754_nan => False
  end.

End Float.

(** ** agent_core.py *)

(** The [intent] dictionary of [_detect_intent]. *)
Record intent := {
  intent_type : str;
  confidence : Q;
  entities : gmap str rematch;
}.

(** What [_use_tool] asks of a domain tool. *)
Inductive tool_call :=
| GetWeather (city : rematch)
| ManageSchedule (user_input : str) (ents : gmap str rematch)
| ProcessEmail (user_input : str).

(** A call into a collaborator returns a string or raises; [Raise] carries
    [str(e)]. *)
Inductive outcome :=
| Return (s : str)
| Raise (e : str).

Module AgentCore.

Definition weather_keywords : list str :=
  [u "天氣"; u "氣溫"; u "下雨"; u "晴天"; u "陰天"; u "風速";
   u "weather"; u "temperature"].

Definition calendar_keywords : list str :=
  [u "會議"; u "安排"; u "日程"; u "約會"; u "提醒";
   u "meeting"; u "schedule"; u "appointment"].

Definition email_keywords : list str :=
  [u "郵件"; u "信件"; u "寄信"; u "回信"; u "email"; u "mail"; u "send"].

Definition cities : list str :=
  [u "台北"; u "台中"; u "台南"; u "高雄"; u "桃園"; u "新竹"; u "台東";
   u "花蓮"; u "台灣"; u "香港"; u "澳門"; u "北京"; u "上海"; u "廣州";
   u "深圳";
   u "taipei"; u "taichung"; u "kaohsiung"; u "hong kong"; u "macau";
   u "beijing"; u "shanghai"; u "guangzhou"; u "shenzhen";
   u "tokyo"; u "osaka"; u "seoul"; u "singapore"; u "bangkok";
   u "new york"; u "london"; u "paris"; u "sydney"; u "melbourne"].

(** [any(keyword in text for keyword in keywords)] *)
Definition any_in (keywords : list str) (text : str) : bool :=
  existsb (λ keyword, contains keyword text) keywords.

Section Intent.
Context {U : Unicode}.

(** [has_keyword ks text]: a keyword of [ks] is a substring of [text] put
    in lower case, which is how every classifier here looks for one. *)
Definition has_keyword (ks : list str) (text : str) : Prop :=
  ∃ keyword, keyword ∈ ks ∧ contains keyword (lower text) = true.

Definition _extract_cities (text : str) : list str :=
  let text_lower := lower text in
  filter (λ city, contains (lower city) text_lower = true) cities.

Definition time_patterns : list regex :=
  [ (* (\d{1,2})[點時] *)
    RSeq (RGroup (Re.times is_digit 1 2)) (RChar (Re.one_of (u "點時")));
    (* (\d{1,2}):(\d{2}) *)
    Re.seq_from (RGroup (Re.times is_digit 1 2))
      [Re.lit (u ":"); RGroup (Re.times is_digit 2 2)];
    (* (上午|下午|早上|晚上|中午) *)
    RGroup (Re.alt_from (Re.lit (u "上午"))
              [Re.lit (u "下午"); Re.lit (u "早上"); Re.lit (u "晚上");
               Re.lit (u "中午")]) ].

(** The loop over [time_patterns]: the first pattern with a match gives
    [matches[0]]. *)
Fixpoint first_time (patterns : list regex) (text : str) : option rematch :=
  match patterns with
  | [] => None
  | pattern :: rest =>
      match Re.findall pattern text with
      | m :: _ => Some m
      | [] => first_time rest text
      end
  end.

Definition _extract_time_info (text : str) : gmap str rematch :=
  let time_info : gmap str rematch :=
    if contains (u "今天") text || contains (u "今日") text then
      {[ u "date" := MStr (u "today") ]}
    else if contains (u "明天") text || contains (u "明日") text then
      {[ u "date" := MStr (u "tomorrow") ]}
    else if contains (u "後天") text then
      {[ u "date" := MStr (u "day_after_tomorrow") ]}
    else ∅ in
  match first_time time_patterns text with
  | Some m => <[ u "time" := m ]> time_info
  | None => time_info
  end.

Definition _detect_intent (user_input : str) : intent :=
  let user_input_lower := lower user_input in
  if any_in weather_keywords user_input_lower then
    {| intent_type := u "weather"; confidence := 0.8;
       entities :=
         match _extract_cities user_input with
         | city :: _ => {[ u "city" := MStr city ]}
         | [] => ∅
         end |}
  else if any_in calendar_keywords user_input_lower then
    {| intent_type := u "calendar"; confidence := 0.7;
       (* [intent['entities'].update(time_info)] on the empty dictionary *)
       entities := _extract_time_info user_input ∪ ∅ |}
  else if any_in email_keywords user_input_lower then
    {| intent_type := u "email"; confidence := 0.7; entities := ∅ |}
  else
    {| intent_type := u "general"; confidence := 0.0; entities := ∅ |}.

End Intent.

Definition system_prompt : str := u
"你是一個智能個人助理，名叫 AI助手。你的特點：

🎯 核心能力：
- 天氣查詢：可以查詢全球任何城市的即時天氣
- 日程管理：幫助用戶管理和安排日程
- 郵件處理：協助處理郵件相關任務
- 智能記憶：記住用戶的偏好和重要資訊

💬 對話風格：
- 友善、專業、有幫助
- 使用繁體中文回應
- 適當使用emoji讓對話更生動
- 主動提供建議和解決方案

🔧 工具使用：
- 當用戶詢問天氣時，使用天氣工具
- 當用戶需要安排日程時，使用日程工具
- 當用戶需要處理郵件時，使用郵件工具
- 根據上下文智能選擇合適的工具

📝 記憶運用：
- 參考用戶的歷史對話
- 記住用戶的偏好和習慣
- 提供個性化的建議

現在開始為用戶提供服務吧！".

Definition nl : str := [10].

(** [sep.join(parts)] *)
Fixpoint join (sep : str) (parts : list str) : str :=
  match parts with
  | [] => []
  | [p] => p
  | p :: rest => p ++ sep ++ join sep rest
  end.

(** The collaborators of one [PersonalAssistant]: whether a weather tool was
    built (it is [None] without a weather key), what the domain tools answer,
    and the text-generation service. *)
Record collaborators := {
  weather_configured : bool;
  tool_answer : tool_call → outcome;
  generate_content : str → outcome;
}.

(** The test [process_request] makes before it dispatches. *)
Definition dispatch_condition (it : intent) : Prop :=
  intent_type it ≠ u "general" ∧ (0.5 < confidence it)%Q.

(** One entry of the chat history. *)
Record chat_message := { role : str; content : str }.

Section Requests.
Context {U : Unicode} (env : collaborators).

(** [tool_name in self.tools and self.tools[tool_name]] *)
Definition tool_available (tool_name : str) : bool :=
  if str_eqb tool_name (u "weather") then weather_configured env
  else str_eqb tool_name (u "calendar") || str_eqb tool_name (u "email").

(** [_use_tool] returns its display string; the second component records
    the calls made into domain tools. *)
Definition _use_tool (tool_name : str) (it : intent) (user_input : str)
    : str * list tool_call :=
  if negb (tool_available tool_name) then
    (u "❌ " ++ tool_name ++ u " 工具尚未配置", [])
  else
    let attempt (c : tool_call) :=
      (match tool_answer env c with
       | Return s => s
       | Raise e =>
           u "❌ 使用 " ++ tool_name ++ u " 工具時發生錯誤: " ++ e
       end, [c]) in
    if str_eqb tool_name (u "weather") then
      attempt (GetWeather
                 (default (MStr (u "台北")) (entities it !! u "city")))
    else if str_eqb tool_name (u "calendar") then
      attempt (ManageSchedule user_input (entities it))
    else if str_eqb tool_name (u "email") then
      attempt (ProcessEmail user_input)
    else (u "❌ 工具執行失敗", []).

Definition _generate_response (user_input context : str)
    (memories : list str) : str :=
  let full_prompt :=
    nl ++ system_prompt ++ nl ++ nl
    ++ u "基於以下資訊回應用戶：" ++ nl ++ nl
    ++ u "用戶輸入：" ++ user_input ++ nl ++ nl
    ++ u "上下文資訊：" ++ nl ++ context ++ nl ++ nl
    ++ u "相關記憶：" ++ nl
    ++ (match memories with
        | [] => u "無相關記憶"
        | _ => join nl memories
        end) ++ nl ++ nl
    ++ u "請生成一個有幫助、自然的回應。如果有使用工具獲得的資訊，請整合到回應中。"
    ++ nl in
  match generate_content env full_prompt with
  | Return text => strip text
  | Raise e => u "❌ 生成回應時發生錯誤: " ++ e
  end.

(** The dispatch step of [process_request]: what is appended to the
    context for the tool, and the domain-tool calls made. *)
Definition tool_section (it : intent) (user_input : str)
    : str * list tool_call :=
  if negb (str_eqb (intent_type it) (u "general"))
     && Qlt_bool 0.5 (confidence it)
  then
    let '(tool_result, calls) := _use_tool (intent_type it) it user_input in
    (nl ++ u "工具執行結果：" ++ nl ++ tool_result ++ nl, calls)
  else ([], []).

(** The chat-history step: the last three messages, when there are any. *)
Definition history_section (chat_history : list chat_message) : str :=
  match chat_history with
  | [] => []
  | _ =>
      nl ++ u "最近對話：" ++ nl
      ++ concat
           (map (λ msg,
                   (if str_eqb (role msg) (u "user")
                    then u "用戶" else u "助理")
                   ++ u ": " ++ content msg ++ nl)
              (slice_from (-3) chat_history))
  end.

(** The context [process_request] has assembled when it calls
    [_generate_response], for the intent [it]; [now] is the clock reading
    formatted with [%Y-%m-%d %H:%M:%S]. *)
Definition assemble_context (now : str) (it : intent) (user_input : str)
    (chat_history : list chat_message) : str * list tool_call :=
  let '(section, calls) := tool_section it user_input in
  (u "當前時間：" ++ now ++ nl ++ section ++ history_section chat_history,
   calls).

Definition process_request (now : str) (user_input : str)
    (memories : list str) (chat_history : list chat_message)
    : str * list tool_call :=
  match strip user_input with
  | [] => (u "請告訴我您需要什麼幫助 😊", [])
  | _ =>
      let it := _detect_intent user_input in
      let '(context, calls) :=
        assemble_context now it user_input chat_history in
      (_generate_response user_input context memories, calls)
  end.

End Requests.

(** An assistant built without a weather key, whose tools answer "ok" and
    whose text service echoes the prompt. *)
Definition no_weather : collaborators :=
  {| weather_configured := false;
     tool_answer := λ _, Return (u "ok");
     generate_content := λ prompt, Return prompt |}.

End AgentCore.

(** ** Sorting as [list.sort(key=..., reverse=True)] does

    Python's sort is stable, also with [reverse=True]: elements with equal
    keys keep their order.  Insertion from the right gives the same list. *)

Section SortDesc.
Context {A : Type} (key_lt : A → A → bool).

(** [insert_desc x l] puts [x] in front of the first element whose key is
    not above the key of [x]. *)
Fixpoint insert_desc (x : A) (l : list A) : list A :=
  match l with
  | [] => [x]
  | y :: l' => if key_lt x y then y :: insert_desc x l' else x :: l
  end.

Definition sort_desc (l : list A) : list A := foldr insert_desc [] l.

(** [a] may stand before [b] in a descending list: its key is not below
    the key of [b]. *)
Definition not_below (a b : A) : Prop := key_lt a b = false.

End SortDesc.

(** ** Python values, as far as [json] sees them *)

#[warnings="-register-all"]
Inductive pyval :=
| PNone
| PBool (b : bool)
| PNum (q : Q)
| PStr (s : str)
| PList (l : list pyval)
| PTuple (l : list pyval)
| PDict (d : list (str * pyval)).

(** What [json.loads] gives back for what [json.dumps] wrote: JSON has one
    array type, so a tuple comes back as a list. *)
Fixpoint json_norm (v : pyval) : pyval :=
  match v with
  | PList l | PTuple l => PList (map json_norm l)
  | PDict d => PDict (map (λ kv, (kv.1, json_norm kv.2)) d)
  | _ => v
  end.

(** No dictionary has a key twice. *)
Fixpoint py_ok (v : pyval) : Prop :=
  match v with
  | PList l | PTuple l => foldr (λ x P, py_ok x ∧ P) True l
  | PDict d => NoDup d.*1 ∧ foldr (λ kv P, py_ok kv.2 ∧ P) True d
  | _ => True
  end.

(** The [json] module: [dumps] (here with [ensure_ascii=False, indent=2])
    and [loads], which raises on text that is not JSON ([None]). *)
Class Json := {
  dumps : pyval → str;
  loads : str → option pyval;
  loads_dumps : ∀ v, py_ok v → loads (dumps v) = Some (json_norm v);
}.

(** [d.get(k, dflt)] *)
Fixpoint dict_get (d : list (str * pyval)) (k : str) (dflt : pyval) : pyval :=
  match d with
  | [] => dflt
  | (k', v) :: d' => if str_eqb k' k then v else dict_get d' k dflt
  end.

(** ** memory.py *)

Module Memory.

(** One entry of [self.memories]; [importance] is the value of the
    float. *)
Record memory := {
  timestamp : str;
  user_input : str;
  assistant_response : str;
  importance : Q;
  keywords : list str;
  category : str;
}.

(** One value of [self.important_facts]. *)
Record fact := {
  fact_content : rematch;
  fact_timestamp : str;
  fact_context : str;
}.

(** A [ConversationMemory] object built by the class itself. *)
Record store := {
  max_memories : Z;
  memories : list memory;
  user_preferences : gmap str (list rematch);
  important_facts : gmap str fact;
}.

(** [ConversationMemory(max_memories)] *)
Definition init (max_memories : Z) : store :=
  {| max_memories := max_memories; memories := [];
     user_preferences := ∅; important_facts := ∅ |}.

Definition stop_words : list str :=
  [u "的"; u "是"; u "在"; u "了"; u "有"; u "和"; u "就"; u "都"; u "而";
   u "及"; u "與"; u "或"; u "但"; u "不"; u "沒"; u "很"; u "還"; u "也";
   u "只"; u "再"; u "更"; u "最"; u "非常";
   u "the"; u "is"; u "at"; u "which"; u "on"; u "and"; u "a"; u "to";
   u "as"; u "are"; u "was"; u "will"; u "be"; u "have"; u "has"; u "had";
   u "do"; u "does"; u "did"].

(** The [categories] dictionary, in its insertion order. *)
Definition categories : list (str * list str) :=
  [ (u "weather", [u "天氣"; u "氣溫"; u "下雨"; u "晴天"; u "weather"]);
    (u "schedule",
      [u "會議"; u "安排"; u "日程"; u "約會"; u "meeting"; u "schedule"]);
    (u "email", [u "郵件"; u "信件"; u "寄信"; u "email"; u "mail"]);
    (u "personal",
      [u "我"; u "我的"; u "個人"; u "喜歡"; u "偏好"; u "my"; u "personal"]);
    (u "work",
      [u "工作"; u "公司"; u "同事"; u "專案"; u "work"; u "project";
       u "company"]);
    (u "general", []) ].

(** The sort key [(x['importance'], x['timestamp'])] compared with [<]. *)
Definition key_ltb (a b : memory) : bool :=
  Qlt_bool (importance a) (importance b)
  || (Qeq_bool (importance a) (importance b)
      && str_ltb (timestamp a) (timestamp b)).

Definition _cleanup_memories (s : store) : store :=
  if (max_memories s <? Z.of_nat (length (memories s)))%Z then
    {| max_memories := max_memories s;
       memories := slice_to (max_memories s) (sort_desc key_ltb (memories s));
       user_preferences := user_preferences s;
       important_facts := important_facts s |}
  else s.

(** [f"{match}"] for an element of a [findall] result.  Every fact pattern
    has one group, so only strings get here; a tuple would be written as
    its [repr]. *)
Definition fmt_match (m : rematch) : str :=
  match m with
  | MStr s => s
  | MTuple gs =>
      u "(" ++ AgentCore.join (u ", ") (map (λ g, u "'" ++ g ++ u "'") gs)
      ++ u ")"
  end.

Section Store.
Context {U : Unicode}.

Definition _extract_keywords (text : str) : list str :=
  (* re.sub(r'[^\w\s]', ' ', text.lower()) *)
  let text := map (λ c, if is_word c || isspace c then c else 32)
                (lower text) in
  let words := split text in
  let keywords :=
    filter (λ word, (1 < length word)%nat ∧ word ∉ stop_words) words in
  take 10 keywords.

Fixpoint first_category (cs : list (str * list str)) (text : str) : str :=
  match cs with
  | [] => u "general"
  | (category, keywords) :: cs' =>
      if AgentCore.any_in keywords text then category
      else first_category cs' text
  end.

Definition _categorize_memory (user_input : str) : str :=
  first_category categories (lower user_input).

Definition preference_patterns : list (regex * str) :=
  [ (* 我喜歡(.+) *)
    (RSeq (Re.lit (u "我喜歡")) (RGroup (Re.plus is_dot)), u "likes");
    (* 我不喜歡(.+) *)
    (RSeq (Re.lit (u "我不喜歡")) (RGroup (Re.plus is_dot)), u "dislikes");
    (* 我的(.+)是(.+) *)
    (Re.seq_from (Re.lit (u "我的"))
       [RGroup (Re.plus is_dot); Re.lit (u "是"); RGroup (Re.plus is_dot)],
     u "attributes");
    (* 我住在(.+) *)
    (RSeq (Re.lit (u "我住在")) (RGroup (Re.plus is_dot)), u "location");
    (* 我的工作是(.+) *)
    (RSeq (Re.lit (u "我的工作是")) (RGroup (Re.plus is_dot)), u "job");
    (* 我叫(.+) *)
    (RSeq (Re.lit (u "我叫")) (RGroup (Re.plus is_dot)), u "name") ].

Definition _extract_user_preferences (user_input : str)
    (prefs : gmap str (list rematch)) : gmap str (list rematch) :=
  fold_left
    (λ prefs '(pattern, pref_type),
       match Re.findall pattern user_input with
       | [] => prefs
       | matches =>
           <[ pref_type := default [] (prefs !! pref_type) ++ matches ]>
             prefs
       end)
    preference_patterns prefs.

Definition word_space (c : N) : bool := is_word c || isspace c.

Definition fact_patterns : list regex :=
  [ (* (\d{4}年\d{1,2}月\d{1,2}日) *)
    RGroup (Re.seq_from (Re.times is_digit 4 4)
              [Re.lit (u "年"); Re.times is_digit 1 2; Re.lit (u "月");
               Re.times is_digit 1 2; Re.lit (u "日")]);
    (* (\d{1,2}:\d{2}) *)
    RGroup (Re.seq_from (Re.times is_digit 1 2)
              [Re.lit (u ":"); Re.times is_digit 2 2]);
    (* ([\d\w\s]+(?:會議|活動|約會)) *)
    RGroup (RSeq (Re.plus (λ c, is_digit c || word_space c))
              (Re.alt_from (Re.lit (u "會議"))
                 [Re.lit (u "活動"); Re.lit (u "約會")]));
    (* ([\w\s]+@[\w\s]+\.[\w\s]+) *)
    RGroup (Re.seq_from (Re.plus word_space)
              [Re.lit (u "@"); Re.plus word_space; Re.lit (u ".");
               Re.plus word_space]);
    (* (\d{4}-\d{4}-\d{4}) *)
    RGroup (Re.seq_from (Re.times is_digit 4 4)
              [Re.lit (u "-"); Re.times is_digit 4 4; Re.lit (u "-");
               Re.times is_digit 4 4]) ].

(** [fact_now i] is the clock reading taken when pattern number [i] has
    matches. *)
Definition _extract_important_facts (fact_now : nat → str)
    (user_input assistant_response : str) (facts : gmap str fact)
    : gmap str fact :=
  let text := user_input ++ u " " ++ assistant_response in
  fold_left
    (λ facts '(i, pattern),
       let timestamp := fact_now i in
       fold_left
         (λ facts m,
            <[ timestamp ++ u "_" ++ fmt_match m :=
                 {| fact_content := m; fact_timestamp := timestamp;
                    fact_context := take 100 user_input |} ]> facts)
         (Re.findall pattern text) facts)
    (imap pair fact_patterns) facts.

(** The [memory] dictionary [add_memory] builds; [now] is the clock
    reading that stamps it. *)
Definition new_memory (now : str) (user_input assistant_response : str)
    (importance : Q) : memory :=
  {| timestamp := now;
     user_input := user_input;
     assistant_response := assistant_response;
     importance := importance;
     keywords :=
       _extract_keywords (user_input ++ u " " ++ assistant_response);
     category := _categorize_memory user_input |}.

Definition add_memory (now : str) (fact_now : nat → str)
    (user_input assistant_response : str) (importance : Q) (s : store)
    : store :=
  let memory := new_memory now user_input assistant_response importance in
  _cleanup_memories
    {| max_memories := max_memories s;
       memories := memories s ++ [memory];
       user_preferences :=
         _extract_user_preferences user_input (user_preferences s);
       important_facts :=
         _extract_important_facts fact_now user_input assistant_response
           (important_facts s) |}.

(** The score of one entry for a query, when the key words overlap:
    [keyword_overlap / len(union) * 0.7 + memory['importance'] * 0.3] in
    float arithmetic.  [importance m] is the value of the stored float. *)
Definition relevance_score (query_keywords : gset str) (m : memory)
    : option float :=
  let memory_keywords : gset str := list_to_set (keywords m) in
  let keyword_overlap := size (query_keywords ∩ memory_keywords) in
  if bool_decide (0 < keyword_overlap)%nat then
    Some (Float.add
            (Float.mul
               (Float.div_int (Z.of_nat keyword_overlap)
                  (Z.of_nat (size (query_keywords ∪ memory_keywords))))
               (Float.of_Q 0.7))
            (Float.mul (Float.of_Q (importance m)) (Float.of_Q 0.3)))
  else None.

(** The score as the specification words it,
    [0.7 * (|intersection| / |union|) + 0.3 * importance], for comparison
    with [relevance_score]. *)
Definition jaccard_score (query_keywords : gset str) (m : memory)
    : float :=
  let memory_keywords : gset str := list_to_set (keywords m) in
  Float.add
    (Float.mul (Float.of_Q 0.7)
       (Float.div_int (Z.of_nat (size (query_keywords ∩ memory_keywords)))
          (Z.of_nat (size (query_keywords ∪ memory_keywords)))))
    (Float.mul (Float.of_Q 0.3) (Float.of_Q (importance m))).

(** The list [relevant_memories] after the loop. *)
Definition scored (query : str) (s : store)
    : list (memory * float) :=
  let query_keywords : gset str := list_to_set (_extract_keywords query) in
  omap (λ m, pair m <$> relevance_score query_keywords m) (memories s).

(** The sort key [x['score']] compared with [<]. *)
Definition score_ltb (a b : memory * float) : bool :=
  Float.ltb a.2 b.2.

(** [relevant_memories[:limit]] after the sort. *)
Definition ranked (query : str) (limit : Z) (s : store)
    : list (memory * float) :=
  slice_to limit (sort_desc score_ltb (scored query s)).

(** [datetime.fromisoformat(ts).strftime('%m-%d %H:%M')] on a time stamp
    written by [isoformat()], [YYYY-MM-DDTHH:MM:SS[.ffffff]]: the month and
    day, a blank, the hour and minute. *)
Definition month_day_time (ts : str) : str :=
  take 5 (drop 5 ts) ++ u " " ++ take 5 (drop 11 ts).

Definition format_memory (m : memory) : str :=
  u "[" ++ month_day_time (timestamp m) ++ u "] 用戶: "
  ++ take 50 (user_input m) ++ u "...".

Definition get_relevant_memories (query : str) (limit : Z) (s : store)
    : list str :=
  match memories s with
  | [] => []
  | _ => map (λ item, format_memory item.1) (ranked query limit s)
  end.

(** The test [search_memories] makes on one entry. *)
Definition keyword_in (keyword_lower : str) (m : memory) : bool :=
  contains keyword_lower (lower (user_input m))
  || contains keyword_lower (lower (assistant_response m))
  || contains keyword_lower (AgentCore.join (u " ") (keywords m)).

(** The sort key [x['timestamp']] compared with [<]. *)
Definition timestamp_ltb (a b : memory) : bool :=
  str_ltb (timestamp a) (timestamp b).

Definition search_memories (keyword : str) (s : store) : list memory :=
  let keyword_lower := lower keyword in
  let results :=
    filter (λ m, keyword_in keyword_lower m = true) (memories s) in
  sort_desc timestamp_ltb results.

End Store.

(** The values in the dictionary [get_memory_statistics] returns. *)
Inductive stat :=
| SInt (n : Z)
| SFloat (x : float)
| SCounts (c : gmap str nat).

(** The [categories] counter after the loop. *)
Definition count_categories (ms : list memory) : gmap str nat :=
  fold_left (λ c m, <[ category m := S (default 0%nat (c !! category m)) ]> c)
    ms ∅.

(** [total_importance] after the loop: the float sum, from the left;
    the [int] 0 it starts from adds as the float 0.0. *)
Definition total_importance (ms : list memory) : float :=
  fold_left (λ t m, Float.add t (Float.of_Q (importance m))) ms
    (Float.of_Q 0).

Definition get_memory_statistics (s : store) : gmap str stat :=
  match memories s with
  | [] =>
      {[ u "total_memories" := SInt 0;
         u "categories" := SCounts ∅;
         u "average_importance" := SFloat (Float.of_Q 0.0) ]}
  | _ =>
      {[ u "total_memories" := SInt (Z.of_nat (length (memories s)));
         u "categories" := SCounts (count_categories (memories s));
         u "average_importance" :=
           SFloat (Float.div (total_importance (memories s))
                     (Float.of_Q (inject_Z (Z.of_nat (length (memories s))))));
         u "user_preferences_count" :=
           SInt (Z.of_nat (size (user_preferences s)));
         u "important_facts_count" :=
           SInt (Z.of_nat (size (important_facts s))) ]}
  end.

Definition clear_memory (s : store) : store :=
  {| max_memories := max_memories s; memories := [];
     user_preferences := ∅; important_facts := ∅ |}.

(** The stores the class builds: a new one, and what [add_memory] and
    [clear_memory] make of one. *)
Inductive built {U : Unicode} : store → Prop :=
| built_init max_memories : built (init max_memories)
| built_add now fact_now user_input assistant_response importance s :
    built s →
    built (add_memory now fact_now user_input assistant_response importance s)
| built_clear s : built s → built (clear_memory s).

(** Every value recorded under a key is a string, no tuple. *)
Definition tuple_free (prefs : gmap str (list rematch)) : Prop :=
  ∀ k l, prefs !! k = Some l → Forall (λ m, ∃ s, m = MStr s) l.

(** Every recorded fact is a string. *)
Definition facts_are_strings (facts : gmap str fact) : Prop :=
  ∀ k f, facts !! k = Some f → ∃ s, fact_content f = MStr s.

(** Stores for the examples. *)
Definition clock0 (i : nat) : str :=
  u "2024-06-11T10:00:00.00000" ++ str_of_nat i.

Definition named_store : store :=
  add_memory (u "2024-06-11T10:00:00") clock0
    (u "我的名字是小明") (u "好的") 0.5 (init 100).

Definition example_store : store :=
  add_memory (u "2024-06-11T10:05:00") clock0
    (u "明天 10:30 有產品會議 in Taipei") (u "OK, meeting noted") 0.9
    named_store.

Definition full_store : store :=
  add_memory (u "2024-06-11T09:00:00") clock0
    (u "下週的產品會議很重要") (u "好的") 0.9 (init 1).

(** Two entries for the query "meeting": the first has 1 of 2 keywords
    in common with it and the importance 0.2, the second 1 of 5 and 0.9.
    1/2 * 0.7 + 0.2 * 0.3 is the float 0.41, and 1/5 * 0.7 + 0.9 * 0.3 the
    next float above it. *)
Definition tie_store : store :=
  add_memory (u "2024-06-11T10:05:00") clock0
    (u "meeting room") (u "booked tuesday noon") 0.9
    (add_memory (u "2024-06-11T10:00:00") clock0
       (u "meeting") (u "today") 0.2 (init 100)).

End Memory.

(** *** Export and import

    [import_memories] assigns whatever [json.loads] returned, so after it the
    three attributes are arbitrary Python values: [objects] is the state of a
    [ConversationMemory] seen that way, [objects_of] the view of a store the
    class built. *)

Record objects := {
  o_max_memories : Z;
  o_memories : pyval;
  o_user_preferences : pyval;
  o_important_facts : pyval;
}.

Module Persist.
Import Memory.

Definition py_rematch (m : rematch) : pyval :=
  match m with
  | MStr s => PStr s
  | MTuple gs => PTuple (map PStr gs)
  end.

Definition py_memory (m : memory) : pyval :=
  PDict [ (u "timestamp", PStr (timestamp m));
          (u "user_input", PStr (user_input m));
          (u "assistant_response", PStr (assistant_response m));
          (u "importance", PNum (importance m));
          (u "keywords", PList (map PStr (keywords m)));
          (u "category", PStr (category m)) ].

Definition py_fact (f : fact) : pyval :=
  PDict [ (u "content", py_rematch (fact_content f));
          (u "timestamp", PStr (fact_timestamp f));
          (u "context", PStr (fact_context f)) ].

Definition py_memories (ms : list memory) : pyval := PList (map py_memory ms).

Definition py_preferences (prefs : gmap str (list rematch)) : pyval :=
  PDict (map (λ kv, (kv.1, PList (map py_rematch kv.2))) (map_to_list prefs)).

Definition py_facts (facts : gmap str fact) : pyval :=
  PDict (map (λ kv, (kv.1, py_fact kv.2)) (map_to_list facts)).

(** What is read back for an element of a [findall] result and for the
    preferences: a tuple has become a list. *)
Definition py_rematch_read (m : rematch) : pyval :=
  match m with
  | MStr s => PStr s
  | MTuple gs => PList (map PStr gs)
  end.

Definition py_preferences_read (prefs : gmap str (list rematch)) : pyval :=
  PDict (map (λ kv, (kv.1, PList (map py_rematch_read kv.2)))
           (map_to_list prefs)).

Definition objects_of (s : store) : objects :=
  {| o_max_memories := max_memories s;
     o_memories := py_memories (memories s);
     o_user_preferences := py_preferences (user_preferences s);
     o_important_facts := py_facts (important_facts s) |}.

Section Json.
Context {J : Json}.

(** [export_memories]; [now] is the clock reading of the export. *)
Definition export_memories (now : str) (o : objects) : str :=
  dumps (PDict [ (u "memories", o_memories o);
                 (u "user_preferences", o_user_preferences o);
                 (u "important_facts", o_important_facts o);
                 (u "export_timestamp", PStr now) ]).

(** [import_memories] returns the new state and the boolean.  The [try]
    block fails when [json.loads] raises and when the value read is not
    a dictionary (it has no [get]); both happen before the first
    assignment. *)
Definition import_memories (json_data : str) (o : objects)
    : objects * bool :=
  match loads json_data with
  | Some (PDict data) =>
      ({| o_max_memories := o_max_memories o;
          o_memories := dict_get data (u "memories") (PList []);
          o_user_preferences :=
            dict_get data (u "user_preferences") (PDict []);
          o_important_facts :=
            dict_get data (u "important_facts") (PDict []) |}, true)
  | _ => (o, false)
  end.

End Json.

End Persist.

(** ** tools/calendar.py *)

Module Calendar.

Record event := {
  ev_id : Z;
  ev_title : str;
  ev_date : str;
  ev_time : rematch;
  ev_duration : str;
  ev_location : str;
  ev_description : str;
  ev_created_at : str;
  ev_priority : str;
}.

(** A [CalendarTool] object. *)
Record tool := {
  events : list event;
  event_id_counter : Z;
}.

Definition init : tool := {| events := []; event_id_counter := 1 |}.

Definition add_keywords : list str :=
  [u "安排"; u "預約"; u "設定"; u "新增"; u "添加"; u "約"; u "會議";
   u "schedule"; u "add"; u "book"].
Definition view_keywords : list str :=
  [u "查看"; u "顯示"; u "看"; u "今天"; u "明天"; u "本週";
   u "show"; u "view"; u "list"].
Definition delete_keywords : list str :=
  [u "刪除"; u "取消"; u "移除"; u "delete"; u "cancel"; u "remove"].
Definition update_keywords : list str :=
  [u "修改"; u "更改"; u "調整"; u "update"; u "modify"; u "change"].

Definition no_id_message : str :=
  u "❌ 請指定要刪除的事件ID，例如：「刪除事件1」或先查看事件列表獲取ID".

Definition not_found_message (event_id : Z) : str :=
  u "❌ 找不到ID為 " ++ str_of_Z event_id ++ u " 的事件".

Definition deleted_message (e : event) : str :=
  u "✅ 已成功刪除事件「" ++ ev_title e ++ u "」".

(** The dates [_filter_events_by_range] gets from the clock, each written
    with [%Y-%m-%d]: today, the day after, and the Monday and the Sunday of
    the current week. *)
Record dates := {
  today : str;
  tomorrow : str;
  week_start : str;
  week_end : str;
}.

(** Python's [<=] on [str]. *)
Definition str_leb (a b : str) : bool := negb (str_ltb b a).

(** [_determine_view_range]; [entities_str] is [str(entities)], the text
    the interpreter writes for the dictionary. *)
Definition _determine_view_range (entities : gmap str rematch)
    (entities_str : str) : str :=
  if bool_decide (entities !! u "date" = Some (MStr (u "today")))
     || contains (u "今天") entities_str then u "今天"
  else if bool_decide (entities !! u "date" = Some (MStr (u "tomorrow")))
          || contains (u "明天") entities_str then u "明天"
  else if contains (u "本週") entities_str
          || contains (u "這週") entities_str then u "本週"
  else if contains (u "下週") entities_str then u "下週"
  else u "所有".

Definition _filter_events_by_range (d : dates) (range_type : str)
    (t : tool) : list event :=
  if str_eqb range_type (u "今天") then
    filter (λ e, ev_date e = today d) (events t)
  else if str_eqb range_type (u "明天") then
    filter (λ e, ev_date e = tomorrow d) (events t)
  else if str_eqb range_type (u "本週") then
    filter (λ e, str_leb (week_start d) (ev_date e)
                 && str_leb (ev_date e) (week_end d) = true) (events t)
  else events t.

Section Tool.
Context {U : Unicode}.

Definition _detect_schedule_intent (user_input : str) : str :=
  let user_input_lower := lower user_input in
  if AgentCore.any_in add_keywords user_input_lower then u "add"
  else if AgentCore.any_in view_keywords user_input_lower then u "view"
  else if AgentCore.any_in delete_keywords user_input_lower then u "delete"
  else if AgentCore.any_in update_keywords user_input_lower then u "update"
  else u "help".

(** [re.findall(r'\d+', text)], then [int(numbers[0])], which raises for
    a first run of more than 4300 digits. *)
Definition _extract_event_id (text : str) : returned (option Z) :=
  match Re.findall (Re.plus is_digit) text with
  | MStr digits :: _ =>
      match int digits with
      | Returns event_id => Returns (Some event_id)
      | Raises e => Raises e
      end
  | _ => Returns None
  end.

(** [_delete_event] returns its message, or raises what
    [_extract_event_id] raised; the second component is the tool
    afterwards.  [if event_id:] takes the else branch for [None] and for
    [0]. *)
Definition _delete_event (user_input : str) (t : tool)
    : returned str * tool :=
  match _extract_event_id user_input with
  | Returns (Some event_id) =>
      if bool_decide (event_id ≠ 0%Z) then
        match list_find (λ e, ev_id e = event_id) (events t) with
        | Some (i, deleted_event) =>
            (Returns (deleted_message deleted_event),
             {| events := delete i (events t);
                event_id_counter := event_id_counter t |})
        | None => (Returns (not_found_message event_id), t)
        end
      else (Returns no_id_message, t)
  | Returns None => (Returns no_id_message, t)
  | Raises e => (Raises e, t)
  end.

End Tool.

End Calendar.

(** ** tools/email.py *)

Module Email.

Record email := {
  e_id : Z;
  e_from : str;
  e_to : str;
  e_subject : str;
  e_body : str;
  e_date : str;
  e_read : bool;
  e_priority : str;
}.

(** [self.mock_emails] as [__init__] builds it. *)
Definition mock_emails : list email :=
  [ {| e_id := 1; e_from := u "john.doe@company.com";
       e_to := u "user@email.com"; e_subject := u "週會議程確認";
       e_body := u "請確認明天的週會議程，會議時間是上午10點。";
       e_date := u "2024-06-11"; e_read := false; e_priority := u "normal" |};
    {| e_id := 2; e_from := u "hr@company.com";
       e_to := u "user@email.com"; e_subject := u "年假申請審核";
       e_body := u "您的年假申請已通過審核，請查看附件。";
       e_date := u "2024-06-10"; e_read := true; e_priority := u "high" |};
    {| e_id := 3; e_from := u "client@external.com";
       e_to := u "user@email.com"; e_subject := u "專案進度詢問";
       e_body := u "想了解一下目前專案的進度如何？預計什麼時候可以完成？";
       e_date := u "2024-06-09"; e_read := false; e_priority := u "urgent" |} ].

(** [email['read'] = True] *)
Definition mark_read (e : email) : email :=
  {| e_id := e_id e; e_from := e_from e; e_to := e_to e;
     e_subject := e_subject e; e_body := e_body e; e_date := e_date e;
     e_read := true; e_priority := e_priority e |}.

Definition nl : str := [10].

Definition _format_single_email (email : email) : str :=
  let priority_icon :=
    if str_eqb (e_priority email) (u "urgent") then u "🔴 緊急"
    else if str_eqb (e_priority email) (u "high") then u "🟡 重要"
    else if str_eqb (e_priority email) (u "normal") then u "🟢 一般"
    else u "🟢 一般" in
  u "📧 **郵件詳情**" ++ nl ++ nl
  ++ u "📋 **主旨**: " ++ e_subject email ++ nl
  ++ u "📤 **寄件者**: " ++ e_from email ++ nl
  ++ u "📥 **收件者**: " ++ e_to email ++ nl
  ++ u "📅 **日期**: " ++ e_date email ++ nl
  ++ u "⚡ **優先級**: " ++ priority_icon ++ nl ++ nl
  ++ u "📝 **內容**:" ++ nl
  ++ e_body email ++ nl ++ nl
  ++ u "---" ++ nl
  ++ u "💡 **操作建議**: " ++ nl
  ++ u "• 回覆此郵件：「回覆郵件" ++ str_of_Z (e_id email) ++ u "」" ++ nl
  ++ u "• 標記為重要：「標記郵件" ++ str_of_Z (e_id email) ++ u "為重要」".

Definition _format_email_list (emails : list email) (title : str) : str :=
  title ++ nl ++ nl
  ++ concat
       (imap (λ i email,
                let priority_icon :=
                  if str_eqb (e_priority email) (u "urgent") then u "🔴"
                  else if str_eqb (e_priority email) (u "high") then u "🟡"
                  else u "🟢" in
                let read_status := if e_read email then u "✅" else u "🆕" in
                u "**" ++ str_of_nat (S i) ++ u ". " ++ e_subject email
                ++ u "** " ++ priority_icon ++ u " " ++ read_status ++ nl
                ++ u "   📤 寄件者: " ++ e_from email ++ nl
                ++ u "   📅 日期: " ++ e_date email ++ nl
                ++ u "   📝 預覽: " ++ take 50 (e_body email) ++ u "..." ++ nl
                ++ u "   🔢 ID: " ++ str_of_Z (e_id email) ++ nl ++ nl)
          emails)
  ++ u "📊 **統計**: 共 " ++ str_of_nat (length emails) ++ u " 封郵件" ++ nl
  ++ u "💡 使用「查看郵件{ID}」來讀取完整內容".

Definition not_found_message (email_id : Z) : str :=
  u "❌ 找不到ID為 " ++ str_of_Z email_id ++ u " 的郵件".

(** [_find_email_by_id] returns the dictionary object itself; its place in
    the list stands for that reference. *)
Definition _find_email_by_id (email_id : Z) (mailbox : list email)
    : option (nat * email) :=
  list_find (λ e, e_id e = email_id) mailbox.

Definition read_keywords : list str :=
  [u "查看"; u "讀"; u "顯示"; u "郵件"; u "信件"; u "read"; u "show";
   u "view"].
Definition compose_keywords : list str :=
  [u "寫"; u "撰寫"; u "發送"; u "寄"; u "compose"; u "write"; u "send"].
Definition reply_keywords : list str :=
  [u "回覆"; u "回信"; u "reply"; u "respond"].
Definition search_keywords : list str :=
  [u "搜尋"; u "查找"; u "找"; u "search"; u "find"].
Definition summary_keywords : list str :=
  [u "摘要"; u "總結"; u "概要"; u "summary"; u "overview"].
Definition template_keywords : list str :=
  [u "模板"; u "範本"; u "template"].

Definition no_reply_id_message : str :=
  u "❌ 請指定要回覆的郵件ID，例如：「回覆郵件1」".

(** The draft [_reply_email] writes for the email it found. *)
Definition reply_draft (original_email : email) : str :=
  u "✉️ **回覆郵件草稿**

**收件者**: " ++ e_from original_email ++ u "
**主旨**: Re: " ++ e_subject original_email ++ u "

**內容**:
您好，

謝謝您的郵件。

[請填入回覆內容]

如有任何問題，請隨時聯繫我。

謝謝！

---
**原始郵件**:
寄件者: " ++ e_from original_email ++ u "
主旨: " ++ e_subject original_email ++ u "
內容: " ++ take 100 (e_body original_email) ++ u "...

---
💡 **下一步**: 「修改回覆內容」或「發送回覆」".

Section Tool.
Context {U : Unicode}.

Definition _detect_email_intent (user_input : str) : str :=
  let user_input_lower := lower user_input in
  if AgentCore.any_in read_keywords user_input_lower then u "read"
  else if AgentCore.any_in compose_keywords user_input_lower then u "compose"
  else if AgentCore.any_in reply_keywords user_input_lower then u "reply"
  else if AgentCore.any_in search_keywords user_input_lower then u "search"
  else if AgentCore.any_in summary_keywords user_input_lower then u "summary"
  else if AgentCore.any_in template_keywords user_input_lower
  then u "template"
  else u "help".

(** [re.findall(r'\d+', text)], then [int(numbers[0])], which raises for
    a first run of more than 4300 digits. *)
Definition _extract_email_id (text : str) : returned (option Z) :=
  match Re.findall (Re.plus is_digit) text with
  | MStr digits :: _ =>
      match int digits with
      | Returns email_id => Returns (Some email_id)
      | Raises e => Raises e
      end
  | _ => Returns None
  end.

(** The listing branch of [_read_emails], taken when no id was given. *)
Definition list_emails (user_input : str) (mailbox : list email) : str :=
  let '(emails, title) :=
    if contains (u "未讀") user_input
       || contains (u "unread") (lower user_input) then
      (filter (λ e, e_read e = false) mailbox, u "📧 **未讀郵件**")
    else if contains (u "重要") user_input
            || contains (u "important") (lower user_input) then
      (filter (λ e, e_priority e ∈ [u "high"; u "urgent"]) mailbox,
       u "⚡ **重要郵件**")
    else (slice_from (-5) mailbox, u "📧 **最新郵件**") in
  match emails with
  | [] => u "📪 沒有找到符合條件的郵件。"
  | _ => _format_email_list emails title
  end.

(** [_read_emails] returns its text, or raises what [_extract_email_id]
    raised; the second component is the mailbox afterwards.
    [if email_id:] is false for [None] and for [0]. *)
Definition _read_emails (user_input : str) (mailbox : list email)
    : returned str * list email :=
  match _extract_email_id user_input with
  | Returns (Some email_id) =>
      if bool_decide (email_id ≠ 0%Z) then
        match _find_email_by_id email_id mailbox with
        | Some (i, email) =>
            let email := mark_read email in
            (Returns (_format_single_email email), <[ i := email ]> mailbox)
        | None => (Returns (not_found_message email_id), mailbox)
        end
      else (Returns (list_emails user_input mailbox), mailbox)
  | Returns None => (Returns (list_emails user_input mailbox), mailbox)
  | Raises e => (Raises e, mailbox)
  end.

(** [_reply_email] changes nothing, so it gives its text only, or raises
    what [_extract_email_id] raised.  [if not email_id:] holds for [None]
    and for [0]. *)
Definition _reply_email (user_input : str) (mailbox : list email)
    : returned str :=
  match _extract_email_id user_input with
  | Returns (Some email_id) =>
      if bool_decide (email_id ≠ 0%Z) then
        match _find_email_by_id email_id mailbox with
        | Some (_, original_email) => Returns (reply_draft original_email)
        | None => Returns (not_found_message email_id)
        end
      else Returns no_reply_id_message
  | Returns None => Returns no_reply_id_message
  | Raises e => Raises e
  end.

(** The mailboxes a tool can hold: [__init__] builds [mock_emails], and
    [_read_emails] is the only method that writes to it. *)
Inductive reachable : list email → Prop :=
| reach_init : reachable mock_emails
| reach_read user_input mailbox :
    reachable mailbox → reachable (_read_emails user_input mailbox).2.

End Tool.

End Email.

(** ** tools/weather.py *)

Module Weather.

Definition city_mapping : list (str * str) :=
  [ (u "台北", u "Taipei"); (u "台中", u "Taichung"); (u "台南", u "Tainan");
    (u "高雄", u "Kaohsiung"); (u "桃園", u "Taoyuan");
    (u "新竹", u "Hsinchu"); (u "台東", u "Taitung");
    (u "花蓮", u "Hualien"); (u "香港", u "Hong Kong");
    (u "澳門", u "Macau"); (u "北京", u "Beijing");
    (u "上海", u "Shanghai"); (u "廣州", u "Guangzhou");
    (u "深圳", u "Shenzhen"); (u "東京", u "Tokyo"); (u "大阪", u "Osaka");
    (u "首爾", u "Seoul"); (u "新加坡", u "Singapore");
    (u "曼谷", u "Bangkok") ].

(** The [conditions] dictionary of [_translate_weather_condition]. *)
Definition conditions : list (str * str) :=
  [ (u "clear", u "晴朗 ☀️"); (u "clouds", u "多雲 ☁️");
    (u "rain", u "下雨 🌧️"); (u "drizzle", u "毛毛雨 🌦️");
    (u "thunderstorm", u "雷雨 ⛈️"); (u "snow", u "下雪 ❄️");
    (u "mist", u "薄霧 🌫️"); (u "fog", u "霧 🌫️"); (u "haze", u "霾 😷");
    (u "dust", u "沙塵 🌪️"); (u "sand", u "沙暴 🌪️");
    (u "ash", u "火山灰 🌋"); (u "squall", u "颮風 💨");
    (u "tornado", u "龍捲風 🌪️") ].

(** [table.get(key, dflt)] on a dictionary written out as a list. *)
Fixpoint table_get (table : list (str * str)) (key dflt : str) : str :=
  match table with
  | [] => dflt
  | (k, v) :: table' => if str_eqb k key then v else table_get table' key dflt
  end.

(** The three parts [_get_weather_advice] appends, one after the other. *)
Definition temperature_remark (temperature : Z) : str :=
  if (temperature <? 10)%Z then u "氣溫較低，記得多穿衣保暖！"
  else if (30 <? temperature)%Z then u "氣溫較高，注意防曬和補水！"
  else if (15 <=? temperature)%Z && (temperature <=? 25)%Z
  then u "氣溫舒適，是外出的好天氣！"
  else [].

Definition humidity_remark (humidity : Z) : str :=
  if (80 <? humidity)%Z then u " 濕度較高，可能會感覺悶熱。"
  else if (humidity <? 30)%Z then u " 濕度較低，記得補充水分。"
  else [].

Section Advice.
Context {U : Unicode}.

Definition condition_remark (condition : str) : str :=
  if contains (u "rain") (lower condition)
     || contains (u "drizzle") (lower condition) then u " 記得帶雨具！"
  else if contains (u "thunderstorm") (lower condition)
  then u " 有雷雨，避免戶外活動！"
  else if contains (u "snow") (lower condition)
  then u " 路面可能濕滑，注意安全！"
  else [].

Definition _get_weather_advice (temperature : Z) (condition : str)
    (humidity : Z) : str :=
  u "💡 **貼心提醒**: " ++ temperature_remark temperature
  ++ condition_remark condition ++ humidity_remark humidity.

Definition _translate_weather_condition (condition : str) : str :=
  table_get conditions (lower condition) (condition ++ u " 🌤️").

End Advice.

End Weather.

(** ** A codec that obeys the [Json] law

    The properties of export and import hold for every codec with the
    round-trip law of [Json]; this one shows that the law can be met and
    runs the examples.  Its format is
    a tagged prefix code, not JSON text, and nothing below depends on it. *)

Module Codec.

Definition zig (z : Z) : N :=
  match z with
  | Z0 => 0
  | Zpos p => Npos (p~0)
  | Zneg p => Npos (p~1)
  end.

Definition zag (n : N) : Z :=
  match n with
  | N0 => 0%Z
  | Npos (p~0) => Zpos p
  | Npos (p~1) => Zneg p
  | Npos 1 => 0%Z
  end.

Definition len (s : str) : N := N.of_nat (length s).

Fixpoint enc (v : pyval) : str :=
  match v with
  | PNone => [0]
  | PBool b => [1; if b then 1 else 0]
  | PNum q => [2; zig (Qnum q); Npos (Qden q)]
  | PStr s => 3 :: len s :: s
  | PList l | PTuple l =>
      4 :: N.of_nat (length l) :: concat (map enc l)
  | PDict d =>
      5 :: N.of_nat (length d)
        :: concat (map (λ kv, len kv.1 :: kv.1 ++ enc kv.2) d)
  end.

Section Dec.
Variable dec : str → option (pyval * str).

Fixpoint dec_items (n : nat) (s : str) : option (list pyval * str) :=
  match n with
  | O => Some ([], s)
  | S n' =>
      '(v, s1) ← dec s;
      '(vs, s2) ← dec_items n' s1;
      Some (v :: vs, s2)
  end.

Fixpoint dec_fields (n : nat) (s : str)
    : option (list (str * pyval) * str) :=
  match n with
  | O => Some ([], s)
  | S n' =>
      match s with
      | [] => None
      | klen :: s0 =>
          if bool_decide (N.to_nat klen ≤ length s0)%nat then
            '(v, s1) ← dec (drop (N.to_nat klen) s0);
            '(kvs, s2) ← dec_fields n' s1;
            Some ((take (N.to_nat klen) s0, v) :: kvs, s2)
          else None
      end
  end.
End Dec.

Fixpoint dec (fuel : nat) (s : str) : option (pyval * str) :=
  match fuel with
  | O => None
  | S fuel =>
      match s with
      | 0 :: r => Some (PNone, r)
      | 1 :: b :: r => Some (PBool (negb (b =? 0)), r)
      | 2 :: a :: Npos p :: r => Some (PNum (zag a # p), r)
      | 3 :: n :: r =>
          if bool_decide (N.to_nat n ≤ length r)%nat
          then Some (PStr (take (N.to_nat n) r), drop (N.to_nat n) r)
          else None
      | 4 :: n :: r =>
          '(vs, r') ← dec_items (dec fuel) (N.to_nat n) r;
          Some (PList vs, r')
      | 5 :: n :: r =>
          '(kvs, r') ← dec_fields (dec fuel) (N.to_nat n) r;
          Some (PDict kvs, r')
      | _ => None
      end
  end.

Definition codec_dumps (v : pyval) : str := enc v.

Definition codec_loads (s : str) : option pyval :=
  match dec (S (length s)) s with
  | Some (v, []) => Some v
  | _ => None
  end.

(** [v], written in front of any text, is read back with enough fuel. *)
Definition decodes (v : pyval) : Prop :=
  ∀ rest fuel, (length (enc v) ≤ fuel)%nat →
    dec (S fuel) (enc v ++ rest) = Some (json_norm v, rest).

End Codec.

(** Induction on Python values, through lists and dictionaries. *)
Section PyvalInduction.
Variable P : pyval → Prop.
Hypothesis HNone : P PNone.
Hypothesis HBool : ∀ b, P (PBool b).
Hypothesis HNum : ∀ q, P (PNum q).
Hypothesis HStr : ∀ s, P (PStr s).
Hypothesis HList : ∀ l, Forall P l → P (PList l).
Hypothesis HTuple : ∀ l, Forall P l → P (PTuple l).
Hypothesis HDict : ∀ d, Forall (λ kv, P kv.2) d → P (PDict d).

Fixpoint pyval_induction (v : pyval) : P v :=
  match v with
  | PNone => HNone
  | PBool b => HBool b
  | PNum q => HNum q
  | PStr s => HStr s
  | PList l =>
      HList l ((fix go l : Forall P l :=
                  match l with
                  | [] => Forall_nil_2 P
                  | x :: l' => Forall_cons_2 P x l' (pyval_induction x) (go l')
                  end) l)
  | PTuple l =>
      HTuple l ((fix go l : Forall P l :=
                   match l with
                   | [] => Forall_nil_2 P
                   | x :: l' => Forall_cons_2 P x l' (pyval_induction x) (go l')
                   end) l)
  | PDict d =>
      HDict d ((fix go d : Forall (λ kv, P kv.2) d :=
                  match d with
                  | [] => Forall_nil_2 _
                  | kv :: d' =>
                      Forall_cons_2 (λ kv, P kv.2) kv d'
                        (pyval_induction kv.2) (go d')
                  end) d)
  end.
End PyvalInduction.

(** The codec reads back what it wrote, up to [json_norm]. *)
Module CodecFacts.
Import Codec.

Lemma zag_zig z : zag (zig z) = z.
Proof. by destruct z. Qed.

Lemma dec_list_eq fuel n r :
  dec (S fuel) (4 :: n :: r)
  = '(vs, r') ← dec_items (dec fuel) (N.to_nat n) r; Some (PList vs, r').
Proof. done. Qed.

Lemma dec_dict_eq fuel n r :
  dec (S fuel) (5 :: n :: r)
  = '(kvs, r') ← dec_fields (dec fuel) (N.to_nat n) r; Some (PDict kvs, r').
Proof. done. Qed.

Lemma dec_items_enc fuel l rest :
  Forall decodes l →
  (length (concat (map enc l)) ≤ fuel)%nat →
  dec_items (dec (S fuel)) (length l) (concat (map enc l) ++ rest)
  = Some (map json_norm l, rest).
Proof.
  intros Hl. revert rest. induction Hl as [|x l Hx _ IH]; intros rest Hlen.
  - done.
  - simpl in Hlen. rewrite length_app in Hlen.
    cbn [length map concat dec_items]. rewrite <- app_assoc.
    rewrite Hx by lia. cbn [mbind option_bind].
    rewrite IH by lia. done.
Qed.

Lemma dec_fields_enc fuel (d : list (str * pyval)) rest :
  Forall (λ kv, decodes kv.2) d →
  (length (concat (map (λ kv, len kv.1 :: kv.1 ++ enc kv.2) d)) ≤ fuel)%nat →
  dec_fields (dec (S fuel)) (length d)
    (concat (map (λ kv, len kv.1 :: kv.1 ++ enc kv.2) d) ++ rest)
  = Some (map (λ kv, (kv.1, json_norm kv.2)) d, rest).
Proof.
  intros Hd. revert rest. induction Hd as [|[k v] d Hv _ IH]; intros rest Hlen.
  - done.
  - simpl in Hlen, Hv. rewrite !length_app in Hlen.
    cbn [length map concat dec_fields fst snd].
    rewrite <- !app_assoc. cbn [app]. unfold len. rewrite Nat2N.id.
    rewrite bool_decide_true by (rewrite !length_app; lia).
    rewrite <- !app_assoc, drop_app_length, take_app_length.
    rewrite Hv by lia. cbn [mbind option_bind].
    rewrite IH by lia. done.
Qed.

Lemma dec_enc v : decodes v.
Proof.
  induction v as [|b|q|s|l IH|l IH|d IH] using pyval_induction;
    intros rest fuel Hlen.
  - done.
  - by destruct b.
  - destruct q as [a p]. cbn. by rewrite zag_zig.
  - cbn [enc app dec]. unfold len. rewrite Nat2N.id.
    rewrite bool_decide_true by (rewrite length_app; lia).
    by rewrite take_app_length, drop_app_length.
  - cbn [enc] in *. cbn [length] in Hlen. destruct fuel as [|fuel]; [lia|].
    cbn [app]. rewrite dec_list_eq, Nat2N.id.
    rewrite dec_items_enc by (done || lia). done.
  - cbn [enc] in *. cbn [length] in Hlen. destruct fuel as [|fuel]; [lia|].
    cbn [app]. rewrite dec_list_eq, Nat2N.id.
    rewrite dec_items_enc by (done || lia). done.
  - cbn [enc] in *. cbn [length] in Hlen. destruct fuel as [|fuel]; [lia|].
    cbn [app]. rewrite dec_dict_eq, Nat2N.id.
    rewrite dec_fields_enc by (done || lia). done.
Qed.

Lemma codec_loads_dumps v : codec_loads (codec_dumps v) = Some (json_norm v).
Proof.
  unfold codec_loads, codec_dumps.
  rewrite <- (app_nil_r (enc v)) at 2.
  by rewrite dec_enc.
Qed.
End CodecFacts.

#[export] Instance codec_json : Json := {|
  dumps := Codec.codec_dumps;
  loads := Codec.codec_loads;
  loads_dumps v _ := CodecFacts.codec_loads_dumps v;
|}.

(** ** Properties of the intent classifier *)

Module AgentCoreFacts.
Import AgentCore.

Lemma any_in_true keywords text :
  any_in keywords text = true ↔
  ∃ keyword, keyword ∈ keywords ∧ contains keyword text = true.
Proof.
  unfold any_in. rewrite existsb_exists.
  by setoid_rewrite list_elem_of_In.
Qed.

Lemma any_in_false keywords text :
  any_in keywords text = false ↔
  ∀ keyword, keyword ∈ keywords → contains keyword text = false.
Proof.
  rewrite <- not_true_iff_false, any_in_true. split.
  - intros Hno k Hk. apply not_true_iff_false. naive_solver.
  - intros Hall (k & Hk & Hc). rewrite (Hall k Hk) in Hc. done.
Qed.

Section Classifier.
Context {U : Unicode}.

Lemma detect_weather user_input :
  has_keyword weather_keywords user_input →
  intent_type (_detect_intent user_input) = u "weather"
  ∧ confidence (_detect_intent user_input) = 0.8%Q.
Proof.
  intros H%any_in_true. unfold _detect_intent. by rewrite H.
Qed.

Lemma detect_general user_input :
  ¬ has_keyword weather_keywords user_input →
  ¬ has_keyword calendar_keywords user_input →
  ¬ has_keyword email_keywords user_input →
  intent_type (_detect_intent user_input) = u "general"
  ∧ confidence (_detect_intent user_input) = 0.0%Q.
Proof.
  unfold has_keyword. rewrite <- !any_in_true, !not_true_iff_false.
  intros Hw Hc He. unfold _detect_intent. by rewrite Hw, Hc, He.
Qed.

(** C1. An input with a weather keyword (a substring of the input in
    lower case) is classified [weather] with confidence 0.8, whatever
    calendar or email keywords it also has; so is in particular every
    input with a weather and a calendar keyword; an input with no keyword
    of the three sets is [general] with confidence 0.0. *)
Theorem detect_intent_weather_first (user_input : str) :
  (has_keyword weather_keywords user_input →
     intent_type (_detect_intent user_input) = u "weather"
     ∧ confidence (_detect_intent user_input) = 0.8%Q)
  ∧ (has_keyword weather_keywords user_input →
     has_keyword calendar_keywords user_input →
     intent_type (_detect_intent user_input) = u "weather")
  ∧ (¬ has_keyword weather_keywords user_input →
     ¬ has_keyword calendar_keywords user_input →
     ¬ has_keyword email_keywords user_input →
     intent_type (_detect_intent user_input) = u "general"
     ∧ confidence (_detect_intent user_input) = 0.0%Q).
Proof.
  split_and!.
  - apply detect_weather.
  - intros Hw _. by apply detect_weather.
  - apply detect_general.
Qed.

(** The intent types and confidences the classifier can give. *)
Lemma detect_intent_type_confidence user_input :
  let it := _detect_intent user_input in
  intent_type it ∈ [u "general"; u "weather"; u "calendar"; u "email"]
  ∧ (0 <= confidence it <= 1)%Q.
Proof.
  unfold _detect_intent.
  repeat case_match; cbn [intent_type confidence];
    (split; [set_solver | by split]).
Qed.

End Classifier.

(** "Weather for my meeting" has a weather and a calendar keyword, "hello"
    has none. *)
Lemma detect_intent_weather_first_witness :
  (intent_type (_detect_intent (u "Weather for my meeting")) = u "weather"
   ∧ confidence (_detect_intent (u "Weather for my meeting")) = 0.8%Q)
  ∧ intent_type (_detect_intent (u "Weather for my meeting")) = u "weather"
  ∧ (intent_type (_detect_intent (u "hello")) = u "general"
     ∧ confidence (_detect_intent (u "hello")) = 0.0%Q).
Proof.
  assert (Hw : has_keyword weather_keywords (u "Weather for my meeting")).
  { exists (u "weather"). split; [|by vm_compute].
    by apply (bool_decide_unpack _); vm_compute. }
  assert (Hc : has_keyword calendar_keywords (u "Weather for my meeting")).
  { exists (u "meeting"). split; [|by vm_compute].
    by apply (bool_decide_unpack _); vm_compute. }
  assert (Hn : ∀ ks, any_in ks (lower (u "hello")) = false →
                     ¬ has_keyword ks (u "hello")).
  { intros ks Hks (k & Hk & Hin).
    rewrite any_in_false in Hks. rewrite (Hks k Hk) in Hin. done. }
  split; [|split].
  - exact (proj1 (detect_intent_weather_first _) Hw).
  - exact (proj1 (proj2 (detect_intent_weather_first _)) Hw Hc).
  - apply (proj2 (proj2 (detect_intent_weather_first (u "hello"))));
      apply Hn; by vm_compute.
Defined.

(** C9. On "明天 10:30 會議" the classifier stores the pair
    [('10', '30')] under [time]: [findall] on the two-group pattern
    [(\d{1,2}):(\d{2})] returns tuples, and [matches[0]] is stored as it
    is.  The type and the confidence are as the data model says. *)
Theorem detect_intent_time_is_tuple :
  let it := _detect_intent (u "明天 10:30 會議") in
  intent_type it = u "calendar"
  ∧ confidence it = 0.7%Q
  ∧ entities it !! u "date" = Some (MStr (u "tomorrow"))
  ∧ entities it !! u "time" = Some (MTuple [u "10"; u "30"])
  ∧ ¬ ∃ s, entities it !! u "time" = Some (MStr s).
Proof.
  assert (Ht : entities (_detect_intent (u "明天 10:30 會議")) !! u "time"
               = Some (MTuple [u "10"; u "30"])) by by vm_compute.
  cbv zeta. split_and!; [by vm_compute..| done |].
  intros [s Hs]. rewrite Ht in Hs. done.
Qed.

End AgentCoreFacts.

(** ** Properties of tool dispatch *)

Lemma Qlt_bool_iff (a b : Q) : Qlt_bool a b = true ↔ (a < b)%Q.
Proof.
  unfold Qlt_bool. rewrite negb_true_iff, <- not_true_iff_false, Qle_bool_iff.
  split; [apply Qnot_le_lt | apply Qlt_not_le].
Qed.

Lemma str_eqb_true (a b : str) : str_eqb a b = true ↔ a = b.
Proof. unfold str_eqb. by rewrite bool_decide_eq_true. Qed.

Lemma str_eqb_false (a b : str) : str_eqb a b = false ↔ a ≠ b.
Proof. unfold str_eqb. by rewrite bool_decide_eq_false. Qed.

Module DispatchFacts.
Import AgentCore.

Section Dispatch.
Context {U : Unicode} (env : collaborators).

Lemma gate_true it :
  negb (str_eqb (intent_type it) (u "general"))
  && Qlt_bool 0.5 (confidence it) = true
  ↔ dispatch_condition it.
Proof.
  unfold dispatch_condition.
  by rewrite andb_true_iff, negb_true_iff, str_eqb_false, Qlt_bool_iff.
Qed.

(** [_use_tool] reaches a domain tool exactly when the tool exists. *)
Lemma use_tool_calls tool_name it user_input :
  (_use_tool env tool_name it user_input).2 ≠ []
  ↔ tool_available env tool_name = true.
Proof.
  unfold _use_tool, tool_available.
  destruct (str_eqb tool_name (u "weather")) eqn:Hw.
  - by destruct (weather_configured env).
  - destruct (str_eqb tool_name (u "calendar")) eqn:Hc; [done|].
    by destruct (str_eqb tool_name (u "email")) eqn:He.
Qed.

Lemma tool_section_dispatch it user_input :
  dispatch_condition it →
  tool_section env it user_input
  = (nl ++ u "工具執行結果：" ++ nl
     ++ (_use_tool env (intent_type it) it user_input).1 ++ nl,
     (_use_tool env (intent_type it) it user_input).2).
Proof.
  intros H%gate_true. unfold tool_section. rewrite H.
  by destruct (_use_tool _ _ _ _).
Qed.

Lemma tool_section_skip it user_input :
  ¬ dispatch_condition it → tool_section env it user_input = ([], []).
Proof.
  rewrite <- gate_true, not_true_iff_false. intros H.
  unfold tool_section. by rewrite H.
Qed.

(** C4, as the code has it.  The dispatcher [_use_tool] runs, and its
    result is added to the context as the tool-result section, exactly
    when the intent is not [general] and its confidence is above 0.5; a
    domain tool itself is called exactly when moreover that tool exists
    (the weather tool does not without a weather key: the section then
    holds the not-configured notice).  With confidence 0.5 nothing is
    dispatched and the context has no tool-result section. *)
Theorem dispatch_gate (now : str) (it : intent) (user_input : str)
    (chat_history : list chat_message) :
  let result := assemble_context env now it user_input chat_history in
  let answer := _use_tool env (intent_type it) it user_input in
  let head := u "當前時間：" ++ now ++ nl in
  (dispatch_condition it →
     result = (head ++ (nl ++ u "工具執行結果：" ++ nl ++ answer.1 ++ nl)
                 ++ history_section chat_history, answer.2))
  ∧ (¬ dispatch_condition it →
     result = (head ++ history_section chat_history, []))
  ∧ (result.2 ≠ [] ↔
     dispatch_condition it ∧ tool_available env (intent_type it) = true)
  ∧ ((confidence it == 0.5)%Q →
     result = (head ++ history_section chat_history, [])).
Proof.
  cbv zeta. unfold assemble_context.
  assert (Hskip : ¬ dispatch_condition it →
    (let '(section, calls) := tool_section env it user_input in
     (u "當前時間：" ++ now ++ nl ++ section
        ++ history_section chat_history, calls))
    = ((u "當前時間：" ++ now ++ nl) ++ history_section chat_history, [])).
  { intros H. rewrite (tool_section_skip _ _ H). by rewrite <- !app_assoc. }
  split_and!.
  - intros H. rewrite (tool_section_dispatch _ _ H).
    by rewrite <- !app_assoc.
  - done.
  - destruct (negb (str_eqb (intent_type it) (u "general"))
              && Qlt_bool 0.5 (confidence it)) eqn:Hg;
      [apply gate_true in Hg as H
      |assert (H : ¬ dispatch_condition it)
         by (rewrite <- gate_true; congruence)].
    + rewrite (tool_section_dispatch _ _ H). cbn [snd].
      rewrite use_tool_calls. tauto.
    + rewrite (tool_section_skip _ _ H). cbn [snd]. tauto.
  - intros Heq. apply Hskip. intros [_ Hlt].
    rewrite Heq in Hlt. by apply Qlt_irrefl in Hlt.
Qed.

End Dispatch.

(** C4 as stated fails: "今天天氣" is classified [weather] with confidence
    0.8, and without a weather tool no domain tool is called. *)
Lemma tool_invoked_iff_gate_fails :
  ¬ ∀ (env : collaborators) (now user_input : str)
      (chat_history : list chat_message),
      (assemble_context env now (_detect_intent user_input) user_input
         chat_history).2 ≠ []
      ↔ dispatch_condition (_detect_intent user_input).
Proof.
  intros H.
  destruct (H no_weather [] (u "今天天氣") []) as [_ Hcall].
  apply Hcall; [|by vm_compute].
  split; [by vm_compute | reflexivity].
Qed.

Lemma dispatch_gate_witness :
  let env := no_weather in
  let meeting := _detect_intent (u "明天的會議") in
  let half :=
    {| intent_type := u "calendar"; confidence := 0.5; entities := ∅ |} in
  assemble_context env (u "2024-06-11 10:00:00") meeting (u "明天的會議") []
  = (u "當前時間：2024-06-11 10:00:00" ++ nl
       ++ nl ++ u "工具執行結果：" ++ nl ++ u "ok" ++ nl,
     [ManageSchedule (u "明天的會議") (entities meeting)])
  ∧ assemble_context env (u "2024-06-11 10:00:00") half (u "明天的會議") []
    = (u "當前時間：2024-06-11 10:00:00" ++ nl, []).
Proof.
  cbv zeta. split.
  - destruct (dispatch_gate no_weather (u "2024-06-11 10:00:00")
                (_detect_intent (u "明天的會議")) (u "明天的會議") [])
      as (Hrun & _).
    rewrite Hrun; [by vm_compute|].
    split; [by vm_compute | reflexivity].
  - destruct (dispatch_gate no_weather (u "2024-06-11 10:00:00")
                {| intent_type := u "calendar"; confidence := 0.5;
                   entities := ∅ |} (u "明天的會議") [])
      as (_ & _ & _ & Hhalf).
    rewrite Hhalf; [by vm_compute | reflexivity].
Defined.

End DispatchFacts.

(** ** Sorting *)

Section SortDescFacts.
Context {A : Type} (key_lt : A → A → bool).

Lemma insert_desc_perm x l : insert_desc key_lt x l ≡ₚ x :: l.
Proof.
  induction l as [|y l IH]; cbn; [done|].
  destruct (key_lt x y); [|done].
  rewrite IH. apply Permutation_swap.
Qed.

Lemma sort_desc_perm l : sort_desc key_lt l ≡ₚ l.
Proof.
  induction l as [|x l IH]; cbn; [done|].
  by rewrite insert_desc_perm, IH.
Qed.

Lemma sort_desc_length l : length (sort_desc key_lt l) = length l.
Proof. by rewrite sort_desc_perm. Qed.

(** The key order is a strict weak order. *)
Hypothesis key_lt_asym : ∀ a b, key_lt a b = true → key_lt b a = false.
Hypothesis key_lt_negtrans :
  ∀ a b c, key_lt a b = false → key_lt b c = false → key_lt a c = false.

Lemma insert_desc_sorted x l :
  StronglySorted (not_below key_lt) l → StronglySorted (not_below key_lt) (insert_desc key_lt x l).
Proof.
  induction 1 as [|y l Hl IH Hy]; cbn.
  - repeat constructor.
  - destruct (key_lt x y) eqn:Hxy.
    + constructor; [done|].
      rewrite insert_desc_perm. constructor; [|done].
      by apply key_lt_asym.
    + constructor; [by constructor|].
      constructor; [done|].
      eapply Forall_impl; [exact Hy|].
      intros z Hz. by eapply key_lt_negtrans.
Qed.

Lemma sort_desc_sorted l : StronglySorted (not_below key_lt) (sort_desc key_lt l).
Proof.
  induction l as [|x l IH]; cbn; [constructor|].
  by apply insert_desc_sorted.
Qed.

(** The first [n] of the sorted list against the rest. *)
Lemma sort_desc_take_drop n l r d :
  r ∈ take n (sort_desc key_lt l) → d ∈ drop n (sort_desc key_lt l) →
  not_below key_lt r d.
Proof.
  intros Hr Hd.
  eapply (StronglySorted_app_1_elem_of (not_below key_lt)); [|exact Hr|exact Hd].
  rewrite take_drop. apply sort_desc_sorted.
Qed.

End SortDescFacts.

(** The same for a key order that is a strict weak order on the elements
    with a property [P] only, as [<] on floats is on the numbers. *)
Section SortDescOn.
Context {A : Type} (key_lt : A → A → bool) (P : A → Prop).

Hypothesis key_lt_asym : ∀ a b, key_lt a b = true → key_lt b a = false.
Hypothesis key_lt_negtrans :
  ∀ a b c, P a → P b → P c →
    key_lt a b = false → key_lt b c = false → key_lt a c = false.

Lemma insert_desc_sorted_on x l :
  P x → Forall P l →
  StronglySorted (not_below key_lt) l →
  StronglySorted (not_below key_lt) (insert_desc key_lt x l).
Proof.
  intros Hx HP. induction 1 as [|y l Hl IH Hy]; cbn.
  - repeat constructor.
  - apply Forall_cons in HP as [HPy HPl].
    destruct (key_lt x y) eqn:Hxy.
    + constructor; [by apply IH|].
      rewrite insert_desc_perm. constructor; [|done].
      by apply key_lt_asym.
    + constructor; [by constructor|].
      constructor; [done|].
      rewrite Forall_forall in Hy, HPl. apply Forall_forall.
      intros z Hz. apply (key_lt_negtrans x y z); try done.
      * by apply HPl.
      * by apply Hy.
Qed.

Lemma sort_desc_sorted_on l :
  Forall P l → StronglySorted (not_below key_lt) (sort_desc key_lt l).
Proof.
  induction 1 as [|x l Hx Hl IH]; [constructor|].
  change (StronglySorted (not_below key_lt)
            (insert_desc key_lt x (sort_desc key_lt l))).
  apply insert_desc_sorted_on; [done| |done].
  by rewrite sort_desc_perm.
Qed.

End SortDescOn.

(** ** Floats: the numbers with a clear sign bit *)

Module FloatFacts.
Import SpecFloat Float.

Lemma iter_pos_preserves {A} (P : A → Prop) (f : A → A) :
  (∀ x, P x → P (f x)) → ∀ p x, P x → P (iter_pos f p x).
Proof.
  intros Hf. induction p as [p IH|p IH|]; intros x Hx; cbn; auto.
Qed.

Lemma shr_1_nonneg mrs : (0 ≤ shr_m mrs)%Z → (0 ≤ shr_m (shr_1 mrs))%Z.
Proof. destruct mrs as [[|[]|[]] r s]; cbn; lia. Qed.

Lemma shr_nonneg mrs e n :
  (0 ≤ shr_m mrs)%Z → (0 ≤ shr_m (shr mrs e n).1)%Z.
Proof.
  intros Hm. destruct n as [|p|p]; cbn; [done| |done].
  by apply (iter_pos_preserves (λ mrs, 0 ≤ shr_m mrs)%Z), Hm;
    apply shr_1_nonneg.
Qed.

Lemma shr_fexp_nonneg m e l :
  (0 ≤ m)%Z → (0 ≤ shr_m (shr_fexp prec emax m e l).1)%Z.
Proof.
  intros Hm. unfold shr_fexp. apply shr_nonneg.
  by destruct l as [|[]].
Qed.

Lemma round_nearest_even_nonneg m l :
  (0 ≤ m)%Z → (0 ≤ round_nearest_even m l)%Z.
Proof.
  intros Hm. destruct l as [|[]]; cbn [round_nearest_even]; try lia.
  destruct (Z.even m); lia.
Qed.

(** Rounding a mantissa that is not negative gives a number with the
    sign asked for: zero, a finite number or, on overflow, infinity. *)
Lemma binary_round_aux_signed s m e l :
  (0 ≤ m)%Z → signed s (binary_round_aux prec emax s m e l).
Proof.
  intros Hm. unfold binary_round_aux.
  pose proof (shr_fexp_nonneg m e l Hm) as H1.
  destruct (shr_fexp prec emax m e l) as [mrs' e'].
  pose proof (shr_fexp_nonneg _ e' loc_Exact
    (round_nearest_even_nonneg _ (loc_of_shr_record mrs') H1)) as H2.
  destruct (shr_fexp prec emax _ e' loc_Exact) as [mrs'' e''].
  cbn [fst] in H2. destruct (shr_m mrs'') as [|p|p]; [done| |lia].
  by case_match.
Qed.

Lemma div_int_signed a b :
  (0 ≤ a)%Z → (0 < b)%Z → signed false (div_int a b).
Proof.
  intros Ha Hb. destruct a as [|a|a], b as [|b|b]; try lia; [done|].
  unfold div_int, div. cbn [of_int SFdiv xorb].
  unfold SFdiv_core_binary. cbv zeta.
  set (m' := match _ with Z0 => _ | Zpos _ => _ | Zneg _ => _ end).
  assert (Hm' : (0 ≤ m')%Z).
  { unfold m'. case_match; try lia. apply Z.shiftl_nonneg. lia. }
  pose proof (Z.div_pos m' (Z.pos b) Hm' ltac:(lia)) as Hq.
  unfold Z.div in Hq. destruct (Z.div_eucl m' (Z.pos b)) as [q r].
  by apply binary_round_aux_signed.
Qed.

Lemma of_Q_signed q : (0 <= q)%Q → signed false (of_Q q).
Proof.
  intros Hq. apply div_int_signed; [|lia].
  unfold Qle in Hq. cbn in Hq. lia.
Qed.

Lemma mul_signed sx x sy my ey :
  signed sx x → signed (xorb sx sy) (mul x (S754_finite sy my ey)).
Proof.
  destruct x as [s|s| |s m e]; cbn; try done; intros ->; try done.
  by apply binary_round_aux_signed.
Qed.

Lemma add_signed x y :
  signed false x → signed false y → signed false (add x y).
Proof.
  destruct x as [sx|sx| |sx mx ex], y as [sy|sy| |sy my ey]; cbn;
    try done; intros -> ->; try done.
  unfold binary_normalize.
  destruct (_ + _)%Z as [|p|p] eqn:Hsum; [done| |].
  - unfold binary_round. case_match. by apply binary_round_aux_signed.
  - cbn [cond_Zopp] in Hsum. lia.
Qed.

Lemma mul_comm x y : mul x y = mul y x.
Proof.
  destruct x as [sx|sx| |sx mx ex], y as [sy|sy| |sy my ey]; cbn;
    try done; try by rewrite xorb_comm.
  by rewrite xorb_comm, Pos.mul_comm, Z.add_comm.
Qed.

Local Ltac fold_compare :=
  repeat match goal with
  | |- context [Pos.compare_cont Eq ?a ?b] =>
      change (Pos.compare_cont Eq a b) with (Pos.compare a b)
  end.

(** [<] is asymmetric; on numbers with a clear sign bit it is a strict
    weak order, and [a < b] fails exactly when [b <= a]. *)
Lemma ltb_asym a b : ltb a b = true → ltb b a = false.
Proof.
  unfold ltb, SFltb.
  destruct a as [[]|[]| |[] ma ea], b as [[]|[]| |[] mb eb]; cbn; try done.
  - destruct (Z.compare_spec ea eb), (Z.compare_spec eb ea); try done; try lia.
    subst. fold_compare.
    destruct (Pos.compare_spec ma mb), (Pos.compare_spec mb ma);
      cbn; try done; lia.
  - destruct (Z.compare_spec ea eb), (Z.compare_spec eb ea); try done; try lia.
    subst. fold_compare.
    destruct (Pos.compare_spec ma mb), (Pos.compare_spec mb ma);
      cbn; try done; lia.
Qed.

Lemma ltb_negtrans a b c :
  signed false a → signed false b → signed false c →
  ltb a b = false → ltb b c = false → ltb a c = false.
Proof.
  unfold ltb, SFltb.
  destruct a as [?|?| |? ma ea], b as [?|?| |? mb eb],
    c as [?|?| |? mc ec]; cbn; try done; intros -> -> ->; try done.
  destruct (Z.compare_spec ea eb), (Z.compare_spec eb ec),
    (Z.compare_spec ea ec); try done; try lia; subst;
    fold_compare;
    destruct (Pos.compare_spec ma mb), (Pos.compare_spec mb mc),
      (Pos.compare_spec ma mc); cbn; try done; lia.
Qed.

Lemma ltb_false_leb a b :
  signed false a → signed false b → ltb a b = false ↔ leb b a = true.
Proof.
  unfold ltb, leb, SFltb, SFleb.
  destruct a as [?|?| |? ma ea], b as [?|?| |? mb eb]; cbn; try done;
    intros -> ->; try done.
  destruct (Z.compare_spec ea eb), (Z.compare_spec eb ea); try done;
    try lia; subst; fold_compare;
    destruct (Pos.compare_spec ma mb), (Pos.compare_spec mb ma);
      cbn; try done; lia.
Qed.


End FloatFacts.

(** ** The order on strings and on sort keys *)

Lemma str_ltb_irrefl a : str_ltb a a = false.
Proof.
  induction a as [|x a IH]; [done|]. cbn.
  by rewrite N.ltb_irrefl, N.eqb_refl, IH.
Qed.

Lemma str_ltb_trans a b c :
  str_ltb a b = true → str_ltb b c = true → str_ltb a c = true.
Proof.
  revert b c. induction a as [|x a IH]; intros [|y b] [|z c]; cbn; try done.
  rewrite !orb_true_iff, !andb_true_iff, !N.ltb_lt, !N.eqb_eq.
  intros [?|[-> ?]] [?|[-> ?]]; eauto with lia.
Qed.

Lemma str_ltb_total a b :
  str_ltb a b = false → str_ltb b a = false → a = b.
Proof.
  revert b. induction a as [|x a IH]; intros [|y b]; cbn; try done.
  rewrite !orb_false_iff, !andb_false_iff, !N.ltb_ge, !N.eqb_neq.
  intros [? [?|?]] [? [?|?]]; try lia.
  assert (x = y) as -> by lia. f_equal. by apply IH.
Qed.

Lemma str_ltb_asym a b : str_ltb a b = true → str_ltb b a = false.
Proof.
  intros Hab. destruct (str_ltb b a) eqn:Hba; [|done].
  by rewrite <- (str_ltb_irrefl a), (str_ltb_trans a b a).
Qed.

Lemma str_ltb_negtrans a b c :
  str_ltb a b = false → str_ltb b c = false → str_ltb a c = false.
Proof.
  intros Hab Hbc. destruct (str_ltb a c) eqn:Hac; [|done].
  destruct (str_ltb b a) eqn:Hba.
  - by rewrite (str_ltb_trans b a c) in Hbc.
  - rewrite (str_ltb_total a b) in Hac by done. congruence.
Qed.

Lemma Qeq_bool_true (a b : Q) : Qeq_bool a b = true ↔ (a == b)%Q.
Proof. apply Qeq_bool_iff. Qed.

Lemma Qlt_bool_false (a b : Q) : Qlt_bool a b = false ↔ (b <= a)%Q.
Proof.
  unfold Qlt_bool. by rewrite negb_false_iff, Qle_bool_iff.
Qed.

Module KeyFacts.
Import Memory.

Lemma key_ltb_true a b :
  key_ltb a b = true ↔
  (importance a < importance b)%Q
  ∨ ((importance a == importance b)%Q
     ∧ str_ltb (timestamp a) (timestamp b) = true).
Proof.
  unfold key_ltb.
  by rewrite orb_true_iff, andb_true_iff, Qlt_bool_iff, Qeq_bool_true.
Qed.

Lemma key_ltb_false a b :
  key_ltb a b = false ↔
  (importance b <= importance a)%Q
  ∧ ((importance a == importance b)%Q →
     str_ltb (timestamp a) (timestamp b) = false).
Proof.
  rewrite <- not_true_iff_false, key_ltb_true. split.
  - intros H. split.
    + apply Qnot_lt_le. tauto.
    + intros Heq. apply not_true_iff_false. tauto.
  - intros [Hle Hts] [Hlt|[Heq Hlt]].
    + lra.
    + rewrite Hts in Hlt; done.
Qed.

Lemma key_ltb_asym a b : key_ltb a b = true → key_ltb b a = false.
Proof.
  rewrite key_ltb_true, key_ltb_false. intros [Hlt|[Heq Hlt]].
  - split; [lra|]. intros Heq. lra.
  - split; [lra|]. intros _. by apply str_ltb_asym.
Qed.

Lemma key_ltb_negtrans a b c :
  key_ltb a b = false → key_ltb b c = false → key_ltb a c = false.
Proof.
  rewrite !key_ltb_false. intros [Hba Hab] [Hcb Hbc]. split; [lra|].
  intros Heq. eapply str_ltb_negtrans; [apply Hab|apply Hbc]; lra.
Qed.

End KeyFacts.

(** ** Properties of the memory store *)

Lemma slice_to_nonneg {A} (n : Z) (l : list A) :
  (0 ≤ n)%Z → slice_to n l = take (Z.to_nat n) l.
Proof. intros Hn. unfold slice_to. by rewrite (proj2 (Z.leb_le 0 n)). Qed.

(** With a negative bound the slice drops from the end instead. *)
Lemma slice_to_negative {A} (n : Z) (l : list A) :
  (n < 0)%Z → length (slice_to n l) = (length l - Z.to_nat (- n))%nat.
Proof.
  intros Hn. unfold slice_to. rewrite (proj2 (Z.leb_gt 0 n)) by done.
  rewrite length_take. lia.
Qed.

Module MemoryFacts.
Import Memory.

Section Capacity.
Context {U : Unicode}.

Lemma cleanup_memories_keep s :
  (Z.of_nat (length (memories s)) ≤ max_memories s)%Z →
  _cleanup_memories s = s.
Proof.
  intros H. unfold _cleanup_memories.
  by rewrite (proj2 (Z.ltb_ge _ _)).
Qed.

Lemma cleanup_memories_cut s :
  (0 ≤ max_memories s < Z.of_nat (length (memories s)))%Z →
  memories (_cleanup_memories s)
  = take (Z.to_nat (max_memories s)) (sort_desc key_ltb (memories s)).
Proof.
  intros [H0 H]. unfold _cleanup_memories.
  rewrite (proj2 (Z.ltb_lt _ _)) by done. cbn.
  by apply slice_to_nonneg.
Qed.

Lemma cleanup_memories_max s :
  max_memories (_cleanup_memories s) = max_memories s.
Proof. unfold _cleanup_memories. by case_match. Qed.

(** An entry whose key is below no key of [l] sorts behind [l]. *)
Lemma sort_desc_snoc_lowest (l : list memory) (x : memory) :
  Forall (λ m, key_ltb m x = false) l →
  sort_desc key_ltb (l ++ [x]) = sort_desc key_ltb l ++ [x].
Proof.
  assert (Hins : ∀ m l', key_ltb m x = false →
    insert_desc key_ltb m (l' ++ [x]) = insert_desc key_ltb m l' ++ [x]).
  { intros m l' Hm. induction l' as [|y l' IH]; cbn.
    - by rewrite Hm.
    - destruct (key_ltb m y); [by rewrite IH|done]. }
  unfold sort_desc. induction 1 as [|m l Hm _ IH]; cbn; [done|].
  by rewrite IH, Hins.
Qed.

(** C3. With a capacity that is a count ([0 ≤ max_memories]), after
    [add_memory] at most [max_memories] entries are stored.  When the
    old entries and the new one are more than that, the store keeps the
    first [max_memories] of them sorted by [(importance, timestamp)]
    descending: kept and dropped entries together are the old entries
    and the new one, the kept ones are in descending order, and no kept
    entry has a key below a dropped one.  A store that had reached
    [max_memories] entries has exactly that many afterwards.  Importance
    goes before recency: a kept entry never has a lower importance than
    a dropped one, and a new entry less important than every entry of a
    full store is the one dropped, though it is the most recent. *)
Theorem add_memory_capacity (now : str) (fact_now : nat → str)
    (user_input assistant_response : str) (importance : Q) (s : store) :
  (0 ≤ max_memories s)%Z →
  let s' := add_memory now fact_now user_input assistant_response
              importance s in
  let entry := new_memory now user_input assistant_response importance in
  let all := memories s ++ [entry] in
  let cap := Z.to_nat (max_memories s) in
  let dropped := drop cap (sort_desc key_ltb all) in
  max_memories s' = max_memories s
  ∧ (Z.of_nat (length (memories s')) ≤ max_memories s')%Z
  ∧ ((length all ≤ cap)%nat → memories s' = all)
  ∧ ((cap < length all)%nat →
       memories s' = take cap (sort_desc key_ltb all)
       ∧ length (memories s') = cap
       ∧ memories s' ++ dropped ≡ₚ all
       ∧ StronglySorted (not_below key_ltb) (memories s')
       ∧ (∀ kept gone, kept ∈ memories s' → gone ∈ dropped →
            key_ltb kept gone = false
            ∧ (Memory.importance gone <= Memory.importance kept)%Q))
  ∧ ((cap ≤ length (memories s))%nat → length (memories s') = cap)
  ∧ (length (memories s) = cap →
     (∀ m, m ∈ memories s → (importance < Memory.importance m)%Q) →
     memories s' ≡ₚ memories s ∧ dropped = [entry]).
Proof.
  intros Hmax. cbv zeta.
  set (entry := new_memory now user_input assistant_response importance).
  set (all := memories s ++ [entry]).
  set (cap := Z.to_nat (max_memories s)).
  set (pre := {| max_memories := max_memories s; memories := all;
     user_preferences :=
       _extract_user_preferences user_input (user_preferences s);
     important_facts :=
       _extract_important_facts fact_now user_input assistant_response
         (important_facts s) |}).
  change (add_memory now fact_now user_input assistant_response
            importance s) with (_cleanup_memories pre).
  assert (Hcut : (cap < length all)%nat →
    memories (_cleanup_memories pre) = take cap (sort_desc key_ltb all)).
  { intros H. rewrite cleanup_memories_cut; [done|]. cbn. lia. }
  assert (Hkeep : (length all ≤ cap)%nat →
    memories (_cleanup_memories pre) = all).
  { intros H. rewrite cleanup_memories_keep; [done|]. cbn. lia. }
  assert (Hlen : (cap < length all)%nat →
    length (memories (_cleanup_memories pre)) = cap).
  { intros H. rewrite Hcut by done.
    rewrite length_take_le; [done|]. rewrite sort_desc_length. lia. }
  split_and!.
  - by rewrite cleanup_memories_max.
  - rewrite cleanup_memories_max. cbn.
    destruct (decide (cap < length all)%nat) as [H|H].
    + rewrite Hlen by done. lia.
    + rewrite Hkeep by lia. lia.
  - done.
  - intros H. rewrite Hcut by done. split_and!.
    + done.
    + rewrite <- Hcut by done. by apply Hlen.
    + by rewrite take_drop, sort_desc_perm.
    + eapply StronglySorted_app_1_l. rewrite take_drop.
      apply sort_desc_sorted;
        [apply KeyFacts.key_ltb_asym|apply KeyFacts.key_ltb_negtrans].
    + intros kept gone Hk Hg.
      assert (Hnb : key_ltb kept gone = false).
      { eapply (sort_desc_take_drop key_ltb); [..|exact Hk|exact Hg].
        - apply KeyFacts.key_ltb_asym.
        - apply KeyFacts.key_ltb_negtrans. }
      split; [done|]. by apply KeyFacts.key_ltb_false in Hnb as [? _].
  - intros H. apply Hlen. unfold all. rewrite length_app. cbn. lia.
  - intros Hfull Hlow.
    assert (Hsort : sort_desc key_ltb all
                    = sort_desc key_ltb (memories s) ++ [entry]).
    { apply sort_desc_snoc_lowest. apply Forall_forall. intros m Hm.
      apply KeyFacts.key_ltb_false. specialize (Hlow m Hm). cbn.
      split; [lra|]. intros Heq. lra. }
    assert (Hcap : cap = length (sort_desc key_ltb (memories s)))
      by by rewrite sort_desc_length.
    rewrite Hcut by (unfold all; rewrite length_app; cbn; lia).
    rewrite Hsort, Hcap, take_app_length, drop_app_length.
    split; [apply sort_desc_perm|done].
Qed.

End Capacity.

(** [full_store] holds one entry of importance 0.9 and has room for one;
    a later entry of importance 0.1 is dropped at once. *)
Lemma add_memory_capacity_witness :
  let s' := add_memory (u "2024-06-11T10:00:00") clock0
              (u "你好") (u "你好") 0.1 full_store in
  (0 ≤ max_memories full_store)%Z
  ∧ (Z.of_nat (length (memories s')) ≤ max_memories s')%Z
  ∧ memories s' ≡ₚ memories full_store.
Proof.
  cbv zeta.
  destruct (add_memory_capacity (u "2024-06-11T10:00:00") clock0
              (u "你好") (u "你好") 0.1 full_store)
    as (_ & Hle & _ & _ & _ & Hlow); [by vm_compute|].
  split; [by vm_compute|]. split; [exact Hle|].
  apply Hlow; [by vm_compute|].
  intros m Hm. vm_compute in Hm.
  apply list_elem_of_singleton in Hm as ->. reflexivity.
Defined.

End MemoryFacts.

Lemma StronglySorted_mono {A} (R1 R2 : A → A → Prop) (l : list A) :
  (∀ a b, R1 a b → R2 a b) → StronglySorted R1 l → StronglySorted R2 l.
Proof.
  intros HR. induction 1 as [|x l _ IH Hx]; constructor; [done|].
  eapply Forall_impl; [exact Hx|]. auto.
Qed.

Module RelevanceFacts.
Import Memory.

Section Relevance.
Context {U : Unicode}.

(** The score is the one of the specification: float multiplication
    commutes. *)
Lemma relevance_score_Some query_keywords m score :
  relevance_score query_keywords m = Some score →
  query_keywords ∩ list_to_set (keywords m) ≠ ∅
  ∧ score = jaccard_score query_keywords m.
Proof.
  unfold relevance_score, jaccard_score. cbv zeta.
  case_bool_decide as Hpos; [|done]. intros [= <-]. split.
  - intros Hempty. rewrite Hempty, size_empty in Hpos. lia.
  - f_equal; apply FloatFacts.mul_comm.
Qed.

Lemma relevance_score_None query_keywords m :
  query_keywords ∩ list_to_set (keywords m) = ∅ →
  relevance_score query_keywords m = None.
Proof.
  intros Hempty. unfold relevance_score. cbv zeta.
  rewrite Hempty, size_empty. by rewrite bool_decide_false by lia.
Qed.

(** The two literals of the score. *)
Lemma score_weights :
  Float.of_Q 0.7 = SpecFloat.S754_finite false 6305039478318694 (-53)
  ∧ Float.of_Q 0.3 = SpecFloat.S754_finite false 5404319552844595 (-54).
Proof. split; by vm_compute. Qed.

(** The division of the score has a positive divisor. *)
Lemma relevance_divisor_pos (query_keywords memory_keywords : gset str) :
  (0 < size (query_keywords ∩ memory_keywords))%nat →
  (0 < size (query_keywords ∪ memory_keywords))%nat.
Proof.
  intros Hpos. eapply Nat.lt_le_trans; [exact Hpos|].
  apply subseteq_size. intros x [Hx _]%elem_of_intersection.
  by apply elem_of_union_l.
Qed.

(** With an importance that is not negative the score is a number with
    a clear sign bit: no NaN, nothing below zero. *)
Lemma relevance_score_signed query_keywords m score :
  (0 <= importance m)%Q →
  relevance_score query_keywords m = Some score →
  Float.signed false score.
Proof.
  intros Himportance. unfold relevance_score. cbv zeta.
  case_bool_decide as Hpos; [|done]. intros [= <-].
  apply relevance_divisor_pos in Hpos as Hdivisor.
  destruct score_weights as [-> ->].
  apply FloatFacts.add_signed.
  - apply (FloatFacts.mul_signed false _ false).
    apply FloatFacts.div_int_signed; lia.
  - apply (FloatFacts.mul_signed false _ false).
    by apply FloatFacts.of_Q_signed.
Qed.

Lemma elem_of_scored query s m score :
  (m, score) ∈ scored query s ↔
  m ∈ memories s
  ∧ relevance_score (list_to_set (_extract_keywords query)) m = Some score.
Proof.
  unfold scored. cbv zeta. rewrite list_elem_of_omap. split.
  - intros (m' & Hm & Hs).
    destruct (relevance_score _ m') as [q|] eqn:Hq; [|done].
    cbn in Hs. by simplify_eq.
  - intros [Hm Hs]. exists m. by rewrite Hs.
Qed.

Lemma scored_signed query s :
  Forall (λ m, (0 <= importance m)%Q) (memories s) →
  Forall (λ item, Float.signed false item.2) (scored query s).
Proof.
  rewrite !Forall_forall. intros Himportance [m score] [Hm Hs]%elem_of_scored.
  eapply relevance_score_signed; [|exact Hs]. by apply Himportance.
Qed.

Lemma ranked_subseteq query limit s :
  ranked query limit s ⊆ scored query s.
Proof.
  unfold ranked, slice_to. intros x Hx.
  rewrite <- (sort_desc_perm score_ltb).
  case_match; by eapply subseteq_take.
Qed.

(** [<] on the scores of entries with an importance that is not negative
    is a strict weak order, so the sort puts them in descending order. *)
Lemma ranked_sorted query limit s :
  Forall (λ m, (0 <= importance m)%Q) (memories s) →
  StronglySorted (λ a b : memory * float, Float.leb b.2 a.2 = true)
    (ranked query limit s).
Proof.
  intros Hsigned%(scored_signed query).
  assert (Hs : StronglySorted (not_below score_ltb)
                 (sort_desc score_ltb (scored query s))).
  { apply (sort_desc_sorted_on score_ltb
             (λ item, Float.signed false item.2)); [| |done].
    - intros a b. apply FloatFacts.ltb_asym.
    - intros a b c. apply FloatFacts.ltb_negtrans. }
  assert (Hranked : StronglySorted (not_below score_ltb)
                      (ranked query limit s)).
  { unfold ranked, slice_to. case_match.
    - rewrite <- (take_drop (Z.to_nat limit)) in Hs.
      by apply StronglySorted_app_1_l in Hs.
    - rewrite <- (take_drop (length (sort_desc score_ltb (scored query s))
                              - Z.to_nat (- limit))) in Hs.
      by apply StronglySorted_app_1_l in Hs. }
  assert (Hall : Forall (λ item, Float.signed false item.2)
                   (ranked query limit s)).
  { rewrite Forall_forall in Hsigned. apply Forall_forall.
    intros item Hitem%ranked_subseteq. by apply Hsigned. }
  clear Hs. induction Hranked as [|a l _ IH Ha]; constructor.
  - apply IH. by apply Forall_cons in Hall as [_ ?].
  - apply Forall_cons in Hall as [Hsa Hl].
    rewrite Forall_forall in Ha, Hl. apply Forall_forall. intros b Hb.
    apply FloatFacts.ltb_false_leb; [done|by apply Hl|by apply Ha].
Qed.

(** C2. For a limit that is a count ([0 ≤ limit]),
    [get_relevant_memories] returns the formatted entries of [ranked],
    at most [limit] of them; every entry in it is a stored entry whose
    keyword set meets the keyword set of the query, and its score is
    [0.7 * (|intersection| / |union|) + 0.3 * importance], evaluated as
    Python evaluates it, in float arithmetic; an entry whose keyword set
    does not meet the query's is never among them, whatever its
    importance; and the entries are in descending order of that score:
    no entry has a score below the score of a later one.  The order is
    stated for importances that are not negative (the documented range is
    0.0 to 1.0): the scores are then numbers, no NaN. *)
Theorem get_relevant_memories_ranked (query : str) (limit : Z)
    (s : store) :
  (0 ≤ limit)%Z →
  let query_keywords : gset str :=
    list_to_set (_extract_keywords query) in
  let items := ranked query limit s in
  get_relevant_memories query limit s
    = map (λ item, format_memory item.1) items
  ∧ (Z.of_nat (length (get_relevant_memories query limit s)) ≤ limit)%Z
  ∧ (∀ m score, (m, score) ∈ items →
       m ∈ memories s
       ∧ query_keywords ∩ list_to_set (keywords m) ≠ ∅
       ∧ score = jaccard_score query_keywords m)
  ∧ (∀ m score, query_keywords ∩ list_to_set (keywords m) = ∅ →
       (m, score) ∉ items)
  ∧ (Forall (λ m, (0 <= importance m)%Q) (memories s) →
     StronglySorted (λ a b : memory * float, Float.leb b.2 a.2 = true)
       items).
Proof.
  intros Hlimit. cbv zeta.
  assert (Hout : get_relevant_memories query limit s
            = map (λ item, format_memory item.1) (ranked query limit s)).
  { unfold get_relevant_memories. destruct (memories s) eqn:Hm; [|done].
    unfold ranked, scored. rewrite Hm. cbn.
    rewrite slice_to_nonneg by done. by rewrite take_nil. }
  split_and!.
  - done.
  - rewrite Hout, length_map. unfold ranked.
    rewrite slice_to_nonneg, length_take by done. lia.
  - intros m score Hin%ranked_subseteq%elem_of_scored.
    destruct Hin as [Hm Hs]. split; [done|].
    by apply relevance_score_Some.
  - intros m score Hempty Hin%ranked_subseteq%elem_of_scored.
    destruct Hin as [_ Hs].
    by rewrite relevance_score_None in Hs.
  - apply ranked_sorted.
Qed.

End Relevance.

(** In [tie_store] both scores are 0.41 in exact arithmetic; the floats
    differ, and the entry stored second comes first. *)
Lemma get_relevant_memories_ranked_witness :
  (0 ≤ 5)%Z
  ∧ snd <$> ranked (u "meeting") 5 tie_store
    = [SpecFloat.S754_finite false 7385903388887614 (-54);
       SpecFloat.S754_finite false 7385903388887613 (-54)]
  ∧ get_relevant_memories (u "meeting") 5 tie_store
    = [u "[06-11 10:05] 用戶: meeting room...";
       u "[06-11 10:00] 用戶: meeting..."]
  ∧ (Z.of_nat (length (get_relevant_memories (u "meeting") 5 tie_store))
     ≤ 5)%Z
  ∧ StronglySorted (λ a b : memory * float, Float.leb b.2 a.2 = true)
      (ranked (u "meeting") 5 tie_store).
Proof.
  destruct (get_relevant_memories_ranked (u "meeting") 5 tie_store)
    as (Hout & Hlen & _ & _ & Hsorted); [done|].
  split; [done|]. split; [by vm_compute|].
  split; [rewrite Hout; by vm_compute|]. split; [exact Hlen|].
  apply Hsorted. unfold Qle. vm_compute. repeat constructor; discriminate.
Defined.

(** The mean and the counts of a store that has entries. *)
Lemma statistics_nonempty (s : store) :
  memories s ≠ [] →
  let stats := get_memory_statistics s in
  stats !! u "total_memories" = Some (SInt (Z.of_nat (length (memories s))))
  ∧ stats !! u "categories" = Some (SCounts (count_categories (memories s)))
  ∧ stats !! u "average_importance"
    = Some (SFloat
              (Float.div (total_importance (memories s))
                 (Float.of_Q (inject_Z (Z.of_nat (length (memories s)))))))
  ∧ stats !! u "user_preferences_count"
    = Some (SInt (Z.of_nat (size (user_preferences s))))
  ∧ stats !! u "important_facts_count"
    = Some (SInt (Z.of_nat (size (important_facts s)))).
Proof.
  intros Hne. cbv zeta. unfold get_memory_statistics.
  destruct (memories s) as [|m ms]; [done|].
  generalize (SInt (Z.of_nat (length (m :: ms))))
    (SCounts (count_categories (m :: ms)))
    (SFloat (Float.div (total_importance (m :: ms))
               (Float.of_Q (inject_Z (Z.of_nat (length (m :: ms)))))))
    (SInt (Z.of_nat (size (user_preferences s))))
    (SInt (Z.of_nat (size (important_facts s)))).
  intros total counts mean preferences facts.
  split_and!; by vm_compute.
Qed.

Lemma statistics_empty (s : store) :
  memories s = [] →
  get_memory_statistics s
  = {[ u "total_memories" := SInt 0;
       u "categories" := SCounts ∅;
       u "average_importance" := SFloat (Float.of_Q 0.0) ]}.
Proof. intros Hm. unfold get_memory_statistics. by rewrite Hm. Qed.

(** C8. On a store without entries [get_memory_statistics] returns the
    three keys [total_memories] (0), [categories] (empty) and
    [average_importance] (0.0), and divides nothing; the keys
    [user_preferences_count] and [important_facts_count], which it
    returns for a store with entries, are missing. *)
Theorem statistics_empty_store_lacks_counts :
  let stats := get_memory_statistics (init 100) in
  stats !! u "total_memories" = Some (SInt 0)
  ∧ stats !! u "categories" = Some (SCounts ∅)
  ∧ stats !! u "average_importance" = Some (SFloat (Float.of_Q 0.0))
  ∧ stats !! u "user_preferences_count" = None
  ∧ stats !! u "important_facts_count" = None
  ∧ size stats = 3%nat.
Proof. cbv zeta. split_and!; by vm_compute. Qed.

End RelevanceFacts.

(** ** What [findall] returns for a pattern that is one group *)

Module ReFacts.
Import Re.

Lemma rep_result {A} p lo hi s (k : str → option A) x :
  rep p lo hi s k = Some x → ∃ s', k s' = Some x.
Proof.
  revert lo hi. induction s as [|c s IH]; intros lo hi; cbn.
  - destruct lo; [eauto|done].
  - destruct (p c && negb (bool_decide (hi = Some 0%nat))).
    + destruct (rep p (pred lo) (pred <$> hi) s k) eqn:Hrep.
      * intros [= <-]. eauto.
      * destruct lo; [eauto|done].
    + destruct lo; [eauto|done].
Qed.

(** Without groups in [r], the continuation gets the groups it started
    with. *)
Lemma run_no_groups {A} r s caps (k : str → list str → option A) x :
  groups r = 0%nat → run r s caps k = Some x → ∃ s', k s' caps = Some x.
Proof.
  revert s caps k. induction r as [p|p lo hi|r1 IH1 r2 IH2|r1 IH1 r2 IH2|r IH];
    intros s caps k Hg; cbn in *.
  - destruct s as [|c s]; [done|]. destruct (p c); [eauto|done].
  - apply rep_result.
  - intros (s' & Hrun)%IH1; [|lia]. apply IH2 in Hrun; [done|lia].
  - destruct (run r1 s caps k) eqn:Hrun.
    + intros [= <-]. apply IH1 in Hrun; [done|lia].
    + apply IH2. lia.
  - done.
Qed.

Lemma match_here_group r s rest caps :
  groups r = 0%nat →
  match_here (RGroup r) s = Some (rest, caps) → ∃ g, caps = [g].
Proof.
  intros Hg Hm. unfold match_here in Hm. cbn in Hm.
  apply run_no_groups in Hm as (s' & [= _ <-]); [|done]. eauto.
Qed.

Lemma scan_group r skip s :
  groups r = 0%nat →
  Forall (λ m, ∃ g, m = MStr g) (scan (RGroup r) skip s).
Proof.
  intros Hg.
  assert (Hres : ∀ s0 rest caps whole,
    match_here (RGroup r) s0 = Some (rest, caps) →
    ∃ g, result (RGroup r) whole caps = MStr g).
  { intros s0 rest caps whole [g ->]%match_here_group; [|done].
    unfold result. cbn. rewrite Hg. eauto. }
  revert skip. induction s as [|c s IH]; intros [|skip]; cbn [scan].
  - destruct (match_here (RGroup r) []) as [[rest caps]|] eqn:Hm;
      [|constructor].
    constructor; [by eapply Hres|constructor].
  - constructor.
  - destruct (match_here (RGroup r) (c :: s)) as [[rest caps]|] eqn:Hm;
      [|by apply IH].
    constructor; [by eapply Hres|]. apply IH.
  - apply IH.
Qed.

Lemma findall_group r s :
  groups r = 0%nat → Forall (λ m, ∃ g, m = MStr g) (findall (RGroup r) s).
Proof. apply scan_group. Qed.

End ReFacts.

(** ** Export and import *)

Module PersistFacts.
Import Memory Persist.

Section Facts.
Context {U : Unicode}.

Lemma fact_patterns_groups :
  Forall (λ pattern, ∃ r, pattern = RGroup r ∧ Re.groups r = 0%nat)
    fact_patterns.
Proof. repeat constructor; eexists; split; reflexivity. Qed.

Lemma insert_facts_strings ts ctx (ms : list rematch) facts :
  Forall (λ m, ∃ g, m = MStr g) ms →
  facts_are_strings facts →
  facts_are_strings
    (fold_left
       (λ facts m,
          <[ ts ++ u "_" ++ fmt_match m :=
               {| fact_content := m; fact_timestamp := ts;
                  fact_context := ctx |} ]> facts)
       ms facts).
Proof.
  intros Hms. revert facts.
  induction Hms as [|m ms [g ->] _ IH]; intros facts Hf; cbn; [done|].
  apply IH. intros k f.
  destruct (decide (ts ++ u "_" ++ g = k)) as [<-|Hne].
  - rewrite lookup_insert_eq. intros [= <-]. eauto.
  - rewrite lookup_insert_ne by done. apply Hf.
Qed.

Lemma extract_facts_strings fact_now user_input assistant_response facts :
  facts_are_strings facts →
  facts_are_strings
    (_extract_important_facts fact_now user_input assistant_response
       facts).
Proof.
  unfold _extract_important_facts. cbv zeta.
  generalize (user_input ++ u " " ++ assistant_response). intros text.
  assert (Hps : Forall
    (λ ip : nat * regex, ∃ r, ip.2 = RGroup r ∧ Re.groups r = 0%nat)
    (imap pair fact_patterns)).
  { apply Forall_forall. intros [i p] Hin.
    apply elem_of_lookup_imap in Hin as (j & p' & [= -> ->] & Hp).
    pose proof fact_patterns_groups as Hall.
    rewrite Forall_forall in Hall. apply Hall.
    by eapply list_elem_of_lookup_2. }
  revert facts.
  induction Hps as [|[i p] ps (r & Hp & Hg) _ IH]; intros facts Hf;
    cbn; [done|].
  apply IH. apply insert_facts_strings; [|done].
  cbn in Hp. subst p. by apply ReFacts.findall_group.
Qed.

Lemma built_facts_strings s :
  built s → facts_are_strings (important_facts s).
Proof.
  induction 1 as [mm|now fn ui ar imp s _ IH|s _ IH]; cbn.
  - intros k f. by rewrite lookup_empty.
  - unfold add_memory, _cleanup_memories. cbv zeta.
    case_match; cbn; by apply extract_facts_strings.
  - intros k f. by rewrite lookup_empty.
Qed.

End Facts.

(** *** What [json] does to the exported values *)

Lemma py_ok_list (l : list pyval) :
  foldr (λ x P, py_ok x ∧ P) True l ↔ Forall py_ok l.
Proof.
  induction l as [|x l IH]; cbn.
  - split; [constructor|done].
  - rewrite Forall_cons, IH. done.
Qed.

Lemma py_ok_fields (d : list (str * pyval)) :
  foldr (λ kv P, py_ok kv.2 ∧ P) True d ↔ Forall (λ kv, py_ok kv.2) d.
Proof.
  induction d as [|x d IH]; cbn.
  - split; [constructor|done].
  - rewrite Forall_cons, IH. done.
Qed.

Lemma py_ok_strs (l : list str) : py_ok (PList (map PStr l)).
Proof. cbn. apply py_ok_list, Forall_fmap, Forall_true. done. Qed.

Lemma json_norm_strs (l : list str) :
  map json_norm (map PStr l) = map PStr l.
Proof. rewrite map_map. by apply map_ext. Qed.

Lemma py_ok_rematch m : py_ok (py_rematch m).
Proof.
  destruct m as [s|gs]; cbn; [done|].
  apply py_ok_list, Forall_fmap, Forall_true. done.
Qed.

Lemma json_norm_rematch m : json_norm (py_rematch m) = py_rematch_read m.
Proof. destruct m as [s|gs]; cbn; [done|]. by rewrite json_norm_strs. Qed.

Lemma py_ok_memory m : py_ok (py_memory m).
Proof.
  unfold py_memory. cbn -[u]. split.
  - by apply (bool_decide_unpack _); vm_compute.
  - split_and!; try done. apply py_ok_list, Forall_fmap, Forall_true. done.
Qed.

Lemma json_norm_memory m : json_norm (py_memory m) = py_memory m.
Proof. unfold py_memory. cbn -[u]. by rewrite json_norm_strs. Qed.

Lemma py_ok_memories ms : py_ok (py_memories ms).
Proof.
  unfold py_memories. cbn. apply py_ok_list, Forall_fmap, Forall_true.
  apply py_ok_memory.
Qed.

Lemma json_norm_memories ms : json_norm (py_memories ms) = py_memories ms.
Proof.
  unfold py_memories. cbn. f_equal. rewrite map_map.
  apply map_ext. apply json_norm_memory.
Qed.

Lemma py_ok_preferences prefs : py_ok (py_preferences prefs).
Proof.
  unfold py_preferences. cbn. split.
  - rewrite <- list_fmap_compose. apply NoDup_fst_map_to_list.
  - apply py_ok_fields, Forall_fmap, Forall_true. intros [k l]. cbn.
    apply py_ok_list, Forall_fmap, Forall_true. apply py_ok_rematch.
Qed.

Lemma json_norm_preferences prefs :
  json_norm (py_preferences prefs) = py_preferences_read prefs.
Proof.
  unfold py_preferences, py_preferences_read. cbn. f_equal.
  rewrite map_map. apply map_ext. intros [k l]. cbn. do 2 f_equal.
  rewrite map_map. apply map_ext. apply json_norm_rematch.
Qed.

Lemma preferences_read_tuple_free prefs :
  tuple_free prefs → py_preferences_read prefs = py_preferences prefs.
Proof.
  intros Hfree. unfold py_preferences, py_preferences_read. f_equal.
  apply map_ext_in. intros [k l] Hin%list_elem_of_In%elem_of_map_to_list.
  cbn. do 2 f_equal. apply map_ext_in. intros m Hm%list_elem_of_In.
  specialize (Hfree k l Hin). rewrite Forall_forall in Hfree.
  by destruct (Hfree m Hm) as [s ->].
Qed.

Lemma py_ok_fact f : py_ok (py_fact f).
Proof.
  unfold py_fact. cbn -[u]. split.
  - by apply (bool_decide_unpack _); vm_compute.
  - split_and!; try done. apply py_ok_rematch.
Qed.

Lemma py_ok_facts facts : py_ok (py_facts facts).
Proof.
  unfold py_facts. cbn. split.
  - rewrite <- list_fmap_compose. apply NoDup_fst_map_to_list.
  - apply py_ok_fields, Forall_fmap, Forall_true. intros [k f].
    apply py_ok_fact.
Qed.

Lemma json_norm_facts facts :
  facts_are_strings facts → json_norm (py_facts facts) = py_facts facts.
Proof.
  intros Hstr. unfold py_facts. cbn. f_equal. rewrite map_map.
  apply map_ext_in. intros [k f] Hin%list_elem_of_In%elem_of_map_to_list.
  cbn -[u]. f_equal. unfold py_fact. cbn -[u].
  destruct (Hstr k f Hin) as [s ->]. done.
Qed.

(** The keys of the exported dictionary are found again. *)
Lemma exported_get a b c d :
  let data := [ (u "memories", a); (u "user_preferences", b);
                (u "important_facts", c); (u "export_timestamp", d) ] in
  dict_get data (u "memories") (PList []) = a
  ∧ dict_get data (u "user_preferences") (PDict []) = b
  ∧ dict_get data (u "important_facts") (PDict []) = c.
Proof. cbv zeta. split_and!; reflexivity. Qed.

Section RoundTrip.
Context {U : Unicode} {J : Json}.

Lemma import_export now (o o0 : objects) :
  py_ok (o_memories o) → py_ok (o_user_preferences o) →
  py_ok (o_important_facts o) →
  import_memories (export_memories now o) o0
  = ({| o_max_memories := o_max_memories o0;
        o_memories := json_norm (o_memories o);
        o_user_preferences := json_norm (o_user_preferences o);
        o_important_facts := json_norm (o_important_facts o) |}, true).
Proof.
  intros Hm Hp Hf. unfold import_memories, export_memories.
  rewrite loads_dumps.
  - cbn -[u dict_get].
    pose proof (exported_get (json_norm (o_memories o))
      (json_norm (o_user_preferences o))
      (json_norm (o_important_facts o)) (PStr now)) as (-> & -> & ->).
    done.
  - cbn -[u]. split; [by apply (bool_decide_unpack _); vm_compute|].
    done.
Qed.

(** What import reads back from the export of a store the class built. *)
Lemma import_export_built (now : str) (s : store) (o : objects) :
  built s →
  import_memories (export_memories now (objects_of s)) o
  = ({| o_max_memories := o_max_memories o;
        o_memories := py_memories (memories s);
        o_user_preferences := py_preferences_read (user_preferences s);
        o_important_facts := py_facts (important_facts s) |}, true).
Proof.
  intros Hs. rewrite import_export.
  - unfold objects_of.
    cbn [o_memories o_user_preferences o_important_facts].
    rewrite json_norm_memories, json_norm_preferences.
    rewrite json_norm_facts by by apply built_facts_strings. done.
  - apply py_ok_memories.
  - apply py_ok_preferences.
  - apply py_ok_facts.
Qed.

(** C5, as the code has it.  For a store the class built, export and
    then import returns [True]; the memories and the important facts come
    back as they were; the user preferences come back with every tuple
    (a match of the two-group pattern for [attributes]) turned into a
    list, and so as they were when they hold no tuple.  An empty store
    comes back empty. *)
Theorem export_import_round_trip (now : str) (s : store) (o : objects) :
  built s →
  import_memories (export_memories now (objects_of s)) o
  = ({| o_max_memories := o_max_memories o;
        o_memories := py_memories (memories s);
        o_user_preferences := py_preferences_read (user_preferences s);
        o_important_facts := py_facts (important_facts s) |}, true)
  ∧ (tuple_free (user_preferences s) →
     import_memories (export_memories now (objects_of s)) (objects_of s)
     = (objects_of s, true))
  ∧ (∀ n, import_memories (export_memories now (objects_of (init n)))
            (objects_of (init n))
          = (objects_of (init n), true)).
Proof.
  intros Hs. split_and!.
  - by apply import_export_built.
  - intros Hfree. rewrite import_export_built by done.
    by rewrite preferences_read_tuple_free.
  - intros n. rewrite import_export_built by constructor.
    rewrite preferences_read_tuple_free; [done|].
    intros k l. cbn. by rewrite lookup_empty.
Qed.

(** C10. [import_memories] returns [False] exactly when [json.loads]
    raises or reads something that is not a dictionary, and then the
    three attributes are what they were. *)
Theorem import_failure_keeps_state (json_data : str) (o : objects) :
  ((import_memories json_data o).2 = false ↔
   ¬ ∃ data, loads json_data = Some (PDict data))
  ∧ ((import_memories json_data o).2 = false →
     (import_memories json_data o).1 = o).
Proof.
  unfold import_memories.
  destruct (loads json_data) as [[]|]; cbn; split;
    try done; try (split; [intros _ [? [=]]|done]).
  split; [done|]. intros []. eauto.
Qed.

End RoundTrip.

(** C5 as stated fails.  After "我的名字是小明" the preferences hold the
    tuple [('名字', '小明')] under [attributes]; it is exported as a JSON
    array and read back as a list. *)
Lemma export_import_exact_fails :
  ¬ ∀ (J : Json) (now : str) (s : store),
      built s →
      import_memories (export_memories now (objects_of s)) (objects_of s)
      = (objects_of s, true).
Proof.
  intros Hexact.
  assert (Hb : built named_store) by repeat constructor.
  specialize (Hexact codec_json [] named_store Hb).
  rewrite (import_export_built [] named_store _ Hb) in Hexact.
  apply (f_equal (λ r, o_user_preferences r.1)) in Hexact.
  vm_compute in Hexact. discriminate Hexact.
Qed.

Lemma export_import_round_trip_witness :
  built example_store
  ∧ (import_memories
       (export_memories (u "2024-06-12T08:00:00") (objects_of example_store))
       (objects_of (init 100))).2 = true.
Proof.
  assert (Hb : built example_store) by repeat constructor.
  split; [exact Hb|].
  destruct (export_import_round_trip (u "2024-06-12T08:00:00")
              example_store (objects_of (init 100)) Hb) as (-> & _).
  reflexivity.
Defined.

Lemma import_failure_keeps_state_witness :
  (import_memories (u "not json") (objects_of example_store)).2 = false
  ∧ (import_memories (u "not json") (objects_of example_store)).1
    = objects_of example_store.
Proof.
  assert (Hfail : (import_memories (u "not json")
                     (objects_of example_store)).2 = false)
    by by vm_compute.
  split; [exact Hfail|].
  exact (proj2 (import_failure_keeps_state _ _) Hfail).
Defined.

End PersistFacts.

(** ** The calendar tool: deleting an event *)

Module CalendarFacts.
Import Calendar.

Lemma messages_differ event_id : not_found_message event_id ≠ no_id_message.
Proof.
  unfold not_found_message, no_id_message. intros H.
  apply (f_equal (take 3)) in H. vm_compute in H. discriminate H.
Qed.

Section Delete.
Context {U : Unicode}.

(** An id other than 0 that no event has: the not-found message, and
    the tool as it was. *)
Lemma delete_event_not_found user_input event_id t :
  _extract_event_id user_input = Returns (Some event_id) →
  event_id ≠ 0%Z →
  (∀ e, e ∈ events t → ev_id e ≠ event_id) →
  _delete_event user_input t = (Returns (not_found_message event_id), t).
Proof.
  intros Hid Hnz Hnone. unfold _delete_event.
  rewrite Hid, bool_decide_true by done.
  destruct (list_find _ _) as [[i e]|] eqn:Hfind; [|done].
  apply list_find_Some in Hfind as (Hi & He & _).
  destruct (Hnone e); [|done]. by eapply list_elem_of_lookup_2.
Qed.

(** No integer in the text: the no-id message, and the tool as it
    was. *)
Lemma delete_event_no_id user_input t :
  _extract_event_id user_input = Returns None →
  _delete_event user_input t = (Returns no_id_message, t).
Proof. intros Hid. unfold _delete_event. by rewrite Hid. Qed.

(** The integer 0 is taken for no id at all. *)
Lemma delete_event_zero user_input t :
  _extract_event_id user_input = Returns (Some 0%Z) →
  _delete_event user_input t = (Returns no_id_message, t).
Proof. intros Hid. unfold _delete_event. by rewrite Hid. Qed.

(** A first run of more than 4300 digits: the [ValueError] of [int]
    leaves [_delete_event], and the tool is as it was. *)
Lemma delete_event_raises user_input e t :
  _extract_event_id user_input = Raises e →
  _delete_event user_input t = (Raises e, t).
Proof. intros Hid. unfold _delete_event. by rewrite Hid. Qed.

End Delete.

(** C6. "刪除日程0" is a calendar request to delete, its first integer is
    0 and no event has the id 0 (ids start at 1); [_delete_event] leaves
    the events as they are but answers with the no-id message, not with
    the not-found message. *)
Theorem delete_event_id_zero_message :
  let user_input := u "刪除日程0" in
  intent_type (AgentCore._detect_intent user_input) = u "calendar"
  ∧ _detect_schedule_intent user_input = u "delete"
  ∧ _extract_event_id user_input = Returns (Some 0%Z)
  ∧ _delete_event user_input init = (Returns no_id_message, init)
  ∧ no_id_message ≠ not_found_message 0.
Proof.
  cbv zeta. split_and!; [by vm_compute..|].
  intros H. symmetry in H. by apply messages_differ in H.
Qed.

End CalendarFacts.

(** ** The mailbox: reading one email *)

Module EmailFacts.
Import Email.

Lemma mark_read_idemp e : mark_read (mark_read e) = mark_read e.
Proof. done. Qed.

(** The text of an email does not show whether it was read. *)
Lemma format_mark_read e :
  _format_single_email (mark_read e) = _format_single_email e.
Proof. done. Qed.

Section Read.
Context {U : Unicode}.

Lemma read_emails_ids user_input mailbox :
  e_id <$> (_read_emails user_input mailbox).2 = e_id <$> mailbox.
Proof.
  unfold _read_emails. repeat case_match; try done. cbn [snd].
  match goal with H : _find_email_by_id _ _ = Some _ |- _ =>
    apply list_find_Some in H as (Hi & _ & _) end.
  rewrite list_fmap_insert. apply list_insert_id.
  by rewrite list_lookup_fmap, Hi.
Qed.

(** The ids in the mailbox are always 1, 2 and 3. *)
Lemma reachable_ids mailbox :
  reachable mailbox → e_id <$> mailbox = [1; 2; 3]%Z.
Proof.
  induction 1 as [|user_input mailbox _ IH]; [done|].
  by rewrite read_emails_ids.
Qed.

Lemma read_by_id user_input mailbox email_id email :
  reachable mailbox →
  _extract_email_id user_input = Returns (Some email_id) →
  email ∈ mailbox → e_id email = email_id →
  ∃ i, mailbox !! i = Some email
       ∧ _read_emails user_input mailbox
         = (Returns (_format_single_email (mark_read email)),
            <[ i := mark_read email ]> mailbox).
Proof.
  intros Hids%reachable_ids Hid Hin Heq.
  assert (Hnz : email_id ≠ 0%Z).
  { assert (Hmem : email_id ∈ e_id <$> mailbox)
      by (rewrite <- Heq; by apply list_elem_of_fmap_2).
    rewrite Hids, !elem_of_cons, elem_of_nil in Hmem. lia. }
  apply list_elem_of_lookup in Hin as [j Hj].
  unfold _read_emails. rewrite Hid, bool_decide_true by done.
  destruct (_find_email_by_id email_id mailbox) as [[i e]|] eqn:Hfind.
  - apply list_find_Some in Hfind as (Hi & He & _).
    assert (i = j) as ->.
    { eapply (NoDup_lookup (e_id <$> mailbox)).
      - rewrite Hids. by apply (bool_decide_unpack _); vm_compute.
      - rewrite list_lookup_fmap, Hi. cbn. by rewrite He.
      - rewrite list_lookup_fmap, Hj. cbn. by rewrite Heq. }
    assert (e = email) as -> by congruence.
    eauto.
  - apply list_find_None in Hfind. rewrite Forall_forall in Hfind.
    destruct (Hfind email); [by eapply list_elem_of_lookup_2|done].
Qed.

(** The text of one email, as the f-string of [_format_single_email]
    writes it: every field of the record but [read]. *)
Lemma format_single_email_text email :
  ∃ priority_icon,
    (e_priority email = u "urgent" → priority_icon = u "🔴 緊急")
    ∧ (e_priority email = u "high" → priority_icon = u "🟡 重要")
    ∧ (e_priority email ≠ u "urgent" → e_priority email ≠ u "high" →
       priority_icon = u "🟢 一般")
    ∧ _format_single_email email
      = u "📧 **郵件詳情**

📋 **主旨**: " ++ e_subject email ++ u "
📤 **寄件者**: " ++ e_from email ++ u "
📥 **收件者**: " ++ e_to email ++ u "
📅 **日期**: " ++ e_date email ++ u "
⚡ **優先級**: " ++ priority_icon ++ u "

📝 **內容**:
" ++ e_body email ++ u "

---
💡 **操作建議**: " ++ u "
• 回覆此郵件：「回覆郵件" ++ str_of_Z (e_id email) ++ u "」
• 標記為重要：「標記郵件" ++ str_of_Z (e_id email) ++ u "為重要」".
Proof.
  unfold _format_single_email. cbv zeta.
  set (priority_icon := if str_eqb _ _ then _ else _).
  exists priority_icon. split_and!.
  - intros Hp. unfold priority_icon.
    by rewrite (proj2 (str_eqb_true _ _) Hp).
  - intros Hp. unfold priority_icon. rewrite Hp.
    by rewrite (proj2 (str_eqb_false _ _)), (proj2 (str_eqb_true _ _)).
  - intros Hurgent Hhigh. unfold priority_icon.
    rewrite (proj2 (str_eqb_false _ _) Hurgent),
      (proj2 (str_eqb_false _ _) Hhigh).
    by case_match.
  - clearbody priority_icon. unfold nl. vm_compute. reflexivity.
Qed.

(** C7. For a mailbox the tool can hold and a request whose first
    integer, one that [int] accepts (at most 4300 digits), is the id of an
    entry, [_read_emails] returns the full
    formatted record of that entry (its subject, sender, recipient, date,
    priority, body and id, in the layout of the tool) and writes the
    mailbox back with the entry marked read: the entry keeps its place and
    every other field, the other entries are as they were.  A second read
    of the same id returns the same text and changes nothing: the entry is
    read already. *)
Theorem read_email_marks_read (user_input : str) (mailbox : list email)
    (email_id : Z) (email : email) :
  reachable mailbox →
  _extract_email_id user_input = Returns (Some email_id) →
  email ∈ mailbox → e_id email = email_id →
  let result := _read_emails user_input mailbox in
  let mailbox' := result.2 in
  result.1 = Returns (_format_single_email email)
  ∧ (∃ priority_icon,
       (e_priority email = u "urgent" → priority_icon = u "🔴 緊急")
       ∧ (e_priority email = u "high" → priority_icon = u "🟡 重要")
       ∧ (e_priority email ≠ u "urgent" → e_priority email ≠ u "high" →
          priority_icon = u "🟢 一般")
       ∧ result.1 = Returns (u "📧 **郵件詳情**

📋 **主旨**: " ++ e_subject email ++ u "
📤 **寄件者**: " ++ e_from email ++ u "
📥 **收件者**: " ++ e_to email ++ u "
📅 **日期**: " ++ e_date email ++ u "
⚡ **優先級**: " ++ priority_icon ++ u "

📝 **內容**:
" ++ e_body email ++ u "

---
💡 **操作建議**: " ++ u "
• 回覆此郵件：「回覆郵件" ++ str_of_Z (e_id email) ++ u "」
• 標記為重要：「標記郵件" ++ str_of_Z (e_id email) ++ u "為重要」"))
  ∧ length mailbox' = length mailbox
  ∧ (∃ i email',
       mailbox !! i = Some email ∧ mailbox' !! i = Some email'
       ∧ e_read email' = true
       ∧ e_id email' = e_id email ∧ e_from email' = e_from email
       ∧ e_to email' = e_to email ∧ e_subject email' = e_subject email
       ∧ e_body email' = e_body email ∧ e_date email' = e_date email
       ∧ e_priority email' = e_priority email
       ∧ ∀ j, j ≠ i → mailbox' !! j = mailbox !! j)
  ∧ _read_emails user_input mailbox' = result.
Proof.
  intros Hreach Hid Hin Heq. cbv zeta.
  destruct (read_by_id _ _ _ _ Hreach Hid Hin Heq) as (i & Hi & Hread).
  pose proof (reach_read user_input _ Hreach) as Hreach'.
  rewrite Hread in *. cbn [fst snd] in *.
  assert (Hi' : <[ i := mark_read email ]> mailbox !! i
                = Some (mark_read email)).
  { apply list_lookup_insert_eq. by eapply lookup_lt_Some. }
  split_and!.
  - by rewrite format_mark_read.
  - rewrite format_mark_read.
    destruct (format_single_email_text email)
      as (priority_icon & Hurgent & Hhigh & Hnormal & Htext).
    exists priority_icon. by rewrite <- Htext.
  - apply length_insert.
  - exists i, (mark_read email). split_and!; try done.
    intros j Hj. by apply list_lookup_insert_ne.
  - destruct (read_by_id user_input _ email_id (mark_read email) Hreach'
                Hid) as (i' & Hi2 & Hread2);
      [by eapply list_elem_of_lookup_2|done|].
    rewrite Hread2, mark_read_idemp. f_equal.
    by apply list_insert_id.
Qed.

End Read.

Lemma read_email_marks_read_witness :
  let first := _read_emails (u "查看郵件1") mock_emails in
  reachable mock_emails
  ∧ first.1 = Returns (u "📧 **郵件詳情**

📋 **主旨**: 週會議程確認
📤 **寄件者**: john.doe@company.com
📥 **收件者**: user@email.com
📅 **日期**: 2024-06-11
⚡ **優先級**: 🟢 一般

📝 **內容**:
請確認明天的週會議程，會議時間是上午10點。

---
💡 **操作建議**: " ++ u "
• 回覆此郵件：「回覆郵件1」
• 標記為重要：「標記郵件1為重要」")
  ∧ e_read <$> mock_emails = [false; true; false]
  ∧ e_read <$> first.2 = [true; true; false]
  ∧ _read_emails (u "查看郵件1") first.2 = first.
Proof.
  cbv zeta.
  pose proof (read_email_marks_read (u "查看郵件1") mock_emails 1
    {| e_id := 1; e_from := u "john.doe@company.com";
       e_to := u "user@email.com"; e_subject := u "週會議程確認";
       e_body := u "請確認明天的週會議程，會議時間是上午10點。";
       e_date := u "2024-06-11"; e_read := false;
       e_priority := u "normal" |}
    reach_init) as Hread.
  destruct Hread as (_ & _ & _ & _ & Hagain);
    [by vm_compute|by constructor|reflexivity|].
  split; [constructor|]. split; [by vm_compute|].
  split; [by vm_compute|]. split; [by vm_compute|exact Hagain].
Defined.

(** C7 as stated fails for an id written with more than 4300 digits.
    "查看郵件" followed by 4300 zeros and a 1 names the id 1, which the first
    email has; [int] refuses the 4301 digits, so [_read_emails] raises the
    [ValueError] instead of returning the record, and the email stays
    unread. *)
Lemma read_email_long_id_raises :
  let digits := replicate 4300 48 ++ u "1" in
  let user_input := u "查看郵件" ++ digits in
  Re.findall (Re.plus is_digit) user_input = [MStr digits]
  ∧ int_of_digits digits = 1%Z
  ∧ e_id <$> mock_emails = [1; 2; 3]%Z
  ∧ _read_emails user_input mock_emails
    = (Raises (ValueError (u "Exceeds the limit (4300 digits) for integer string conversion: value has 4301 digits; use sys.set_int_max_str_digits() to increase the limit")),
       mock_emails).
Proof. cbv zeta. split_and!; vm_compute; reflexivity. Qed.

End EmailFacts.

(** ** Further properties of the memory store *)

Module KeywordFacts.
Import Memory.

Section Keywords.
Context {U : Unicode}.

Lemma split_ws_words cur s w :
  Forall (λ c, isspace c = false) cur →
  w ∈ split_ws cur s →
  w ≠ [] ∧ Forall (λ c, isspace c = false) w.
Proof.
  revert cur. induction s as [|c s IH]; intros cur Hcur; cbn.
  - destruct cur as [|c0 cur]; [by intros ?%elem_of_nil|].
    intros ->%list_elem_of_singleton. split.
    + intros Hnil%(f_equal length). rewrite length_reverse in Hnil. cbn in Hnil. lia.
    + by apply Forall_reverse.
  - destruct (isspace c) eqn:Hc.
    + destruct cur as [|c0 cur]; [by apply (IH [])|].
      intros [->|Hw]%elem_of_cons; [|by apply (IH [])].
      split.
      * intros Hnil%(f_equal length). rewrite length_reverse in Hnil. cbn in Hnil. lia.
      * by apply Forall_reverse.
    + apply IH. by constructor.
Qed.

Lemma extract_keywords_length (text : str) :
  (length (_extract_keywords text) ≤ 10)%nat.
Proof. unfold _extract_keywords. cbv zeta. rewrite length_take. lia. Qed.

(** [_extract_keywords] returns at most ten words; each is longer than
    one character, is no stop word and has no white space in it. *)
Theorem extract_keywords_shape (text : str) :
  (length (_extract_keywords text) ≤ 10)%nat
  ∧ (∀ word, word ∈ _extract_keywords text →
       (2 ≤ length word)%nat
       ∧ (word ∉ stop_words)
       ∧ Forall (λ c, isspace c = false) word).
Proof.
  split; [apply extract_keywords_length|].
  unfold _extract_keywords. cbv zeta.
  intros word Hw%subseteq_take%list_elem_of_filter.
  destruct Hw as [[Hlen Hstop] Hsplit]. split_and!; [lia|done|].
  by eapply split_ws_words in Hsplit as [_ ?].
Qed.

Lemma first_category_in cs text :
  first_category cs text ∈ u "general" :: cs.*1.
Proof.
  induction cs as [|[c ks] cs IH]; cbn [first_category fmap list_fmap fst];
    [by left|].
  destruct (AgentCore.any_in ks text).
  - right. by left.
  - apply elem_of_cons in IH as [->|IH]; [by left|]. by do 2 right.
Qed.

Lemma first_category_none cs text :
  Forall (λ cat, AgentCore.any_in cat.2 text = false) cs →
  first_category cs text = u "general".
Proof.
  induction 1 as [|[c ks] cs Hks _ IH]; cbn [first_category]; [done|].
  cbn [snd] in Hks. by rewrite Hks.
Qed.

Lemma categorize_memory_in (user_input : str) :
  _categorize_memory user_input
    ∈ [u "weather"; u "schedule"; u "email"; u "personal"; u "work";
       u "general"].
Proof.
  unfold _categorize_memory.
  pose proof (first_category_in categories (lower user_input)) as Hin.
  cbn [categories fmap list_fmap fst] in Hin.
  rewrite !elem_of_cons in Hin. rewrite !elem_of_cons.
  tauto.
Qed.

(** [_categorize_memory] gives one of the six category names; [weather]
    whenever a weather word occurs in the input (in lower case), whatever
    else occurs; [general] when no word of any category occurs. *)
Theorem categorize_memory_label (user_input : str) :
  _categorize_memory user_input
    ∈ [u "weather"; u "schedule"; u "email"; u "personal"; u "work";
       u "general"]
  ∧ (AgentCore.has_keyword
       [u "天氣"; u "氣溫"; u "下雨"; u "晴天"; u "weather"] user_input →
     _categorize_memory user_input = u "weather")
  ∧ ((∀ cat, cat ∈ categories →
        ¬ AgentCore.has_keyword cat.2 user_input) →
     _categorize_memory user_input = u "general").
Proof.
  split_and!; [apply categorize_memory_in|unfold _categorize_memory..].
  - intros Hw%AgentCoreFacts.any_in_true. cbn [categories first_category].
    by rewrite Hw.
  - intros Hnone. apply first_category_none, Forall_forall.
    intros cat Hcat. apply not_true_iff_false.
    rewrite AgentCoreFacts.any_in_true. by apply Hnone.
Qed.

End Keywords.

Lemma categorize_memory_label_witness :
  _categorize_memory (u "明天的 Weather 會議") = u "weather"
  ∧ _categorize_memory (u "hello") = u "general".
Proof.
  split.
  - apply (proj1 (proj2 (categorize_memory_label _))).
    exists (u "weather"). split; [|by vm_compute].
    by apply (bool_decide_unpack _); vm_compute.
  - apply (proj2 (proj2 (categorize_memory_label _))).
    intros cat Hcat (k & Hk & Hin).
    assert (Hall : Forall
      (λ cat, AgentCore.any_in cat.2 (lower (u "hello")) = false) categories)
      by (repeat constructor).
    rewrite Forall_forall in Hall. specialize (Hall cat Hcat).
    rewrite AgentCoreFacts.any_in_false in Hall.
    rewrite (Hall k Hk) in Hin. done.
Defined.

Lemma extract_keywords_shape_witness :
  (length (_extract_keywords (u "The weather in Taipei is nice")) ≤ 10)%nat.
Proof.
  exact (proj1 (extract_keywords_shape (u "The weather in Taipei is nice"))).
Defined.

End KeywordFacts.

Module StoreFacts.
Import Memory.

Lemma slice_to_subseteq {A} (n : Z) (l : list A) : slice_to n l ⊆ l.
Proof. unfold slice_to. case_match; apply subseteq_take. Qed.

Lemma cleanup_memories_subseteq s :
  memories (_cleanup_memories s) ⊆ memories s.
Proof.
  unfold _cleanup_memories. case_match; [|done]. cbn.
  intros m Hm%slice_to_subseteq. by rewrite sort_desc_perm in Hm.
Qed.

Lemma cleanup_memories_rest s :
  user_preferences (_cleanup_memories s) = user_preferences s
  ∧ important_facts (_cleanup_memories s) = important_facts s.
Proof. unfold _cleanup_memories. by case_match. Qed.

(** [_cleanup_memories] does nothing the second time, for a capacity that
    is a count. *)
Theorem cleanup_memories_idempotent (s : store) :
  (0 ≤ max_memories s)%Z →
  _cleanup_memories (_cleanup_memories s) = _cleanup_memories s.
Proof.
  intros Hmax. apply MemoryFacts.cleanup_memories_keep.
  rewrite MemoryFacts.cleanup_memories_max.
  destruct (decide (max_memories s < Z.of_nat (length (memories s)))%Z).
  - rewrite MemoryFacts.cleanup_memories_cut by lia.
    rewrite length_take. lia.
  - rewrite MemoryFacts.cleanup_memories_keep by lia. lia.
Qed.

Lemma cleanup_memories_idempotent_witness :
  (0 ≤ max_memories full_store)%Z
  ∧ _cleanup_memories (_cleanup_memories full_store)
    = _cleanup_memories full_store.
Proof.
  split; [by vm_compute|].
  apply cleanup_memories_idempotent. by vm_compute.
Defined.

Lemma cleanup_memories_count s :
  (0 ≤ max_memories s)%Z →
  (Z.of_nat (length (memories (_cleanup_memories s))) ≤ max_memories s)%Z.
Proof.
  intros Hmax.
  destruct (decide (max_memories s < Z.of_nat (length (memories s)))%Z).
  - rewrite MemoryFacts.cleanup_memories_cut by lia.
    rewrite length_take. lia.
  - rewrite MemoryFacts.cleanup_memories_keep by lia. lia.
Qed.

Section Add.
Context {U : Unicode}.

Lemma add_memory_fields now fact_now user_input assistant_response
    importance s :
  let s' := add_memory now fact_now user_input assistant_response
              importance s in
  max_memories s' = max_memories s
  ∧ memories s' ⊆ memories s
                   ++ [new_memory now user_input assistant_response importance]
  ∧ user_preferences s'
    = _extract_user_preferences user_input (user_preferences s)
  ∧ important_facts s'
    = _extract_important_facts fact_now user_input assistant_response
        (important_facts s).
Proof.
  cbv zeta. unfold add_memory. cbv zeta. split_and!.
  - by rewrite MemoryFacts.cleanup_memories_max.
  - apply cleanup_memories_subseteq.
  - by rewrite (proj1 (cleanup_memories_rest _)).
  - by rewrite (proj2 (cleanup_memories_rest _)).
Qed.

Lemma preferences_step_grow (patterns : list (regex * str))
    (user_input : str) (prefs : gmap str (list rematch)) :
  let prefs' :=
    fold_left
      (λ prefs '(pattern, pref_type),
         match Re.findall pattern user_input with
         | [] => prefs
         | matches =>
             <[ pref_type := default [] (prefs !! pref_type) ++ matches ]>
               prefs
         end)
      patterns prefs in
  (∀ k l, prefs !! k = Some l → ∃ l', prefs' !! k = Some (l ++ l'))
  ∧ (∀ k, is_Some (prefs' !! k) →
       is_Some (prefs !! k) ∨ k ∈ patterns.*2).
Proof.
  cbv zeta. revert prefs.
  induction patterns as [|[pattern pref_type] patterns IH]; intros prefs.
  - split.
    + intros k l Hk. exists []. by rewrite app_nil_r.
    + auto.
  - cbn [fold_left].
    set (prefs1 := match Re.findall pattern user_input with
                   | [] => prefs | _ => _ end).
    destruct (IH prefs1) as [IHgrow IHkeys].
    assert (Hstep : (∀ k l, prefs !! k = Some l →
                            ∃ l', prefs1 !! k = Some (l ++ l'))
                    ∧ (∀ k, is_Some (prefs1 !! k) →
                            is_Some (prefs !! k) ∨ k = pref_type)).
    { unfold prefs1. destruct (Re.findall pattern user_input) as [|m ms].
      - split; [|auto]. intros k l Hk. exists []. by rewrite app_nil_r.
      - split.
        + intros k l Hk. destruct (decide (pref_type = k)) as [->|Hne].
          * rewrite lookup_insert_eq, Hk. cbn. eauto.
          * rewrite lookup_insert_ne by done. exists [].
            by rewrite app_nil_r.
        + intros k. destruct (decide (pref_type = k)) as [->|Hne]; [auto|].
          rewrite lookup_insert_ne by done. auto. }
    destruct Hstep as [Hgrow Hkeys]. split.
    + intros k l Hk. destruct (Hgrow k l Hk) as [l1 Hl1].
      destruct (IHgrow k _ Hl1) as [l2 Hl2]. exists (l1 ++ l2).
      by rewrite app_assoc.
    + intros k Hk. cbn [fmap list_fmap snd].
      destruct (IHkeys k Hk) as [Hk1|Hk1].
      * destruct (Hkeys k Hk1) as [?| ->]; [by left|]. right. by left.
      * right. by right.
Qed.

(** [add_memory] only adds to the user preferences: what was recorded
    under a kind stays, in its order, with the new matches behind it; and
    a kind it adds is one of the six the patterns name. *)
Theorem add_memory_preferences_grow (now : str) (fact_now : nat → str)
    (user_input assistant_response : str) (importance : Q) (s : store) :
  let s' := add_memory now fact_now user_input assistant_response
              importance s in
  (∀ kind values, user_preferences s !! kind = Some values →
     ∃ more, user_preferences s' !! kind = Some (values ++ more))
  ∧ (∀ kind, is_Some (user_preferences s' !! kind) →
       is_Some (user_preferences s !! kind)
       ∨ kind ∈ [u "likes"; u "dislikes"; u "attributes"; u "location";
                 u "job"; u "name"]).
Proof.
  cbv zeta.
  destruct (add_memory_fields now fact_now user_input assistant_response
              importance s) as (_ & _ & -> & _).
  apply (preferences_step_grow preference_patterns).
Qed.

Lemma facts_insert_new (ts user_input : str) (ms : list rematch)
    (P : str → fact → Prop) (facts : gmap str fact) :
  (∀ m, P (ts ++ u "_" ++ fmt_match m)
          {| fact_content := m; fact_timestamp := ts;
             fact_context := take 100 user_input |}) →
  (∀ k f, facts !! k = Some f → P k f) →
  ∀ k f,
    fold_left
      (λ facts m,
         <[ ts ++ u "_" ++ fmt_match m :=
              {| fact_content := m; fact_timestamp := ts;
                 fact_context := take 100 user_input |} ]> facts)
      ms facts !! k = Some f →
    P k f.
Proof.
  intros Hnew. revert facts. induction ms as [|m ms IH]; intros facts Hold;
    cbn [fold_left]; [done|].
  apply IH. intros k f.
  destruct (decide (ts ++ u "_" ++ fmt_match m = k)) as [<-|Hne].
  - rewrite lookup_insert_eq. intros [= <-]. apply Hnew.
  - rewrite lookup_insert_ne by done. apply Hold.
Qed.

Lemma facts_insert_keep (ts user_input : str) (ms : list rematch)
    (facts : gmap str fact) (k : str) :
  is_Some (facts !! k) →
  is_Some
    (fold_left
       (λ facts m,
          <[ ts ++ u "_" ++ fmt_match m :=
               {| fact_content := m; fact_timestamp := ts;
                  fact_context := take 100 user_input |} ]> facts)
       ms facts !! k).
Proof.
  revert facts. induction ms as [|m ms IH]; intros facts Hk;
    cbn [fold_left]; [done|].
  apply IH. destruct (decide (ts ++ u "_" ++ fmt_match m = k)) as [<-|Hne].
  - rewrite lookup_insert_eq. eauto.
  - by rewrite lookup_insert_ne.
Qed.

(** [add_memory] removes no important fact.  A fact that is new or was
    overwritten has the key [timestamp_match], for a clock reading taken in
    this call, and carries the first 100 characters of the input as its
    context. *)
Theorem add_memory_facts (now : str) (fact_now : nat → str)
    (user_input assistant_response : str) (importance : Q) (s : store) :
  let s' := add_memory now fact_now user_input assistant_response
              importance s in
  (∀ key, is_Some (important_facts s !! key) →
          is_Some (important_facts s' !! key))
  ∧ (∀ key f, important_facts s' !! key = Some f →
       important_facts s !! key = Some f
       ∨ ∃ i, fact_timestamp f = fact_now i
              ∧ key = fact_now i ++ u "_" ++ fmt_match (fact_content f)
              ∧ fact_context f = take 100 user_input).
Proof.
  cbv zeta.
  destruct (add_memory_fields now fact_now user_input assistant_response
              importance s) as (_ & _ & _ & ->).
  unfold _extract_important_facts. cbv zeta.
  generalize (user_input ++ u " " ++ assistant_response). intros text.
  generalize (imap pair fact_patterns). intros ps.
  set (P := λ (key : str) (f : fact),
         important_facts s !! key = Some f
         ∨ ∃ i, fact_timestamp f = fact_now i
                ∧ key = fact_now i ++ u "_" ++ fmt_match (fact_content f)
                ∧ fact_context f = take 100 user_input).
  assert (Hall : ∀ facts : gmap str fact,
    (∀ key, is_Some (important_facts s !! key) → is_Some (facts !! key)) →
    (∀ key f, facts !! key = Some f → P key f) →
    let facts' :=
      fold_left
        (λ facts '(i, pattern),
           let timestamp := fact_now i in
           fold_left
             (λ facts m,
                <[ timestamp ++ u "_" ++ fmt_match m :=
                     {| fact_content := m; fact_timestamp := timestamp;
                        fact_context := take 100 user_input |} ]> facts)
             (Re.findall pattern text) facts)
        ps facts in
    (∀ key, is_Some (important_facts s !! key) → is_Some (facts' !! key))
    ∧ (∀ key f, facts' !! key = Some f → P key f)).
  { induction ps as [|[i pattern] ps IH]; intros facts Hkeep Hnew;
      cbn [fold_left]; [done|].
    apply IH.
    - intros key Hkey. by apply facts_insert_keep, Hkeep.
    - apply facts_insert_new; [|done].
      intros m. right. exists i. done. }
  apply Hall; [done|]. intros key f Hf. by left.
Qed.

(** In a store the class built, every entry has at most ten keywords and
    one of the six category names, and every fact is a string; with a
    capacity that is a count, there are never more entries than the
    capacity. *)
Theorem built_store_invariant (s : store) :
  built s →
  (∀ m, m ∈ memories s →
     (length (keywords m) ≤ 10)%nat
     ∧ category m ∈ [u "weather"; u "schedule"; u "email"; u "personal";
                     u "work"; u "general"])
  ∧ facts_are_strings (important_facts s)
  ∧ ((0 ≤ max_memories s)%Z →
     (Z.of_nat (length (memories s)) ≤ max_memories s)%Z).
Proof.
  intros Hs. split_and!.
  - induction Hs as [mm|now fn ui ar imp s _ IH|s _ IH]; intros m Hm.
    + by apply elem_of_nil in Hm.
    + destruct (add_memory_fields now fn ui ar imp s) as (_ & Hsub & _).
      apply Hsub, elem_of_app in Hm as [Hm|Hm%list_elem_of_singleton];
        [by apply IH|].
      subst m. cbn [new_memory keywords category]. split.
      * apply KeywordFacts.extract_keywords_length.
      * apply KeywordFacts.categorize_memory_in.
    + by apply elem_of_nil in Hm.
  - by apply PersistFacts.built_facts_strings.
  - induction Hs as [mm|now fn ui ar imp s _ IH|s _ IH].
    + done.
    + unfold add_memory. cbv zeta. rewrite MemoryFacts.cleanup_memories_max.
      apply cleanup_memories_count.
    + done.
Qed.

End Add.

Lemma built_store_invariant_witness :
  built example_store
  ∧ (Z.of_nat (length (memories example_store))
     ≤ max_memories example_store)%Z.
Proof.
  assert (Hb : built example_store) by repeat constructor.
  split; [exact Hb|].
  apply (built_store_invariant example_store Hb). by vm_compute.
Defined.

Lemma add_memory_preferences_grow_witness :
  ∃ values more,
    user_preferences named_store !! u "attributes" = Some values
    ∧ user_preferences example_store !! u "attributes"
      = Some (values ++ more).
Proof.
  assert (Hsome : is_Some (user_preferences named_store !! u "attributes")).
  { unfold is_Some. vm_compute. eexists. reflexivity. }
  destruct Hsome as [values Hvalues].
  destruct (add_memory_preferences_grow (u "2024-06-11T10:05:00") clock0
              (u "明天 10:30 有產品會議 in Taipei") (u "OK, meeting noted") 0.9
              named_store) as [Hgrow _].
  destruct (Hgrow _ _ Hvalues) as [more Hmore].
  exists values, more. split; [exact Hvalues|exact Hmore].
Defined.

Lemma add_memory_facts_witness :
  important_facts named_store = ∅
  ∧ map_Forall
      (λ _ f, fact_context f = take 100 (u "明天 10:30 有產品會議 in Taipei"))
      (important_facts example_store).
Proof.
  assert (Hempty : important_facts named_store = ∅) by by vm_compute.
  split; [exact Hempty|]. intros key f Hf.
  destruct (add_memory_facts (u "2024-06-11T10:05:00") clock0
              (u "明天 10:30 有產品會議 in Taipei") (u "OK, meeting noted") 0.9
              named_store) as [_ Hnew].
  destruct (Hnew key f Hf) as [Hold|(i & _ & _ & Hcontext)];
    [|exact Hcontext].
  rewrite Hempty, lookup_empty in Hold. discriminate Hold.
Defined.

End StoreFacts.

Module RetrievalFacts.
Import Memory.

Lemma slice_to_nil {A} (n : Z) : slice_to n (@nil A) = [].
Proof. unfold slice_to. case_match; apply take_nil. Qed.

Section Retrieval.
Context {U : Unicode}.

Lemma get_relevant_memories_ranked_eq query limit s :
  get_relevant_memories query limit s
  = map (λ item, format_memory item.1) (ranked query limit s).
Proof.
  unfold get_relevant_memories. destruct (memories s) eqn:Hm; [|done].
  unfold ranked, scored. rewrite Hm. cbn -[slice_to].
  by rewrite slice_to_nil.
Qed.

(** A query without keywords (empty, or only stop words and single
    characters) finds nothing, whatever the store and the limit. *)
Theorem get_relevant_memories_no_keywords (query : str) (limit : Z)
    (s : store) :
  _extract_keywords query = [] →
  get_relevant_memories query limit s = [].
Proof.
  intros Hq. rewrite get_relevant_memories_ranked_eq.
  unfold ranked, scored. cbv zeta. rewrite Hq.
  assert (Hnone : omap (λ m, pair m <$> relevance_score (list_to_set []) m)
                    (memories s) = []).
  { destruct (omap _ (memories s)) as [|item items] eqn:Hitems; [done|].
    assert (Hin : item ∈ item :: items) by by left.
    rewrite <- Hitems in Hin.
    apply list_elem_of_omap in Hin as (m & _ & Hscore).
    rewrite RelevanceFacts.relevance_score_None in Hscore; [done|].
    apply intersection_empty_l_L. }
  rewrite Hnone. cbn -[slice_to]. by rewrite slice_to_nil.
Qed.

(** How many entries [get_relevant_memories] returns, of the [n] stored
    entries that share a keyword with the query: the first [limit] for a
    limit that is a count, and all but the last [-limit] for a negative
    limit. *)
Theorem get_relevant_memories_count (query : str) (limit : Z) (s : store) :
  let n := length (scored query s) in
  ((0 ≤ limit)%Z →
     length (get_relevant_memories query limit s)
     = Nat.min (Z.to_nat limit) n)
  ∧ ((limit < 0)%Z →
     length (get_relevant_memories query limit s)
     = (n - Z.to_nat (- limit))%nat).
Proof.
  cbv zeta. rewrite get_relevant_memories_ranked_eq, length_map.
  unfold ranked. split; intros Hlimit.
  - rewrite slice_to_nonneg by done.
    by rewrite length_take, sort_desc_length.
  - rewrite slice_to_negative by done. by rewrite sort_desc_length.
Qed.


End Retrieval.

Lemma get_relevant_memories_no_keywords_witness :
  _extract_keywords (u "的 a !") = []
  ∧ get_relevant_memories (u "的 a !") 5 example_store = [].
Proof.
  assert (Hq : _extract_keywords (u "的 a !") = []) by by vm_compute.
  split; [exact Hq|]. by apply get_relevant_memories_no_keywords.
Defined.

Lemma get_relevant_memories_count_witness :
  (-1 < 0)%Z
  ∧ length (get_relevant_memories (u "meeting 小明") (-1) example_store)
    = 0%nat
  ∧ length (get_relevant_memories (u "meeting 小明") 1 example_store)
    = 1%nat.
Proof.
  destruct (get_relevant_memories_count (u "meeting 小明") (-1)
              example_store) as [_ Hneg].
  destruct (get_relevant_memories_count (u "meeting 小明") 1
              example_store) as [Hpos _].
  split; [done|]. split.
  - rewrite Hneg by done. by vm_compute.
  - rewrite Hpos by done. by vm_compute.
Defined.


End RetrievalFacts.

(** ** Finding the first integer in a text *)

Module IdFacts.

Section Ids.
Context {U : Unicode}.

Lemma rep_zero_some {A} (p : N → bool) hi s (k : str → option A) :
  (∀ s', is_Some (k s')) → is_Some (Re.rep p 0 hi s k).
Proof.
  intros Hk. revert hi. induction s as [|c s IH]; intros hi; cbn; [done|].
  destruct (p c && _); [|done].
  destruct (Re.rep p 0 (pred <$> hi) s k); eauto.
Qed.

Lemma match_digits_here (c : N) (s : str) :
  if is_digit c then is_Some (Re.match_here (Re.plus is_digit) (c :: s))
  else Re.match_here (Re.plus is_digit) (c :: s) = None.
Proof.
  unfold Re.match_here, Re.plus. cbn [Re.run Re.rep].
  destruct (is_digit c); [|done]. cbn.
  pose proof (rep_zero_some is_digit None s
                (λ s', Some (s', @nil str))) as [x Hx]; [by eauto|].
  rewrite Hx. eauto.
Qed.

Lemma scan_digits_none (s : str) :
  Forall (λ c, is_digit c = false) s →
  ∀ skip, Re.scan (Re.plus is_digit) skip s = [].
Proof.
  induction 1 as [|c s Hc _ IH]; intros [|skip]; cbn [Re.scan]; try done.
  pose proof (match_digits_here c s) as Hm.
  rewrite Hc in Hm. rewrite Hm. apply IH.
Qed.

Lemma scan_digits_nil (s : str) :
  Re.scan (Re.plus is_digit) 0 s = [] → Forall (λ c, is_digit c = false) s.
Proof.
  induction s as [|c s IH]; [constructor|]. cbn [Re.scan].
  pose proof (match_digits_here c s) as Hm.
  destruct (is_digit c) eqn:Hc.
  - destruct Hm as [[rest caps] ->]. done.
  - rewrite Hm. intros Hs. constructor; [done|]. by apply IH.
Qed.

Lemma findall_digits_str (s : str) :
  Forall (λ m, ∃ digits, m = MStr digits) (Re.findall (Re.plus is_digit) s).
Proof.
  unfold Re.findall. generalize 0%nat.
  induction s as [|c s IH]; intros [|skip]; cbn [Re.scan];
    repeat case_match; repeat constructor; eauto.
Qed.

(** [_extract_event_id] and [_extract_email_id] find no id exactly in the
    texts without a decimal digit. *)
Theorem extract_id_none_iff (text : str) :
  (Calendar._extract_event_id text = Returns None
   ↔ Forall (λ c, is_digit c = false) text)
  ∧ (Email._extract_email_id text = Returns None
     ↔ Forall (λ c, is_digit c = false) text).
Proof.
  assert (Hiff : match Re.findall (Re.plus is_digit) text with
                 | MStr digits :: _ =>
                     match int digits with
                     | Returns n => Returns (Some n)
                     | Raises e => Raises e
                     end
                 | _ => Returns None
                 end = Returns None
                 ↔ Forall (λ c, is_digit c = false) text).
  { split.
    - intros Hnone. apply scan_digits_nil.
      pose proof (findall_digits_str text) as Hstr.
      unfold Re.findall in *.
      destruct (Re.scan _ 0 text) as [|m ms]; [done|].
      apply Forall_cons in Hstr as [[digits ->] _].
      by destruct (int digits).
    - intros Hnone. unfold Re.findall. by rewrite scan_digits_none. }
  done.
Qed.

End Ids.

Lemma extract_id_none_iff_witness :
  Calendar._extract_event_id (u "刪除事件") = Returns None
  ∧ Email._extract_email_id (u "reply") = Returns None.
Proof.
  split.
  - apply (proj1 (extract_id_none_iff _)). vm_compute. repeat constructor.
  - apply (proj2 (extract_id_none_iff _)). vm_compute. repeat constructor.
Defined.

End IdFacts.

(** ** Further properties of the calendar tool *)

Module CalendarMore.
Import Calendar.

Lemma filter_delete_unique {A B} `{EqDecision B} (f : A → B) (l : list A)
    (i : nat) (e : A) :
  NoDup (f <$> l) → l !! i = Some e →
  filter (λ x, f x ≠ f e) l = delete i l.
Proof.
  revert i. induction l as [|x l IH]; intros i Hnd Hi; [done|].
  rewrite fmap_cons in Hnd. apply NoDup_cons in Hnd as [Hx Hnd].
  destruct i as [|i]; cbn in Hi.
  - injection Hi as ->. rewrite filter_cons_False by (intros H; by apply H).
    cbn. clear IH Hnd. induction l as [|y l IH]; [done|].
    rewrite fmap_cons, not_elem_of_cons in Hx. destruct Hx as [Hne Hx].
    rewrite filter_cons_True by done. f_equal. by apply IH.
  - assert (f x ≠ f e).
    { intros Heq. apply Hx. rewrite Heq.
      apply list_elem_of_fmap_2. by eapply list_elem_of_lookup_2. }
    rewrite filter_cons_True by done. cbn. f_equal. by apply IH.
Qed.

Section Delete.
Context {U : Unicode}.

(** Deleting an event by its id, when the ids in the calendar are
    different from each other: the answer names the deleted event; the
    other events stay, in their order; the id counter is left as it is; a
    second request for the same id finds nothing and changes nothing. *)
Theorem delete_event_once (user_input : str) (t : tool) (event_id : Z)
    (e : event) :
  _extract_event_id user_input = Returns (Some event_id) →
  event_id ≠ 0%Z →
  NoDup (ev_id <$> events t) →
  e ∈ events t → ev_id e = event_id →
  let t' := (_delete_event user_input t).2 in
  (_delete_event user_input t).1 = Returns (deleted_message e)
  ∧ events t' = filter (λ e', ev_id e' ≠ event_id) (events t)
  ∧ S (length (events t')) = length (events t)
  ∧ event_id_counter t' = event_id_counter t
  ∧ _delete_event user_input t'
    = (Returns (not_found_message event_id), t').
Proof.
  intros Hid Hnz Hnd Hin Heq. cbv zeta.
  assert (Hrun : _delete_event user_input t
    = (Returns (deleted_message e),
       {| events := filter (λ e', ev_id e' ≠ event_id) (events t);
          event_id_counter := event_id_counter t |})
      ∧ S (length (filter (λ e', ev_id e' ≠ event_id) (events t)))
        = length (events t)).
  { unfold _delete_event. rewrite Hid, bool_decide_true by done.
    destruct (list_find _ _) as [[i e0]|] eqn:Hfind.
    - apply list_find_Some in Hfind as (Hi & He0 & _).
      assert (e0 = e) as ->.
      { apply list_elem_of_lookup in Hin as [j Hj].
        assert (i = j) as ->; [|congruence].
        eapply (NoDup_lookup (ev_id <$> events t)); [done|..].
        - rewrite list_lookup_fmap, Hi. cbn. by rewrite He0.
        - rewrite list_lookup_fmap, Hj. cbn. by rewrite Heq. }
      assert (Hdel : filter (λ e', ev_id e' ≠ event_id) (events t)
                     = delete i (events t)).
      { rewrite <- Heq. by apply filter_delete_unique. }
      rewrite Hdel. split; [done|].
      rewrite length_delete by eauto. apply lookup_lt_Some in Hi. lia.
    - apply list_find_None in Hfind. rewrite Forall_forall in Hfind.
      by destruct (Hfind e Hin). }
  destruct Hrun as [-> Hlen]. cbn [fst snd events event_id_counter].
  split_and!; try done.
  apply CalendarFacts.delete_event_not_found; [done..|].
  cbn [events]. intros e' He'%list_elem_of_filter. tauto.
Qed.

(** The intent of a calendar request: one of five names; [add] as soon
    as an add word occurs (so also for a request to delete or to view a
    "會議"); [delete] only without add and view words; [help] without any
    word of the four sets. *)
Theorem detect_schedule_intent_order (user_input : str) :
  _detect_schedule_intent user_input
    ∈ [u "add"; u "view"; u "delete"; u "update"; u "help"]
  ∧ (AgentCore.has_keyword add_keywords user_input →
     _detect_schedule_intent user_input = u "add")
  ∧ (_detect_schedule_intent user_input = u "delete" →
     ¬ AgentCore.has_keyword add_keywords user_input
     ∧ ¬ AgentCore.has_keyword view_keywords user_input
     ∧ AgentCore.has_keyword delete_keywords user_input)
  ∧ (¬ AgentCore.has_keyword add_keywords user_input →
     ¬ AgentCore.has_keyword view_keywords user_input →
     ¬ AgentCore.has_keyword delete_keywords user_input →
     ¬ AgentCore.has_keyword update_keywords user_input →
     _detect_schedule_intent user_input = u "help").
Proof.
  unfold AgentCore.has_keyword. rewrite <- !AgentCoreFacts.any_in_true.
  unfold _detect_schedule_intent. cbv zeta.
  destruct (AgentCore.any_in add_keywords _);
    [|destruct (AgentCore.any_in view_keywords _);
      [|destruct (AgentCore.any_in delete_keywords _);
        [|destruct (AgentCore.any_in update_keywords _)]]];
    (split_and!;
     [rewrite !elem_of_cons; tauto
     |done
     |try (by intros Heq; vm_compute in Heq); by auto
     |try done; tauto]).
Qed.

End Delete.

Lemma delete_event_once_witness :
  let e := {| ev_id := 1; ev_title := u "產品會議"; ev_date := u "2024-06-12";
              ev_time := MStr (u "10"); ev_duration := u "1小時";
              ev_location := []; ev_description := [];
              ev_created_at := u "2024-06-11T10:00:00";
              ev_priority := u "normal" |} in
  let t := {| events := [e]; event_id_counter := 2 |} in
  (_delete_event (u "delete 1") t).1 = Returns (deleted_message e)
  ∧ event_id_counter (_delete_event (u "delete 1") t).2 = 2%Z.
Proof.
  cbv zeta.
  match goal with
  | |- (_delete_event ?i ?t).1 = Returns (deleted_message ?e) ∧ _ =>
    destruct (delete_event_once i t 1 e) as (Hm & _ & _ & Hc & _) end;
    [by vm_compute|done|by apply (bool_decide_unpack _); vm_compute
    |by left|done|].
  split; [exact Hm|exact Hc].
Defined.

Lemma detect_schedule_intent_order_witness :
  _detect_schedule_intent (u "取消會議1") = u "add"
  ∧ _detect_schedule_intent (u "hello") = u "help".
Proof.
  split.
  - apply (proj1 (proj2 (detect_schedule_intent_order _))).
    exists (u "會議"). split; [|by vm_compute].
    by apply (bool_decide_unpack _); vm_compute.
  - apply (proj2 (proj2 (proj2 (detect_schedule_intent_order _))));
      unfold AgentCore.has_keyword; rewrite <- AgentCoreFacts.any_in_true;
      by vm_compute.
Defined.

End CalendarMore.

(** ** Further properties of the mailbox *)

Module EmailMore.
Import Email.

Section Read.
Context {U : Unicode}.

Lemma read_emails_cases user_input mailbox :
  (_read_emails user_input mailbox).2 = mailbox
  ∨ ∃ i email, mailbox !! i = Some email
               ∧ _extract_email_id user_input = Returns (Some (e_id email))
               ∧ (_read_emails user_input mailbox).2
                 = <[ i := mark_read email ]> mailbox.
Proof.
  unfold _read_emails.
  destruct (_extract_email_id user_input) as [[email_id|]|e];
    [|by left..].
  case_bool_decide; [|by left].
  destruct (_find_email_by_id email_id mailbox) as [[i email]|] eqn:Hfind;
    [|by left].
  apply list_find_Some in Hfind as (Hi & <- & _).
  right. exists i, email. done.
Qed.

(** Whatever the request, [_read_emails] keeps the number and the order of
    the emails; an email is afterwards as it was or as it was with [read]
    set, so no other field changes and a read email stays read; and at most
    one email changes. *)
Theorem read_emails_frame (user_input : str) (mailbox : list email) :
  let mailbox' := (_read_emails user_input mailbox).2 in
  length mailbox' = length mailbox
  ∧ (∀ j, mailbox' !! j = mailbox !! j
          ∨ mailbox' !! j = mark_read <$> mailbox !! j)
  ∧ (∀ j email email',
       mailbox !! j = Some email → mailbox' !! j = Some email' →
       e_read email = true → email' = email)
  ∧ (∀ j k, mailbox' !! j ≠ mailbox !! j → mailbox' !! k ≠ mailbox !! k →
            j = k).
Proof.
  cbv zeta.
  destruct (read_emails_cases user_input mailbox)
    as [->|(i & email & Hi & _ & ->)].
  - split_and!; [done|by left|congruence|done].
  - assert (Hlt : (i < length mailbox)%nat) by by eapply lookup_lt_Some.
    split_and!.
    + apply length_insert.
    + intros j. destruct (decide (i = j)) as [<-|Hne].
      * right. by rewrite list_lookup_insert_eq, Hi.
      * left. by apply list_lookup_insert_ne.
    + intros j e e' Hj Hj' Hread. destruct (decide (i = j)) as [<-|Hne].
      * rewrite list_lookup_insert_eq in Hj' by done.
        assert (e = email) as -> by congruence.
        injection Hj' as <-. by destruct email; cbn in *; subst.
      * rewrite list_lookup_insert_ne in Hj' by done. congruence.
    + intros j k Hj Hk.
      destruct (decide (i = j)) as [<-|Hnj];
        [|by rewrite list_lookup_insert_ne in Hj].
      destruct (decide (i = k)) as [<-|Hnk];
        [done|by rewrite list_lookup_insert_ne in Hk].
Qed.

(** A request that names no email of the mailbox (no integer, one that
    is no id in it, or one [int] refuses) leaves the mailbox as it is; for
    an integer other than 0 the answer is the not-found message; and where
    [int] refuses the digits, more than 4300 of them, [_read_emails] raises
    that [ValueError] instead of answering. *)
Theorem read_emails_no_entry (user_input : str) (mailbox : list email) :
  (∀ email, email ∈ mailbox →
            _extract_email_id user_input ≠ Returns (Some (e_id email))) →
  (_read_emails user_input mailbox).2 = mailbox
  ∧ (∀ email_id, _extract_email_id user_input = Returns (Some email_id) →
       email_id ≠ 0%Z →
       (_read_emails user_input mailbox).1
       = Returns (not_found_message email_id))
  ∧ (∀ e, _extract_email_id user_input = Raises e →
       (_read_emails user_input mailbox).1 = Raises e).
Proof.
  intros Hnone. split_and!.
  - destruct (read_emails_cases user_input mailbox)
      as [->|(i & email & Hi & Hid & _)]; [done|].
    destruct (Hnone email); [by eapply list_elem_of_lookup_2|done].
  - intros email_id Hid Hnz. unfold _read_emails.
    rewrite Hid, bool_decide_true by done.
    destruct (_find_email_by_id email_id mailbox) as [[i email]|] eqn:Hfind;
      [|done].
    apply list_find_Some in Hfind as (Hi & He & _).
    destruct (Hnone email); [by eapply list_elem_of_lookup_2|].
    by rewrite Hid, He.
  - intros e Hid. unfold _read_emails. by rewrite Hid.
Qed.

End Read.

Lemma read_emails_no_entry_witness :
  let long_id := u "查看郵件" ++ replicate 4301 48 in
  (_read_emails (u "查看郵件9") mock_emails).2 = mock_emails
  ∧ (_read_emails (u "查看郵件9") mock_emails).1
    = Returns (not_found_message 9)
  ∧ (_read_emails long_id mock_emails).2 = mock_emails
  ∧ (_read_emails long_id mock_emails).1
    = Raises (ValueError (u "Exceeds the limit (4300 digits) for integer string conversion: value has 4301 digits; use sys.set_int_max_str_digits() to increase the limit")).
Proof.
  cbv zeta.
  assert (Hid : _extract_email_id (u "查看郵件9") = Returns (Some 9%Z))
    by by vm_compute.
  destruct (read_emails_no_entry (u "查看郵件9") mock_emails)
    as (Hsame & Hmsg & _).
  { rewrite Hid. intros email Hin. unfold mock_emails in Hin.
    rewrite !elem_of_cons, elem_of_nil in Hin.
    destruct Hin as [->|[->|[->|[]]]]; by intros [=]. }
  assert (Hlong : _extract_email_id (u "查看郵件" ++ replicate 4301 48)
            = Raises (ValueError (u "Exceeds the limit (4300 digits) for integer string conversion: value has 4301 digits; use sys.set_int_max_str_digits() to increase the limit")))
    by (vm_compute; reflexivity).
  destruct (read_emails_no_entry (u "查看郵件" ++ replicate 4301 48)
              mock_emails) as (Hsame' & _ & Hraise).
  { rewrite Hlong. intros email _ [=]. }
  split; [exact Hsame|]. split; [by apply Hmsg|].
  split; [exact Hsame'|]. by apply Hraise.
Defined.

Lemma read_emails_frame_witness :
  length (_read_emails (u "查看郵件1") mock_emails).2 = length mock_emails.
Proof.
  exact (proj1 (read_emails_frame (u "查看郵件1") mock_emails)).
Defined.

End EmailMore.

(** ** Further properties of request processing *)

Module RequestFacts.
Import AgentCore.

Section Requests.
Context {U : Unicode} (env : collaborators).

Lemma lstrip_nil (s : str) :
  lstrip s = [] ↔ Forall (λ c, isspace c = true) s.
Proof.
  induction s as [|c s IH]; cbn.
  - split; [constructor|done].
  - destruct (isspace c) eqn:Hc.
    + rewrite IH, Forall_cons. tauto.
    + split; [done|]. intros [Hc' _]%Forall_cons. congruence.
Qed.

Lemma lstrip_head (s : str) :
  match lstrip s with
  | [] => True
  | c :: _ => isspace c = false
  end.
Proof.
  induction s as [|c s IH]; cbn; [done|].
  by destruct (isspace c) eqn:Hc.
Qed.

Lemma strip_nil (s : str) :
  strip s = [] ↔ Forall (λ c, isspace c = true) s.
Proof.
  unfold strip. split.
  - intros Hnil%(f_equal reverse). rewrite reverse_involutive in Hnil.
    cbn in Hnil. apply lstrip_nil, Forall_reverse in Hnil.
    rewrite reverse_involutive in Hnil.
    pose proof (lstrip_head s) as Hhead.
    destruct (lstrip s) as [|c r] eqn:Hs; [by apply lstrip_nil|].
    apply Forall_cons in Hnil as [Hc _]. congruence.
  - intros Hs%lstrip_nil. by rewrite Hs.
Qed.

(** An input of white space only (the empty one too) is answered with the
    fixed prompt, without a tool call; any other input goes through
    classification, dispatch and the text-generation service. *)
Theorem process_request_blank (now user_input : str) (memories : list str)
    (chat_history : list chat_message) :
  (Forall (λ c, isspace c = true) user_input →
     process_request env now user_input memories chat_history
     = (u "請告訴我您需要什麼幫助 😊", []))
  ∧ (¬ Forall (λ c, isspace c = true) user_input →
     let it := _detect_intent user_input in
     let context := assemble_context env now it user_input chat_history in
     process_request env now user_input memories chat_history
     = (_generate_response env user_input context.1 memories, context.2)).
Proof.
  unfold process_request. split.
  - intros Hs%strip_nil. by rewrite Hs.
  - rewrite <- strip_nil. cbv zeta.
    destruct (strip user_input); [done|]. intros _.
    by destruct (assemble_context _ _ _ _ _).
Qed.

(** [_use_tool] never fails: a tool that does not exist gives the
    not-configured notice and no call; a tool that exists is called once,
    and what it returns is the result, while what it raises becomes an
    error notice naming the tool and the exception text. *)
Theorem use_tool_outcomes (tool_name : str) (it : intent)
    (user_input : str) :
  let result := _use_tool env tool_name it user_input in
  (tool_available env tool_name = false →
     result = (u "❌ " ++ tool_name ++ u " 工具尚未配置", []))
  ∧ (tool_available env tool_name = true →
     ∃ call, result.2 = [call]
       ∧ (∀ s, tool_answer env call = Return s → result.1 = s)
       ∧ (∀ e, tool_answer env call = Raise e →
            result.1
            = u "❌ 使用 " ++ tool_name ++ u " 工具時發生錯誤: " ++ e)).
Proof.
  cbv zeta. unfold _use_tool. split; intros Havail; rewrite Havail; [done|].
  cbn [negb]. unfold tool_available in Havail.
  destruct (str_eqb tool_name (u "weather")).
  { eexists. split; [done|]. split; intros ? ->; done. }
  destruct (str_eqb tool_name (u "calendar")).
  { eexists. split; [done|]. split; intros ? ->; done. }
  destruct (str_eqb tool_name (u "email")); [|done].
  eexists. split; [done|]. split; intros ? ->; done.
Qed.

Lemma detect_calendar user_input :
  ¬ has_keyword weather_keywords user_input →
  has_keyword calendar_keywords user_input →
  _detect_intent user_input
  = {| intent_type := u "calendar"; confidence := 0.7;
       entities := _extract_time_info user_input ∪ ∅ |}.
Proof.
  unfold has_keyword. rewrite <- !AgentCoreFacts.any_in_true.
  rewrite not_true_iff_false. intros Hw Hc.
  unfold _detect_intent. by rewrite Hw, Hc.
Qed.

Lemma detect_email user_input :
  ¬ has_keyword weather_keywords user_input →
  ¬ has_keyword calendar_keywords user_input →
  has_keyword email_keywords user_input →
  _detect_intent user_input
  = {| intent_type := u "email"; confidence := 0.7; entities := ∅ |}.
Proof.
  unfold has_keyword. rewrite <- !AgentCoreFacts.any_in_true.
  rewrite !not_true_iff_false. intros Hw Hc He.
  unfold _detect_intent. by rewrite Hw, Hc, He.
Qed.

Lemma detect_general_eq user_input :
  ¬ has_keyword weather_keywords user_input →
  ¬ has_keyword calendar_keywords user_input →
  ¬ has_keyword email_keywords user_input →
  _detect_intent user_input
  = {| intent_type := u "general"; confidence := 0.0; entities := ∅ |}.
Proof.
  unfold has_keyword. rewrite <- !AgentCoreFacts.any_in_true.
  rewrite !not_true_iff_false. intros Hw Hc He.
  unfold _detect_intent. by rewrite Hw, Hc, He.
Qed.

Lemma use_tool_calendar it user_input :
  (_use_tool env (u "calendar") it user_input).2
  = [ManageSchedule user_input (entities it)].
Proof. by vm_compute. Qed.

Lemma use_tool_email it user_input :
  (_use_tool env (u "email") it user_input).2 = [ProcessEmail user_input].
Proof. by vm_compute. Qed.

(** Which domain tool a request reaches.  Without a weather word, a
    calendar word sends the raw input and the extracted date and time to
    the calendar tool, also when an email word occurs; with neither, an
    email word sends the raw input to the email tool; without any keyword
    no tool is called.  Each tool is called once. *)
Theorem assemble_context_calls (now user_input : str)
    (chat_history : list chat_message) :
  let calls :=
    (assemble_context env now (_detect_intent user_input) user_input
       chat_history).2 in
  (¬ has_keyword weather_keywords user_input →
   has_keyword calendar_keywords user_input →
   calls = [ManageSchedule user_input (_extract_time_info user_input)])
  ∧ (¬ has_keyword weather_keywords user_input →
     ¬ has_keyword calendar_keywords user_input →
     has_keyword email_keywords user_input →
     calls = [ProcessEmail user_input])
  ∧ (¬ has_keyword weather_keywords user_input →
     ¬ has_keyword calendar_keywords user_input →
     ¬ has_keyword email_keywords user_input →
     calls = []).
Proof.
  cbv zeta. unfold assemble_context. split_and!.
  - intros Hw Hc. rewrite (detect_calendar _ Hw Hc).
    rewrite DispatchFacts.tool_section_dispatch
      by (split; [by vm_compute|reflexivity]).
    cbn [snd intent_type]. rewrite use_tool_calendar. cbn [entities].
    by rewrite (right_id_L ∅ (∪)).
  - intros Hw Hc He. rewrite (detect_email _ Hw Hc He).
    rewrite DispatchFacts.tool_section_dispatch
      by (split; [by vm_compute|reflexivity]).
    cbn [snd intent_type]. by rewrite use_tool_email.
  - intros Hw Hc He. rewrite (detect_general_eq _ Hw Hc He).
    rewrite DispatchFacts.tool_section_skip; [done|].
    intros [Hne _]. by apply Hne.
Qed.

End Requests.

Section TimeInfo.
Context {U : Unicode}.

(** [_extract_time_info] sets at most the keys [date] and [time]; the date
    is [today] as soon as "今天" or "今日" occurs, whatever other day is
    named, and no date is set exactly when none of the five day words
    occurs. *)
Theorem extract_time_info_date (text : str) :
  let info := _extract_time_info text in
  (∀ key, is_Some (info !! key) → key = u "date" ∨ key = u "time")
  ∧ (contains (u "今天") text = true ∨ contains (u "今日") text = true →
     info !! u "date" = Some (MStr (u "today")))
  ∧ (info !! u "date" = None ↔
     Forall (λ word, contains word text = false)
       [u "今天"; u "今日"; u "明天"; u "明日"; u "後天"])
  ∧ (∀ v, info !! u "date" = Some v →
       v ∈ [MStr (u "today"); MStr (u "tomorrow");
            MStr (u "day_after_tomorrow")]).
Proof.
  cbv zeta. unfold _extract_time_info. cbv zeta.
  assert (Hne : u "time" ≠ u "date") by by vm_compute.
  set (d := if contains (u "今天") text || contains (u "今日") text
            then {[u "date" := MStr (u "today")]}
            else if contains (u "明天") text || contains (u "明日") text
            then {[u "date" := MStr (u "tomorrow")]}
            else if contains (u "後天") text
            then {[u "date" := MStr (u "day_after_tomorrow")]}
            else (∅ : gmap str rematch)).
  assert (Hdate : ∀ info : gmap str rematch,
    info = d ∨ (∃ m, info = <[u "time" := m]> d) →
    info !! u "date" = d !! u "date"
    ∧ ∀ key, is_Some (info !! key) →
        is_Some (d !! key) ∨ key = u "time").
  { intros info [->|[m ->]]; [by auto|]. split.
    - by rewrite lookup_insert_ne.
    - intros key. destruct (decide (u "time" = key)) as [<-|?]; [auto|].
      rewrite lookup_insert_ne by done. auto. }
  destruct (Hdate (match first_time time_patterns text with
                   | Some m => <[u "time" := m]> d
                   | None => d
                   end)) as [-> Hkeys].
  { destruct (first_time time_patterns text); eauto. }
  assert (Hd : ∀ key, is_Some (d !! key) → key = u "date").
  { intros key. unfold d. repeat case_match;
      rewrite ?lookup_singleton_is_Some, ?lookup_empty;
      [done..|by intros [? [=]]]. }
  split_and!.
  - intros key [Hk| ->]%Hkeys; [left; by apply Hd|by right].
  - unfold d. intros [->| ->]; [|rewrite orb_true_r];
      by rewrite ?lookup_singleton_eq.
  - rewrite !Forall_cons, Forall_nil. unfold d.
    destruct (contains (u "今天") text), (contains (u "今日") text),
      (contains (u "明天") text), (contains (u "明日") text),
      (contains (u "後天") text); cbn [orb];
      rewrite ?lookup_singleton_eq, ?lookup_empty; intuition congruence.
  - intros v. unfold d. repeat case_match;
      rewrite ?lookup_singleton_eq, ?lookup_empty; intros [= <-];
      rewrite !elem_of_cons; tauto.
Qed.

End TimeInfo.

(** A calendar tool that raises. *)
Lemma use_tool_outcomes_witness :
  let env := {| weather_configured := false;
                tool_answer := λ _, Raise (u "boom");
                generate_content := λ prompt, Return prompt |} in
  let it := {| intent_type := u "calendar"; confidence := 0.7;
               entities := ∅ |} in
  _use_tool env (u "weather") it (u "會議")
  = (u "❌ weather 工具尚未配置", [])
  ∧ (_use_tool env (u "calendar") it (u "會議")).1
    = u "❌ 使用 calendar 工具時發生錯誤: boom".
Proof.
  cbv zeta. split.
  - etrans; [|by vm_compute].
    by apply use_tool_outcomes.
  - match goal with |- (_use_tool ?env ?n ?it ?i).1 = _ =>
      destruct (use_tool_outcomes env n it i) as [_ Hrun] end.
    destruct Hrun as (call & _ & _ & Hraise); [done|].
    rewrite (Hraise (u "boom")) by done. by vm_compute.
Defined.

Lemma process_request_blank_witness :
  process_request no_weather (u "2024-06-11 10:00:00") (u "  ") [] []
  = (u "請告訴我您需要什麼幫助 😊", []).
Proof.
  apply process_request_blank. by repeat constructor.
Defined.

Lemma assemble_context_calls_witness :
  (assemble_context no_weather (u "2024-06-11 10:00:00")
     (_detect_intent (u "send email about the meeting"))
     (u "send email about the meeting") []).2
  = [ManageSchedule (u "send email about the meeting")
       (_extract_time_info (u "send email about the meeting"))].
Proof.
  assert (Hno : ∀ ks text, any_in ks (lower text) = false →
                           ¬ has_keyword ks text).
  { intros ks text Hks (k & Hk & Hin).
    rewrite AgentCoreFacts.any_in_false in Hks.
    rewrite (Hks k Hk) in Hin. done. }
  apply assemble_context_calls.
  - apply Hno. by vm_compute.
  - exists (u "meeting"). split; [|by vm_compute].
    by apply (bool_decide_unpack _); vm_compute.
Defined.

Lemma extract_time_info_date_witness :
  _extract_time_info (u "明天改到今天") !! u "date" = Some (MStr (u "today")).
Proof.
  apply extract_time_info_date. left. by vm_compute.
Defined.

End RequestFacts.

(** ** Export and import, repeated *)

Module PersistMore.
Import Memory Persist.

Lemma json_norm_idem (v : pyval) : json_norm (json_norm v) = json_norm v.
Proof.
  induction v as [|b|q|s|l IH|l IH|d IH] using pyval_induction; cbn;
    try done.
  - f_equal. rewrite map_map. apply map_ext_in.
    intros x Hx%list_elem_of_In. rewrite Forall_forall in IH. by apply IH.
  - f_equal. rewrite map_map. apply map_ext_in.
    intros x Hx%list_elem_of_In. rewrite Forall_forall in IH. by apply IH.
  - f_equal. rewrite map_map. apply map_ext_in.
    intros [k x] Hx%list_elem_of_In. rewrite Forall_forall in IH. cbn.
    f_equal. by apply (IH (k, x)).
Qed.

Lemma json_norm_keys (d : list (str * pyval)) :
  (map (λ kv, (kv.1, json_norm kv.2)) d).*1 = d.*1.
Proof. induction d as [|kv d IH]; cbn; [done|]. by rewrite IH. Qed.

Lemma py_ok_norm (v : pyval) : py_ok v → py_ok (json_norm v).
Proof.
  induction v as [|b|q|s|l IH|l IH|d IH] using pyval_induction; cbn;
    try done.
  - rewrite !PersistFacts.py_ok_list, Forall_fmap, !Forall_forall in *.
    intros Hl x Hx. apply IH; [done|]. by apply Hl.
  - rewrite !PersistFacts.py_ok_list, Forall_fmap, !Forall_forall in *.
    intros Hl x Hx. apply IH; [done|]. by apply Hl.
  - rewrite !PersistFacts.py_ok_fields, Forall_fmap.
    intros [Hnd Hd]. split.
    + by rewrite json_norm_keys.
    + rewrite !Forall_forall in *. intros x Hx. apply IH; [done|].
      by apply Hd.
Qed.

Section Twice.
Context {J : Json}.

(** What one export and import has read back, every further export and
    import reads back unchanged: the change of tuples into lists happens
    once. *)
Theorem export_import_settles (now now' : str) (o o0 o1 : objects) :
  py_ok (o_memories o) → py_ok (o_user_preferences o) →
  py_ok (o_important_facts o) →
  let once := (import_memories (export_memories now o) o0).1 in
  import_memories (export_memories now' once) o1
  = ({| o_max_memories := o_max_memories o1;
        o_memories := o_memories once;
        o_user_preferences := o_user_preferences once;
        o_important_facts := o_important_facts once |}, true).
Proof.
  intros Hm Hp Hf. cbv zeta.
  rewrite (PersistFacts.import_export now o o0) by done. cbn [fst].
  rewrite PersistFacts.import_export
    by (cbn [o_memories o_user_preferences o_important_facts];
        by apply py_ok_norm).
  cbn [o_memories o_user_preferences o_important_facts].
  by rewrite !json_norm_idem.
Qed.

End Twice.

Lemma export_import_settles_witness :
  let o := objects_of named_store in
  let once := (import_memories (export_memories [] o) o).1 in
  once ≠ o
  ∧ (import_memories (export_memories [] once) once).1 = once.
Proof.
  cbv zeta. split.
  - intros Heq. apply (f_equal o_user_preferences) in Heq.
    by vm_compute in Heq.
  - rewrite export_import_settles.
    + by destruct (import_memories _ _).1.
    + apply PersistFacts.py_ok_memories.
    + apply PersistFacts.py_ok_preferences.
    + apply PersistFacts.py_ok_facts.
Defined.

End PersistMore.

(** ** Searching the memories *)

Module SearchFacts.
Import Memory.

Lemma timestamp_ltb_asym a b :
  timestamp_ltb a b = true → timestamp_ltb b a = false.
Proof. apply str_ltb_asym. Qed.

Lemma timestamp_ltb_negtrans a b c :
  timestamp_ltb a b = false → timestamp_ltb b c = false →
  timestamp_ltb a c = false.
Proof. apply str_ltb_negtrans. Qed.

Section Search.
Context {U : Unicode}.

(** [search_memories] returns the stored entries in which the keyword, in
    lower case, occurs (in the input or the response in lower case, or in
    the keywords joined by blanks), each as often as it is stored, newest
    first. *)
Theorem search_memories_result (keyword : str) (s : store) :
  let found := search_memories keyword s in
  found ≡ₚ filter (λ m, keyword_in (lower keyword) m = true) (memories s)
  ∧ (∀ m, m ∈ found ↔
          m ∈ memories s ∧ keyword_in (lower keyword) m = true)
  ∧ StronglySorted
      (λ a b, str_ltb (timestamp a) (timestamp b) = false) found.
Proof.
  cbv zeta. unfold search_memories. cbv zeta. split_and!.
  - apply sort_desc_perm.
  - intros m. rewrite sort_desc_perm, list_elem_of_filter. tauto.
  - apply (sort_desc_sorted timestamp_ltb);
      [apply timestamp_ltb_asym|apply timestamp_ltb_negtrans].
Qed.

(** The empty keyword occurs everywhere: the search returns every entry
    (where, as for [str.lower], the empty string in lower case is
    empty). *)
Theorem search_memories_empty_keyword (s : store) :
  lower [] = [] →
  search_memories [] s ≡ₚ memories s.
Proof.
  intros Hlower. unfold search_memories. cbv zeta.
  rewrite sort_desc_perm, Hlower.
  assert (Hall : ∀ l : list memory,
            filter (λ m, keyword_in [] m = true) l = l).
  { induction l as [|m l IH]; [done|].
    rewrite filter_cons_True, IH; [done|].
    unfold keyword_in. by destruct (lower (user_input m)). }
  by rewrite Hall.
Qed.

End Search.

Lemma search_memories_empty_keyword_witness :
  lower [] = [] ∧ search_memories [] example_store ≡ₚ memories example_store.
Proof. split; [done|]. by apply search_memories_empty_keyword. Defined.

Lemma search_memories_result_witness :
  StronglySorted (λ a b, str_ltb (timestamp a) (timestamp b) = false)
    (search_memories (u "OK") example_store).
Proof.
  exact (proj2 (proj2 (search_memories_result (u "OK") example_store))).
Defined.

End SearchFacts.

(** ** Further properties of the email tool *)

Module EmailIntentFacts.
Import Email.

Section Intent.
Context {U : Unicode}.

(** The intent of an email request: [read] as soon as a read word
    occurs ("郵件" and "信件" are read words), so a request to reply that
    says "回覆郵件1" is a request to read; [reply] only without read and
    compose words; [help] without any word of the six sets. *)
Theorem detect_email_intent_order (user_input : str) :
  (AgentCore.has_keyword read_keywords user_input →
     _detect_email_intent user_input = u "read")
  ∧ (_detect_email_intent user_input = u "reply" →
     ¬ AgentCore.has_keyword read_keywords user_input
     ∧ ¬ AgentCore.has_keyword compose_keywords user_input
     ∧ AgentCore.has_keyword reply_keywords user_input)
  ∧ (¬ AgentCore.has_keyword read_keywords user_input →
     ¬ AgentCore.has_keyword compose_keywords user_input →
     ¬ AgentCore.has_keyword reply_keywords user_input →
     ¬ AgentCore.has_keyword search_keywords user_input →
     ¬ AgentCore.has_keyword summary_keywords user_input →
     ¬ AgentCore.has_keyword template_keywords user_input →
     _detect_email_intent user_input = u "help").
Proof.
  unfold AgentCore.has_keyword. rewrite <- !AgentCoreFacts.any_in_true.
  unfold _detect_email_intent. cbv zeta.
  destruct (AgentCore.any_in read_keywords _);
    [|destruct (AgentCore.any_in compose_keywords _);
      [|destruct (AgentCore.any_in reply_keywords _);
        [|destruct (AgentCore.any_in search_keywords _);
          [|destruct (AgentCore.any_in summary_keywords _);
            [|destruct (AgentCore.any_in template_keywords _)]]]]];
    (split_and!;
     [done
     |try (by intros Heq; vm_compute in Heq); by auto
     |try done; tauto]).
Qed.

(** [_reply_email] asks for an id when the text has no integer or its
    first integer is 0, reports an id that no email has, and otherwise
    writes the draft for the first email with that id; where [int] refuses
    the digits, more than 4300 of them, it raises that [ValueError]
    instead of answering. *)
Theorem reply_email_cases (user_input : str) (mailbox : list email) :
  (_extract_email_id user_input = Returns None
   ∨ _extract_email_id user_input = Returns (Some 0%Z) →
   _reply_email user_input mailbox = Returns no_reply_id_message)
  ∧ (∀ email_id,
       _extract_email_id user_input = Returns (Some email_id) →
       email_id ≠ 0%Z →
       (∀ email, email ∈ mailbox → e_id email ≠ email_id) →
       _reply_email user_input mailbox
       = Returns (not_found_message email_id))
  ∧ (∀ email_id i email,
       _extract_email_id user_input = Returns (Some email_id) →
       email_id ≠ 0%Z →
       mailbox !! i = Some email → e_id email = email_id →
       (∀ j email', mailbox !! j = Some email' → (j < i)%nat →
                    e_id email' ≠ email_id) →
       _reply_email user_input mailbox = Returns (reply_draft email))
  ∧ (∀ e, _extract_email_id user_input = Raises e →
       _reply_email user_input mailbox = Raises e).
Proof.
  unfold _reply_email. split_and!.
  - by intros [->| ->].
  - intros email_id -> Hnz Hnone. rewrite bool_decide_true by done.
    destruct (_find_email_by_id email_id mailbox) as [[i email]|] eqn:Hfind;
      [|done].
    apply list_find_Some in Hfind as (Hi & He & _).
    destruct (Hnone email); [by eapply list_elem_of_lookup_2|done].
  - intros email_id i email -> Hnz Hi He Hfirst.
    rewrite bool_decide_true by done.
    assert (Hfind : _find_email_by_id email_id mailbox = Some (i, email)).
    { apply list_find_Some. split_and!; [done..|].
      intros j email' Hj Hlt. by eapply Hfirst. }
    by rewrite Hfind.
  - by intros e ->.
Qed.

End Intent.

Lemma detect_email_intent_order_witness :
  _detect_email_intent (u "回覆郵件1") = u "read"
  ∧ _detect_email_intent (u "hello") = u "help".
Proof.
  split.
  - apply (proj1 (detect_email_intent_order _)).
    exists (u "郵件"). split; [|by vm_compute].
    by apply (bool_decide_unpack _); vm_compute.
  - apply (proj2 (proj2 (detect_email_intent_order _)));
      unfold AgentCore.has_keyword; rewrite <- AgentCoreFacts.any_in_true;
      by vm_compute.
Defined.

Lemma reply_email_cases_witness :
  _reply_email (u "reply 0") mock_emails = Returns no_reply_id_message
  ∧ _reply_email (u "reply 7") mock_emails = Returns (not_found_message 7)
  ∧ _reply_email (u "reply " ++ replicate 4301 57) mock_emails
    = Raises (ValueError (u "Exceeds the limit (4300 digits) for integer string conversion: value has 4301 digits; use sys.set_int_max_str_digits() to increase the limit")).
Proof.
  split_and!.
  - apply reply_email_cases. right. by vm_compute.
  - apply reply_email_cases; [by vm_compute|done|].
    intros email Hin. unfold mock_emails in Hin.
    rewrite !elem_of_cons, elem_of_nil in Hin.
    by destruct Hin as [->|[->|[->|[]]]].
  - apply reply_email_cases. vm_compute. reflexivity.
Defined.

End EmailIntentFacts.

(** ** The weather advice *)

Module WeatherFacts.
Import Weather.

Lemma temperature_remark_nil (temperature : Z) :
  temperature_remark temperature = []
  ↔ (10 ≤ temperature ≤ 14 ∨ 26 ≤ temperature ≤ 30)%Z.
Proof.
  unfold temperature_remark.
  destruct (Z.ltb_spec temperature 10).
  { split; [intros Heq; by vm_compute in Heq|intros ?; exfalso; lia]. }
  destruct (Z.ltb_spec 30 temperature).
  { split; [intros Heq; by vm_compute in Heq|intros ?; exfalso; lia]. }
  destruct (Z.leb_spec 15 temperature), (Z.leb_spec temperature 25);
    cbn [andb].
  - split; [intros Heq; by vm_compute in Heq|intros ?; exfalso; lia].
  - split; [intros _; lia|done].
  - split; [intros _; lia|done].
  - split; [intros _; lia|done].
Qed.

Lemma humidity_remark_nil (humidity : Z) :
  humidity_remark humidity = [] ↔ (30 ≤ humidity ≤ 80)%Z.
Proof.
  unfold humidity_remark.
  destruct (Z.ltb_spec 80 humidity).
  { split; [intros Heq; by vm_compute in Heq|intros ?; exfalso; lia]. }
  destruct (Z.ltb_spec humidity 30).
  { split; [intros Heq; by vm_compute in Heq|intros ?; exfalso; lia]. }
  split; [intros _; lia|done].
Qed.

Section Advice.
Context {U : Unicode}.

Lemma condition_remark_nil (condition : str) :
  condition_remark condition = []
  ↔ Forall (λ word, contains word (lower condition) = false)
      [u "rain"; u "drizzle"; u "thunderstorm"; u "snow"].
Proof.
  unfold condition_remark. rewrite !Forall_cons, Forall_nil.
  destruct (contains (u "rain") _), (contains (u "drizzle") _),
    (contains (u "thunderstorm") _), (contains (u "snow") _); cbn [orb];
    (split;
     [first [intros Heq; by vm_compute in Heq|intros _; by repeat split]
     |first [done|intros (?&?&?&?&?); done]]).
Qed.

(** [_get_weather_advice] can say nothing after its heading: that is so
    exactly for a temperature of 10 to 14 or 26 to 30 degrees, a humidity
    of 30 to 80 percent and a condition without rain, drizzle,
    thunderstorm and snow. *)
Theorem weather_advice_heading_only (temperature : Z) (condition : str)
    (humidity : Z) :
  _get_weather_advice temperature condition humidity = u "💡 **貼心提醒**: "
  ↔ (10 ≤ temperature ≤ 14 ∨ 26 ≤ temperature ≤ 30)%Z
    ∧ (30 ≤ humidity ≤ 80)%Z
    ∧ Forall (λ word, contains word (lower condition) = false)
        [u "rain"; u "drizzle"; u "thunderstorm"; u "snow"].
Proof.
  rewrite <- temperature_remark_nil, <- humidity_remark_nil,
    <- condition_remark_nil.
  unfold _get_weather_advice.
  generalize (temperature_remark temperature) (condition_remark condition)
    (humidity_remark humidity). intros a b c. split.
  - intros Heq. rewrite <- (app_nil_r (u "💡 **貼心提醒**: ")) in Heq at 2.
    apply app_inv_head in Heq.
    apply app_eq_nil in Heq as [-> [-> ->]%app_eq_nil]. done.
  - intros (-> & -> & ->). by rewrite !app_nil_r.
Qed.

(** Rain goes before thunder and snow: a condition that mentions rain or
    drizzle (in any case) gets the umbrella remark alone, also when it
    mentions a thunderstorm. *)
Theorem condition_remark_rain_first (condition : str) :
  (contains (u "rain") (lower condition) = true
   ∨ contains (u "drizzle") (lower condition) = true →
   condition_remark condition = u " 記得帶雨具！")
  ∧ (condition_remark condition = u " 有雷雨，避免戶外活動！" →
     contains (u "rain") (lower condition) = false
     ∧ contains (u "drizzle") (lower condition) = false
     ∧ contains (u "thunderstorm") (lower condition) = true).
Proof.
  unfold condition_remark.
  set (rain := contains (u "rain") (lower condition)).
  set (drizzle := contains (u "drizzle") (lower condition)).
  set (thunder := contains (u "thunderstorm") (lower condition)).
  set (snow := contains (u "snow") (lower condition)).
  split.
  - intros Hor. apply orb_true_iff in Hor. by rewrite Hor.
  - destruct (rain || drizzle) eqn:Hor.
    + intros Heq. by vm_compute in Heq.
    + apply orb_false_iff in Hor as [-> ->].
      destruct thunder; [by intros _|].
      destruct snow; intros Heq; by vm_compute in Heq.
Qed.

Lemma table_get_absent table key dflt :
  key ∉ table.*1 → table_get table key dflt = dflt.
Proof.
  induction table as [|[k v] table IH]; cbn; [done|].
  rewrite not_elem_of_cons. intros [Hne Hnot].
  unfold str_eqb. rewrite bool_decide_false by done. by apply IH.
Qed.

Lemma table_get_present table key value dflt :
  NoDup table.*1 → (key, value) ∈ table →
  table_get table key dflt = value.
Proof.
  induction table as [|[k v] table IH]; cbn.
  - by intros _ ?%elem_of_nil.
  - intros [Hk Hnd]%NoDup_cons [[= <- <-]|Hin]%elem_of_cons.
    + unfold str_eqb. by rewrite bool_decide_true.
    + unfold str_eqb. rewrite bool_decide_false; [by apply IH|].
      intros ->. apply Hk. by apply (list_elem_of_fmap_2 fst _ (key, value)).
Qed.

(** [_translate_weather_condition] looks the condition up in lower case;
    a condition that is not in the table comes back as it was written,
    with the default symbol behind it. *)
Theorem translate_weather_condition_lookup (condition : str) :
  (∀ name translation, (name, translation) ∈ conditions →
     lower condition = name →
     _translate_weather_condition condition = translation)
  ∧ (lower condition ∉ conditions.*1 →
     _translate_weather_condition condition = condition ++ u " 🌤️").
Proof.
  unfold _translate_weather_condition. split.
  - intros name translation Hin ->. apply table_get_present; [|done].
    by apply (bool_decide_unpack _); vm_compute.
  - apply table_get_absent.
Qed.

End Advice.

Lemma weather_advice_heading_only_witness :
  _get_weather_advice 12 (u "Clouds") 50 = u "💡 **貼心提醒**: ".
Proof.
  apply weather_advice_heading_only. split; [by left|]. split; [done|].
  by repeat constructor.
Defined.

Lemma condition_remark_rain_first_witness :
  condition_remark (u "Thunderstorm with light Rain") = u " 記得帶雨具！".
Proof. apply condition_remark_rain_first. left. by vm_compute. Defined.

Lemma translate_weather_condition_lookup_witness :
  _translate_weather_condition (u "RAIN") = u "下雨 🌧️"
  ∧ _translate_weather_condition (u "Smoke") = u "Smoke 🌤️".
Proof.
  split.
  - apply (proj1 (translate_weather_condition_lookup _) (u "rain"));
      [|by vm_compute].
    unfold conditions. rewrite !elem_of_cons. tauto.
  - apply translate_weather_condition_lookup.
    by apply (bool_decide_unpack _); vm_compute.
Defined.

End WeatherFacts.

(** ** Viewing the calendar *)

Module CalendarViewFacts.
Import Calendar.

(** Which events a view shows.  They are events of the calendar, in their
    order.  With the date entity [today] the range is "今天" and the events
    shown are the ones dated today.  The ranges "下週" and "所有" are not
    filtered: all events are shown. *)
Theorem view_range_events (d : dates) (entities : gmap str rematch)
    (entities_str : str) (t : tool) :
  let range_type := _determine_view_range entities entities_str in
  let shown := _filter_events_by_range d range_type t in
  range_type ∈ [u "今天"; u "明天"; u "本週"; u "下週"; u "所有"]
  ∧ shown `sublist_of` events t
  ∧ (entities !! u "date" = Some (MStr (u "today")) →
     range_type = u "今天"
     ∧ shown = filter (λ e, ev_date e = today d) (events t))
  ∧ (range_type = u "下週" ∨ range_type = u "所有" → shown = events t).
Proof.
  cbv zeta. split_and!.
  - unfold _determine_view_range. repeat case_match;
      rewrite !elem_of_cons; tauto.
  - unfold _filter_events_by_range. repeat case_match;
      try apply sublist_filter; done.
  - intros Hdate. unfold _determine_view_range.
    rewrite bool_decide_true by done. cbn [orb]. split; [done|].
    unfold _filter_events_by_range.
    by replace (str_eqb (u "今天") (u "今天")) with true by by vm_compute.
  - intros [-> | ->]; by vm_compute.
Qed.

Lemma view_range_events_witness :
  let d := {| today := u "2024-06-11"; tomorrow := u "2024-06-12";
              week_start := u "2024-06-10"; week_end := u "2024-06-16" |} in
  let entities : gmap str rematch := {[ u "date" := MStr (u "today") ]} in
  _filter_events_by_range d (_determine_view_range entities []) init = [].
Proof.
  cbv zeta.
  match goal with |- _filter_events_by_range ?d (_ ?e ?s) ?t = _ =>
    destruct (view_range_events d e s t) as (_ & _ & Htoday & _) end.
  destruct Htoday as [_ ->]; by vm_compute.
Defined.

End CalendarViewFacts.

(** ** The city of a weather request and the chat history *)

Module ContextFacts.
Import AgentCore.

Lemma filter_head_split {A} (P : A → Prop) `{∀ x, Decision (P x)}
    (l : list A) (x : A) (r : list A) :
  filter P l = x :: r →
  ∃ l1 l2, l = l1 ++ x :: l2 ∧ Forall (λ y, ¬ P y) l1 ∧ P x.
Proof.
  induction l as [|y l IH]; [done|]. rewrite filter_cons.
  destruct (decide (P y)) as [Hy|Hy].
  - intros [= -> <-]. exists [], l. by repeat split.
  - intros (l1 & l2 & -> & Hl1 & Hx)%IH.
    exists (y :: l1), l2. split_and!; [done| |done]. by constructor.
Qed.

Section City.
Context {U : Unicode}.

(** The city of a weather request is the first entry of the gazetteer
    that occurs in the input (both in lower case), wherever in the input it
    stands; there is no city exactly when no entry occurs; and [city] is
    the only entity of a weather request. *)
Theorem detect_intent_city (user_input : str) :
  has_keyword weather_keywords user_input →
  let ents := entities (_detect_intent user_input) in
  let occurs city := contains (lower city) (lower user_input) = true in
  (∀ key, is_Some (ents !! key) → key = u "city")
  ∧ (∀ v, ents !! u "city" = Some v →
       ∃ city before after,
         v = MStr city ∧ cities = before ++ city :: after
         ∧ occurs city ∧ Forall (λ c, ¬ occurs c) before)
  ∧ (ents !! u "city" = None ↔ Forall (λ c, ¬ occurs c) cities).
Proof.
  intros Hw%AgentCoreFacts.any_in_true. cbv zeta.
  unfold _detect_intent. cbv zeta. rewrite Hw. cbn [entities].
  unfold _extract_cities. cbv zeta.
  destruct (filter _ cities) as [|city found] eqn:Hfilter.
  - split_and!.
    + intros key. rewrite lookup_empty. by intros [? [=]].
    + intros v. by rewrite lookup_empty.
    + rewrite lookup_empty. split; [intros _|done].
      apply Forall_forall. intros c Hc Hocc.
      assert (Hin : c ∈ filter
                (λ city, contains (lower city) (lower user_input) = true)
                cities) by by apply list_elem_of_filter.
      rewrite Hfilter in Hin. by apply elem_of_nil in Hin.
  - apply filter_head_split in Hfilter as (l1 & l2 & Hsplit & Hl1 & Hx).
    split_and!.
    + intros key. destruct (decide (u "city" = key)) as [<-|Hne]; [done|].
      rewrite lookup_singleton_ne by done. by intros [? [=]].
    + intros v. rewrite lookup_singleton_eq. intros [= <-].
      exists city, l1, l2. done.
    + rewrite lookup_singleton_eq. split; [done|].
      rewrite Hsplit, Forall_app, Forall_cons. intros (_ & Hno & _).
      by destruct Hno.
Qed.

End City.

(** Only the last three messages of the chat history reach the context:
    older ones make no difference. *)
Theorem history_section_last_three (older recent : list chat_message) :
  length recent = 3%nat →
  history_section (older ++ recent) = history_section recent.
Proof.
  intros Hlen. unfold history_section.
  destruct recent as [|m1 [|m2 [|m3 [|m4 recent]]]]; try done.
  assert (Hslice : ∀ l : list chat_message,
            slice_from (-3) (l ++ [m1; m2; m3]) = [m1; m2; m3]).
  { intros l. unfold slice_from. change (0 <=? -3)%Z with false.
    change (Z.to_nat (- -3)) with 3%nat. cbv iota.
    rewrite length_app. cbn [length].
    replace (length l + 3 - 3)%nat with (length l) by lia.
    apply drop_app_length. }
  rewrite (Hslice older). pose proof (Hslice []) as Hnil.
  cbn [app] in Hnil. rewrite Hnil.
  by destruct older.
Qed.

Lemma detect_intent_city_witness :
  entities (_detect_intent (u "上海到台北的天氣")) !! u "city"
  = Some (MStr (u "台北")).
Proof.
  destruct (detect_intent_city (u "上海到台北的天氣")) as (_ & Hcity & _).
  { exists (u "天氣"). split; [|by vm_compute].
    by apply (bool_decide_unpack _); vm_compute. }
  destruct (entities _ !! u "city") as [v|] eqn:Hv; [|by vm_compute in Hv].
  destruct (Hcity v eq_refl) as (city & before & after & -> & _).
  vm_compute in Hv. by rewrite <- Hv.
Defined.

Lemma history_section_last_three_witness :
  let m (r c : String.string) := {| role := u r; content := u c |} in
  history_section
    [m "user" "1"; m "assistant" "2"; m "user" "3"; m "assistant" "4"]
  = history_section [m "assistant" "2"; m "user" "3"; m "assistant" "4"].
Proof.
  cbv zeta.
  apply (history_section_last_three [_] [_; _; _]). done.
Defined.

End ContextFacts.
